(** * Bootstrap job queue state ([package queue], [state.go])

    A shallow embedding of the persistent state behind the bootstrap job
    queue: the job store with its content cache, the runnable list, the
    dependency buckets with their handle cache, the missing set and the
    checkpointed pending-job counter.

    The Go code threads one mutable [*state] through every method and
    reports failures through [error] results; here every method is a
    function from a state to a result and the state it leaves behind, so
    that what a failed call has already changed stays visible. *)

From Stdlib Require Import ZArith Lia Ascii String.
From stdpp Require Import base option list strings gmap.

Local Open Scope string_scope.
Local Open Scope list_scope.
Local Open Scope Z_scope.

(** ** Bytes, errors and results *)

(** A Go [[]byte]; the nil slice is the empty string. *)
Abbreviation bytes := string (only parsing).

Inductive Error : Type :=
| ErrNotFound                         (* database.ErrNotFound *)
| ErrStorage                          (* an I/O failure of the backing store *)
| ErrLength (expected got : nat)      (* a byte slice of the wrong length *)
| ErrParse (reason : string)          (* the parser rejected the bytes *)
| ErrNilParser                        (* calling Parse on the nil parser panics *)
| ErrWrap (context : string) (cause : Error).   (* fmt.Errorf("...: %w", err) *)

#[global] Instance Error_eq_dec : EqDecision Error.
Proof. solve_decision. Defined.

(** A Go result pair [(v, err)] in which [v] is meaningful only when
    [err] is nil. *)
Inductive Res (A : Type) : Type :=
| OK (a : A)
| Err (e : Error).
Arguments OK {A} a.
Arguments Err {A} e.

Definition isOK {A} (r : Res A) : bool :=
  match r with OK _ => true | Err _ => false end.

(** A Go [error] result: [None] is nil. *)
Abbreviation error := (option Error) (only parsing).

Definition isNil (e : error) : bool :=
  match e with None => true | Some _ => false end.

(** ** Identifiers ([package ids]) *)

Module ids.

(** [ids.ID] is [[32]byte].  An identifier is carried as its bytes; it is
    well formed when there are exactly 32 of them. *)
Abbreviation ID := string (only parsing).

Definition IDLen : nat := 32.

Definition wf (id : ID) : Prop := String.length id = IDLen.

(** Modelled from the spec: [ids.ToID] (the source of package ids is not
    included).  The spec lists "conversion failure (malformed identifier
    bytes read back from a list)" and calls the identifier "fixed-width":
    the bytes become an identifier exactly when they have that width. *)
Definition ToID (b : bytes) : Res ID :=
  if Nat.eqb (String.length b) IDLen then OK b
  else Err (ErrLength IDLen (String.length b)).

(** A Go array literal [ids.ID{'e', 'v', 'm'}]: the given bytes followed
    by zero bytes up to the width. *)
Fixpoint zeros (n : nat) : string :=
  match n with
  | O => EmptyString
  | S n' => String zero (zeros n')
  end.

Definition lit (s : string) : ID :=
  s +:+ zeros (IDLen - String.length s).

End ids.

(** ** 64-bit unsigned counters *)

Definition u64 (z : Z) : Z := z mod 2 ^ 64.

(** Modelled from the spec: the encoding behind [database.PutUInt64] (the
    source of package database is not included): a "single fixed-width
    counter value".  The counter is stored as eight bytes, most significant
    first. *)
Fixpoint packBE (n : nat) (v : Z) : bytes :=
  match n with
  | O => EmptyString
  | S n' => packBE n' (v / 256) +:+ String (ascii_of_N (Z.to_N (v mod 256))) EmptyString
  end.

(** Modelled from the spec: the decoding behind [database.GetUInt64] (the
    source of package database is not included), the inverse of the
    "fixed-width" encoding above. *)
Fixpoint unpackBE (acc : Z) (b : bytes) : Z :=
  match b with
  | EmptyString => acc
  | String c b' => unpackBE (acc * 256 + Z.of_N (N_of_ascii c)) b'
  end.

Definition PackUInt64 (v : Z) : bytes := packBE 8 v.

(** Modelled from the spec: [database.ParseUInt64] (not included): bytes
    that do not have the fixed width are not a counter. *)
Definition ParseUInt64 (b : bytes) : Res Z :=
  if Nat.eqb (String.length b) 8 then OK (unpackBE 0 b)
  else Err (ErrLength 8 (String.length b)).

(** ** The backing store and its handles

    Every database the state holds is a view of one underlying store: a
    [prefixdb] wraps a database so that its keys live under a prefix of
    their own, and a [linkeddb] keeps an ordered list of keys inside such a
    view.  The store is therefore modelled once, and a handle is the path of
    prefixes that leads to its name space.  Two name spaces are kept apart
    whenever their paths differ. *)

Abbreviation view := (list string) (only parsing).

Record Store : Type := mkStore {
  (** name space of key-value pairs, by path *)
  plain : gmap (list string) (gmap string string);
  (** ordered list kept by a linked database, by path; head first *)
  linked : gmap (list string) (list (string * string));
  (** the storage calls still to come that will fail: every call that
      reaches the store takes the next entry, and none is left when the
      store no longer fails *)
  faults : list bool
}.

Definition set_plain (v : view) (m : gmap string string) (d : Store) : Store :=
  mkStore (<[v := m]> (plain d)) (linked d) (faults d).

Definition set_linked (v : view) (l : list (string * string)) (d : Store) : Store :=
  mkStore (plain d) (<[v := l]> (linked d)) (faults d).

Definition plainAt (v : view) (d : Store) : gmap string string :=
  default ∅ (plain d !! v).

Definition linkedAt (v : view) (d : Store) : list (string * string) :=
  default [] (linked d !! v).

(** One call reaches the store: does it fail, and the store afterwards. *)
Definition tick (d : Store) : bool * Store :=
  match faults d with
  | [] => (false, d)
  | f :: fs => (f, mkStore (plain d) (linked d) fs)
  end.

Module prefixdb.

(** Modelled from the spec: [prefixdb.New] (the source of package prefixdb
    is not included): "ordered key-value storage with prefix isolation". *)
Definition New (prefix : bytes) (db : view) : view := db ++ [prefix].

End prefixdb.

Module database.

(** The operations of [database.Database] (the source of package database
    is not included) follow the spec: "get/put/delete by key within a
    namespace; forward iteration with explicit release", failing with
    NotFound on a "key absent in store" and with a storage failure that is
    "always propagated".  A call that fails changes nothing. *)

(** Modelled from the spec: [Database.Has] (not included). *)
Definition Has (db : view) (key : bytes) (d : Store) : Res bool * Store :=
  let (fail, d) := tick d in
  if fail then (Err ErrStorage, d)
  else (OK (bool_decide (is_Some (plainAt db d !! key))), d).

(** Modelled from the spec: [Database.Get] (not included): "get ... by key
    within a namespace", NotFound for a "key absent in store". *)
Definition Get (db : view) (key : bytes) (d : Store) : Res bytes * Store :=
  let (fail, d) := tick d in
  if fail then (Err ErrStorage, d)
  else match plainAt db d !! key with
       | Some value => (OK value, d)
       | None => (Err ErrNotFound, d)
       end.

(** Modelled from the spec: [Database.Put] (not included). *)
Definition Put (db : view) (key value : bytes) (d : Store) : error * Store :=
  let (fail, d) := tick d in
  if fail then (Some ErrStorage, d)
  else (None, set_plain db (<[key := value]> (plainAt db d)) d).

(** Modelled from the spec: [Database.Delete] (not included); deleting a
    key that is not there succeeds. *)
Definition Delete (db : view) (key : bytes) (d : Store) : error * Store :=
  let (fail, d) := tick d in
  if fail then (Some ErrStorage, d)
  else (None, set_plain db (delete key (plainAt db d)) d).

(** Modelled from the spec: [Database.NewIterator] (not included):
    "forward iteration".  An iterator is the list of entries it still has
    to yield.  Every [Next] reaches the store, the one that finds the
    iterator exhausted too, and may fail, which ends the iteration with
    [Error() != nil]. *)
Definition NewIterator (db : view) (d : Store) : list (string * string) :=
  map_to_list (plainAt db d).

(** Modelled from the spec: [database.PutUInt64] (not included): the
    counter is put as its fixed-width bytes. *)
Definition PutUInt64 (db : view) (key : bytes) (val : Z) (d : Store) : error * Store :=
  Put db key (PackUInt64 val) d.

(** Modelled from the spec: [database.GetUInt64] (not included): the
    bytes are read and decoded. *)
Definition GetUInt64 (db : view) (key : bytes) (d : Store) : Res Z * Store :=
  match Get db key d with
  | (Err err, d) => (Err err, d)
  | (OK b, d) => (ParseUInt64 b, d)
  end.

End database.

Module linkeddb.

(** The operations of [linkeddb.LinkedDB] (the source of package linkeddb
    is not included) follow the spec.  The list is an "ordered set (unique
    dependent ids)"; putting a key that is already there is
    "overwrite-with-no-value" and keeps its place, a new key is appended
    ("appends id to the tail of the ordered list"); "removing an absent id
    is a no-op"; the head is the "lowest insertion-order key".  A call
    that fails changes nothing. *)

(** Modelled from the spec: [linkeddb.NewDefault] (not included): the
    linked list lives in the name space of the database it wraps. *)
Definition NewDefault (db : view) : view := db.

(** Modelled from the spec: whether [key] is in the "ordered set". *)
Fixpoint hasKey (key : bytes) (l : list (string * string)) : bool :=
  match l with
  | [] => false
  | (k, _) :: l' => if decide (k = key) then true else hasKey key l'
  end.

(** Modelled from the spec: "overwrite" of the value of [key], in place. *)
Fixpoint overwrite (key value : bytes) (l : list (string * string)) : list (string * string) :=
  match l with
  | [] => []
  | (k, v) :: l' =>
      if decide (k = key) then (k, value) :: l' else (k, v) :: overwrite key value l'
  end.

(** Modelled from the spec: the list without [key]; "removing an absent
    id is a no-op". *)
Fixpoint remove (key : bytes) (l : list (string * string)) : list (string * string) :=
  match l with
  | [] => []
  | (k, v) :: l' =>
      if decide (k = key) then remove key l' else (k, v) :: remove key l'
  end.

(** Modelled from the spec: what [LinkedDB.Put] (not included) makes of
    the list: "overwrite" in place for a key that is there, and "appends
    ... to the tail" otherwise. *)
Definition insert (key value : bytes) (l : list (string * string)) : list (string * string) :=
  if hasKey key l then overwrite key value l else l ++ [(key, value)].

(** Modelled from the spec: [LinkedDB.Put] (not included). *)
Definition Put (db : view) (key value : bytes) (d : Store) : error * Store :=
  let (fail, d) := tick d in
  if fail then (Some ErrStorage, d)
  else (None, set_linked db (insert key value (linkedAt db d)) d).

(** Modelled from the spec: [LinkedDB.Delete] (not included): "removing
    an absent id is a no-op". *)
Definition Delete (db : view) (key : bytes) (d : Store) : error * Store :=
  let (fail, d) := tick d in
  if fail then (Some ErrStorage, d)
  else (None, set_linked db (remove key (linkedAt db d)) d).

(** Modelled from the spec: [LinkedDB.IsEmpty] (not included): "true iff
    the list is non-empty" is its negation. *)
Definition IsEmpty (db : view) (d : Store) : Res bool * Store :=
  let (fail, d) := tick d in
  if fail then (Err ErrStorage, d)
  else (OK (bool_decide (linkedAt db d = [])), d).

(** Modelled from the spec: [LinkedDB.HeadKey] (not included): "the head
    entry (lowest insertion-order key)", NotFound on an empty list. *)
Definition HeadKey (db : view) (d : Store) : Res bytes * Store :=
  let (fail, d) := tick d in
  if fail then (Err ErrStorage, d)
  else match linkedAt db d with
       | [] => (Err ErrNotFound, d)
       | (k, _) :: _ => (OK k, d)
       end.

(** Modelled from the spec: [LinkedDB.NewIterator] (not included): the
    entries an iterator created now will yield, "ordered for deterministic
    draining". *)
Definition NewIterator (db : view) (d : Store) : list (string * string) :=
  linkedAt db d.

End linkeddb.

(** ** Bounded caches ([package cache]) *)

Module cache.

(** Modelled from the spec: the [cache.LRU] behind [cache.Cacher] (the
    source of package cache is not included): a "bounded cache of recently
    used" entries, "LRU-style".  Entries are kept least recently used
    first; a hit refreshes the entry, and a new key put into a full cache
    takes the place of the least recently used one.  The metering wrapper
    around the jobs cache only counts hits and misses and is left out. *)
Record LRU (V : Type) : Type := mkLRU {
  Size : Z;
  entries : list (ids.ID * V)
}.
Arguments mkLRU {V} Size entries.
Arguments Size {V} l.
Arguments entries {V} l.

(** Modelled from the spec: the bound of the "bounded cache"; a cache
    holds one entry at least. *)
Definition capacity {V} (c : LRU V) : Z :=
  if Size c <=? 0 then 1 else Size c.

(** Modelled from the spec: the value the cache holds for [key]. *)
Fixpoint find {V} (key : ids.ID) (l : list (ids.ID * V)) : option V :=
  match l with
  | [] => None
  | (k, v) :: l' => if decide (k = key) then Some v else find key l'
  end.

(** Modelled from the spec: the entries other than that of [key]. *)
Fixpoint without {V} (key : ids.ID) (l : list (ids.ID * V)) : list (ids.ID * V) :=
  match l with
  | [] => []
  | (k, v) :: l' =>
      if decide (k = key) then without key l' else (k, v) :: without key l'
  end.

(** Modelled from the spec: [LRU.Put] (not included). *)
Definition Put {V} (key : ids.ID) (value : V) (c : LRU V) : LRU V :=
  match find key (entries c) with
  | Some _ => mkLRU (Size c) (without key (entries c) ++ [(key, value)])
  | None =>
      if capacity c <=? Z.of_nat (length (entries c))
      then mkLRU (Size c) (tail (entries c) ++ [(key, value)])
      else mkLRU (Size c) (entries c ++ [(key, value)])
  end.

(** Modelled from the spec: [LRU.Get] (not included). *)
Definition Get {V} (key : ids.ID) (c : LRU V) : option V * LRU V :=
  match find key (entries c) with
  | Some v => (Some v, mkLRU (Size c) (without key (entries c) ++ [(key, v)]))
  | None => (None, c)
  end.

(** Modelled from the spec: [LRU.Flush] (not included): "flushes" the
    cache. *)
Definition Flush {V} (c : LRU V) : LRU V := mkLRU (Size c) [].

End cache.

(** ** Jobs and the parser *)

(** What the state uses of the [Job] interface: [ID()] and [Bytes()]. *)
Record Job : Type := mkJob {
  ID : ids.ID;
  Bytes : bytes
}.

(** A [Parser] interface value; [None] is the nil interface, on which a
    method call panics. *)
Definition Parser : Type := option (bytes -> Res Job).

Definition Parse (p : Parser) (b : bytes) : Res Job :=
  match p with
  | Some parse => parse b
  | None => Err ErrNilParser
  end.

(** ** The state *)

Definition dependentsCacheSize : Z := 1024.
Definition jobsCacheSize : Z := 2048.

Definition runnableJobIDsKey : bytes := "runnable".
Definition jobsKey : bytes := "jobs".
Definition dependenciesKey : bytes := "dependencies".
Definition missingJobIDsKey : bytes := "missing job IDs".
Definition pendingJobsKey : bytes := "pendingJobs".

(** The handles [newState] derives from the database it is given.  They
    are fixed once and for all, so they are definitions instead of fields. *)
Definition runnableJobIDs : view := linkeddb.NewDefault (prefixdb.New runnableJobIDsKey []).
Definition jobs : view := prefixdb.New jobsKey [].
Definition dependencies : view := prefixdb.New dependenciesKey [].
Definition missingJobIDs : view := linkeddb.NewDefault (prefixdb.New missingJobIDsKey []).
Definition pendingJobs : view := prefixdb.New pendingJobsKey [].

Record state : Type := mkState {
  parser : Parser;
  (** the store that all the handles above are views of *)
  db : Store;
  cachingEnabled : bool;
  jobsCache : cache.LRU Job;
  (** handles of the dependency buckets that have recently been made *)
  dependentsCache : cache.LRU (list string);
  (** the number of pending jobs in the queue, a uint64 *)
  numPendingJobs : Z
}.

Definition set_db (d : Store) (s : state) : state :=
  mkState (parser s) d (cachingEnabled s) (jobsCache s) (dependentsCache s) (numPendingJobs s).

Definition set_jobsCache (c : cache.LRU Job) (s : state) : state :=
  mkState (parser s) (db s) (cachingEnabled s) c (dependentsCache s) (numPendingJobs s).

Definition set_dependentsCache (c : cache.LRU (list string)) (s : state) : state :=
  mkState (parser s) (db s) (cachingEnabled s) (jobsCache s) c (numPendingJobs s).

Definition set_numPendingJobs (n : Z) (s : state) : state :=
  mkState (parser s) (db s) (cachingEnabled s) (jobsCache s) (dependentsCache s) n.

Definition set_parser (p : Parser) (s : state) : state :=
  mkState p (db s) (cachingEnabled s) (jobsCache s) (dependentsCache s) (numPendingJobs s).

(** [for iterator.Next() { pendingJobs++ }; return pendingJobs, iterator.Error()] *)
Fixpoint countLoop (iterator : list (string * string)) (pendingJobs : Z) (d : Store)
  : (Z * error) * Store :=
  let (fail, d) := tick d in
  if fail then ((pendingJobs, Some ErrStorage), d)
  else
    match iterator with
    | [] => ((pendingJobs, None), d)
    | _ :: iterator' => countLoop iterator' (u64 (pendingJobs + 1)) d
    end.

Definition initializePendingJobs (d : view) (st : Store) : (Z * error) * Store :=
  countLoop (database.NewIterator d st) 0 st.

Definition getPendingJobs (d : view) (st : Store) : (Z * error) * Store :=
  match database.GetUInt64 d pendingJobsKey st with
  | (Err ErrNotFound, st) => initializePendingJobs d st
  | (Err err, st) => ((0, Some err), st)
  | (OK pending, st) => ((pending, None), st)
  end.

(** [metercacher.New] fails when the metrics cannot be registered; that
    outcome belongs to the registry and is an argument here. *)
Definition newState (st : Store) (registration : error) : Res state :=
  match registration with
  | Some err => Err (ErrWrap "couldn't create metered cache" err)
  | None =>
      match getPendingJobs pendingJobs st with
      | ((_, Some err), _) => Err (ErrWrap "couldn't initialize pending jobs" err)
      | ((pending, None), st) =>
          OK (mkState None st true
                (cache.mkLRU jobsCacheSize [])
                (cache.mkLRU dependentsCacheSize [])
                pending)
      end
  end.

(** Modelled from the spec: the assignment of the "Parser collaborator"
    to the state.  [newState] leaves the field nil and nothing in
    [state.go] sets it; the queue that owns the state does (its source is
    not included). *)
Definition SetParser (parse : bytes -> Res Job) (s : state) : state :=
  set_parser (Some parse) s.

(** A storage call made through the state's store. *)
Definition onStore {A} (call : Store -> A * Store) (s : state) : A * state :=
  let (a, d) := call (db s) in (a, set_db d s).

(** AddRunnableJob adds [jobID] to the runnable queue *)
Definition AddRunnableJob (jobID : ids.ID) (s : state) : error * state :=
  onStore (linkeddb.Put runnableJobIDs jobID "") s.

(** HasRunnableJob returns true if there is a job that can be run on the queue *)
Definition HasRunnableJob (s : state) : Res bool * state :=
  match onStore (linkeddb.IsEmpty runnableJobIDs) s with
  | (OK isEmpty, s) => (OK (negb isEmpty), s)
  | (Err err, s) => (Err err, s)
  end.

(** HasJob returns true if the job [id] is in the queue *)
Definition HasJob (id : ids.ID) (s : state) : Res bool * state :=
  let miss s := onStore (database.Has jobs id) s in
  if cachingEnabled s then
    match cache.Get id (jobsCache s) with
    | (Some _, c) => (OK true, set_jobsCache c s)
    | (None, _) => miss s
    end
  else miss s.

(** GetJob returns the job [id] *)
Definition GetJob (id : ids.ID) (s : state) : Res Job * state :=
  let miss s :=
    match onStore (database.Get jobs id) s with
    | (Err err, s) => (Err err, s)
    | (OK jobBytes, s) =>
        match Parse (parser s) jobBytes with
        | OK job =>
            if cachingEnabled s
            then (OK job, set_jobsCache (cache.Put id job (jobsCache s)) s)
            else (OK job, s)
        | Err err => (Err err, s)
        end
    end in
  if cachingEnabled s then
    match cache.Get id (jobsCache s) with
    | (Some job, c) => (OK job, set_jobsCache c s)
    | (None, _) => miss s
    end
  else miss s.

(** RemoveRunnableJob fetches and deletes the next job from the runnable
    queue.  The Go result is the pair [(Job, error)], and both can be
    non-nil at once. *)
Definition RemoveRunnableJob (s : state) : (option Job * error) * state :=
  match onStore (linkeddb.HeadKey runnableJobIDs) s with
  | (Err err, s) => ((None, Some err), s)
  | (OK jobIDBytes, s) =>
  match onStore (linkeddb.Delete runnableJobIDs jobIDBytes) s with
  | (Some err, s) => ((None, Some err), s)
  | (None, s) =>
  match ids.ToID jobIDBytes with
  | Err err =>
      ((None, Some (ErrWrap "couldn't convert job ID bytes to job ID" err)), s)
  | OK jobID =>
  match GetJob jobID s with
  | (Err err, s) => ((None, Some err), s)
  | (OK job, s) =>
  match onStore (database.Delete jobs jobIDBytes) s with
  | (Some err, s) => ((Some job, Some err), s)
  | (None, s) =>
      (* Guard rail to make sure we don't underflow. *)
      if numPendingJobs s =? 0 then ((Some job, None), s)
      else
        let s := set_numPendingJobs (u64 (numPendingJobs s - 1)) s in
        let (err, s) :=
          onStore (database.PutUInt64 pendingJobs pendingJobsKey (numPendingJobs s)) s in
        ((Some job, err), s)
  end end end end end.

(** PutJob adds the job to the queue *)
Definition PutJob (job : Job) (s : state) : error * state :=
  let id := ID job in
  let s :=
    if cachingEnabled s
    then set_jobsCache (cache.Put id job (jobsCache s)) s
    else s in
  match onStore (database.Put jobs id (Bytes job)) s with
  | (Some err, s) => (Some err, s)
  | (None, s) =>
      let s := set_numPendingJobs (u64 (numPendingJobs s + 1)) s in
      onStore (database.PutUInt64 pendingJobs pendingJobsKey (numPendingJobs s)) s
  end.

Definition getDependentsDB (dependency : ids.ID) (s : state) : list string * state :=
  let make s :=
    let dependencyDB := prefixdb.New dependency dependencies in
    let dependentsDB := linkeddb.NewDefault dependencyDB in
    if cachingEnabled s
    then (dependentsDB,
          set_dependentsCache (cache.Put dependency dependentsDB (dependentsCache s)) s)
    else (dependentsDB, s) in
  if cachingEnabled s then
    match cache.Get dependency (dependentsCache s) with
    | (Some dependentsDB, c) => (dependentsDB, set_dependentsCache c s)
    | (None, _) => make s
    end
  else make s.

(** AddDependency adds [dependent] as blocking on [dependency] being completed *)
Definition AddDependency (dependency dependent : ids.ID) (s : state) : error * state :=
  let (dependentsDB, s) := getDependentsDB dependency s in
  onStore (linkeddb.Put dependentsDB dependent "") s.

(** The loop of [RemoveDependencies]: the iterator has read the entry it
    is on before that entry is deleted, so it goes through the entries that
    were there when it was made. *)
Fixpoint removeLoop (dependentsDB : list string) (iterator : list (string * string))
    (dependents : list ids.ID) (d : Store) : (list ids.ID * error) * Store :=
  let (fail, d) := tick d in
  if fail then ((dependents, Some ErrStorage), d)
  else
    match iterator with
    | [] => ((dependents, None), d)
    | (dependentKey, _) :: iterator' =>
        match linkeddb.Delete dependentsDB dependentKey d with
        | (Some err, d) => (([], Some err), d)
        | (None, d) =>
            match ids.ToID dependentKey with
            | Err err => (([], Some err), d)
            | OK dependent =>
                removeLoop dependentsDB iterator' (dependents ++ [dependent]) d
            end
        end
    end.

(** RemoveDependencies removes the set of IDs that are blocking on the
    completion of [dependency] from the database and returns them. *)
Definition RemoveDependencies (dependency : ids.ID) (s : state)
  : (list ids.ID * error) * state :=
  let (dependentsDB, s) := getDependentsDB dependency s in
  let iterator := linkeddb.NewIterator dependentsDB (db s) in
  onStore (removeLoop dependentsDB iterator []) s.

Definition DisableCaching (s : state) : state :=
  let s := set_dependentsCache (cache.Flush (dependentsCache s)) s in
  let s := set_jobsCache (cache.Flush (jobsCache s)) s in
  mkState (parser s) (db s) false (jobsCache s) (dependentsCache s) (numPendingJobs s).

(** An [ids.Set] is a Go map, and [range] visits its keys in an order the
    runtime picks: the argument is the set's elements in the order of that
    visit, and what is proved of a set is proved for every order. *)
Fixpoint AddMissingJobIDs (missingIDs : list ids.ID) (s : state) : error * state :=
  match missingIDs with
  | [] => (None, s)
  | missingID :: rest =>
      match onStore (linkeddb.Put missingJobIDs missingID "") s with
      | (Some err, s) => (Some err, s)
      | (None, s) => AddMissingJobIDs rest s
      end
  end.

Fixpoint RemoveMissingJobIDs (missingIDs : list ids.ID) (s : state) : error * state :=
  match missingIDs with
  | [] => (None, s)
  | missingID :: rest =>
      match onStore (linkeddb.Delete missingJobIDs missingID) s with
      | (Some err, s) => (Some err, s)
      | (None, s) => RemoveMissingJobIDs rest s
      end
  end.

(** The loop of [MissingJobIDs]; the iterator's error is not looked at. *)
Fixpoint missingLoop (iterator : list (string * string)) (missingIDs : list ids.ID)
    (d : Store) : (list ids.ID * error) * Store :=
  let (fail, d) := tick d in
  if fail then ((missingIDs, None), d)
  else
    match iterator with
    | [] => ((missingIDs, None), d)
    | (key, _) :: iterator' =>
        match ids.ToID key with
        | Err err => (([], Some err), d)
        | OK missingID => missingLoop iterator' (missingIDs ++ [missingID]) d
        end
    end.

Definition MissingJobIDs (s : state) : (list ids.ID * error) * state :=
  onStore (missingLoop (linkeddb.NewIterator missingJobIDs (db s)) []) s.

(** ** What is observed of a state *)

(** A store with nothing in it, whose calls fail as [fs] says. *)
Definition emptyStore (fs : list bool) : Store := mkStore ∅ ∅ fs.

(** The next [n] calls that reach the store do not fail. *)
Definition calm (n : nat) (d : Store) : bool := forallb negb (take n (faults d)).

(** The bytes persisted under the checkpoint key, and the count they hold. *)
Definition checkpoint (d : Store) : option bytes :=
  plainAt pendingJobs d !! pendingJobsKey.

Definition persistedPending (d : Store) : option Z :=
  match checkpoint d with
  | Some b => match ParseUInt64 b with OK v => Some v | Err _ => None end
  | None => None
  end.

(** The handle of the bucket of [dependency], as [getDependentsDB] makes it. *)
Definition bucket (dependency : ids.ID) : list string :=
  linkeddb.NewDefault (prefixdb.New dependency dependencies).

(** The keys of a linked list, head first. *)
Definition keys (l : list (string * string)) : list string := map fst l.

(** What the spec says a read of job [id] gives once caching is bypassed:
    the bytes of the Job Store, decoded by the Parser; NotFound when the
    store has no such id. *)
Definition readThrough (id : ids.ID) (s : state) : Res Job :=
  match plainAt jobs (db s) !! id with
  | Some jobBytes => Parse (parser s) jobBytes
  | None => Err ErrNotFound
  end.

(** The jobs cache agrees with the store: whatever it holds for an id whose
    bytes are in the Job Store is what the parser makes of those bytes. *)
Definition coherent (s : state) : Prop :=
  Forall (λ e : ids.ID * Job,
            ∀ b, plainAt jobs (db s) !! e.1 = Some b → Parse (parser s) b = OK e.2)
         (cache.entries (jobsCache s)).

(** The handle cache holds, for a dependency, the handle of its bucket. *)
Definition handlesOK (s : state) : Prop :=
  Forall (λ e : ids.ID * list string, e.2 = bucket e.1)
         (cache.entries (dependentsCache s)).

(** The list after the keys [ks] have been deleted from it one after the
    other. *)
Fixpoint removeAll (ks : list string) (l : list (string * string)) : list (string * string) :=
  match ks with
  | [] => l
  | k :: ks' => removeAll ks' (linkeddb.remove k l)
  end.

(** How many times [x] is in a returned collection. *)
Definition occurrences (x : ids.ID) (l : list ids.ID) : nat :=
  length (filter (λ y, y = x) l).

(** ** Runs of the operation surface *)

Inductive Call : Type :=
| DoPutJob (job : Job)
| DoHasJob (id : ids.ID)
| DoGetJob (id : ids.ID)
| DoAddRunnableJob (jobID : ids.ID)
| DoHasRunnableJob
| DoRemoveRunnableJob
| DoAddDependency (dependency dependent : ids.ID)
| DoRemoveDependencies (dependency : ids.ID)
| DoAddMissingJobIDs (missingIDs : list ids.ID)
| DoRemoveMissingJobIDs (missingIDs : list ids.ID)
| DoMissingJobIDs
| DoDisableCaching.

(** One call: whether it returned a nil error, and the state it leaves. *)
Definition exec (c : Call) (s : state) : bool * state :=
  match c with
  | DoPutJob job => let (err, s) := PutJob job s in (isNil err, s)
  | DoHasJob id => let (r, s) := HasJob id s in (isOK r, s)
  | DoGetJob id => let (r, s) := GetJob id s in (isOK r, s)
  | DoAddRunnableJob jobID => let (err, s) := AddRunnableJob jobID s in (isNil err, s)
  | DoHasRunnableJob => let (r, s) := HasRunnableJob s in (isOK r, s)
  | DoRemoveRunnableJob => let (r, s) := RemoveRunnableJob s in (isNil r.2, s)
  | DoAddDependency dependency dependent =>
      let (err, s) := AddDependency dependency dependent s in (isNil err, s)
  | DoRemoveDependencies dependency =>
      let (r, s) := RemoveDependencies dependency s in (isNil r.2, s)
  | DoAddMissingJobIDs missingIDs =>
      let (err, s) := AddMissingJobIDs missingIDs s in (isNil err, s)
  | DoRemoveMissingJobIDs missingIDs =>
      let (err, s) := RemoveMissingJobIDs missingIDs s in (isNil err, s)
  | DoMissingJobIDs => let (r, s) := MissingJobIDs s in (isNil r.2, s)
  | DoDisableCaching => (true, DisableCaching s)
  end.

Fixpoint run (cs : list Call) (s : state) : state :=
  match cs with
  | [] => s
  | c :: cs' => run cs' (exec c s).2
  end.

(** The calls of a run, each with whether it succeeded. *)
Fixpoint trace (cs : list Call) (s : state) : list (Call * bool) :=
  match cs with
  | [] => []
  | c :: cs' => (c, (exec c s).1) :: trace cs' (exec c s).2
  end.

Definition isPut (e : Call * bool) : bool :=
  match e with (DoPutJob _, true) => true | _ => false end.

Definition isDequeue (e : Call * bool) : bool :=
  match e with (DoRemoveRunnableJob, true) => true | _ => false end.

(** N: the successful [PutJob] calls; M: the successful dequeues. *)
Definition puts (tr : list (Call * bool)) : Z :=
  Z.of_nat (length (List.filter isPut tr)).
Definition dequeues (tr : list (Call * bool)) : Z :=
  Z.of_nat (length (List.filter isDequeue tr)).

(** At no point of the run have the dequeues so far exceeded the puts so
    far, starting from a balance of [n]. *)
Fixpoint covered (n : Z) (tr : list (Call * bool)) : bool :=
  match tr with
  | [] => true
  | e :: tr' =>
      if isPut e then covered (n + 1) tr'
      else if isDequeue e then (0 <? n) && covered (n - 1) tr'
      else covered n tr'
  end.

(** The jobs a run puts. *)
Fixpoint putJobs (cs : list Call) : list Job :=
  match cs with
  | [] => []
  | DoPutJob job :: cs' => job :: putJobs cs'
  | _ :: cs' => putJobs cs'
  end.

(** No [PutJob] of the run failed. *)
Definition putsSucceeded (tr : list (Call * bool)) : bool :=
  forallb (λ e, match e with (DoPutJob _, false) => false | _ => true end) tr.

(** Every call of the run succeeded. *)
Definition succeeded (tr : list (Call * bool)) : bool := forallb snd tr.

(** ** Invariants *)

(** Every linked list holds each of its keys once. *)
Definition listsOK (d : Store) : Prop := ∀ v, NoDup (keys (linkedAt v d)).

(** The pending counter is a uint64. *)
Definition inRange (s : state) : Prop := 0 ≤ numPendingJobs s < 2 ^ 64.

(** As long as caching is enabled the jobs cache agrees with the store. *)
Definition cacheTrusted (s : state) : Prop := cachingEnabled s = true → coherent s.

(** [s'] differs from [s] at most in the linked lists, the handle cache
    and the storage failures still to come. *)
Definition sameJobs (s s' : state) : Prop :=
  parser s' = parser s ∧
  cachingEnabled s' = cachingEnabled s ∧
  jobsCache s' = jobsCache s ∧
  numPendingJobs s' = numPendingJobs s ∧
  plain (db s') = plain (db s) ∧
  faults (db s') `suffix_of` faults (db s) ∧
  (handlesOK s → handlesOK s') ∧
  (listsOK (db s) → listsOK (db s')).

(** ** Jobs and states to run the code on *)

Definition job1 : Job := mkJob (ids.lit "job1") "bytes of job1".
Definition job2 : Job := mkJob (ids.lit "job2") "bytes of job2".

(** A job that claims the id of [job1] with bytes of its own. *)
Definition job1Other : Job := mkJob (ids.lit "job1") "other bytes".

(** A parser that knows the given jobs by their bytes. *)
Fixpoint parseKnown (known : list Job) (b : bytes) : Res Job :=
  match known with
  | [] => Err (ErrParse "unknown job")
  | job :: known' => if decide (Bytes job = b) then OK job else parseKnown known' b
  end.

(** A parser that rejects everything. *)
Definition parseNothing (b : bytes) : Res Job := Err (ErrParse "unknown job").

(** The state [newState] makes of an empty store that does not fail. *)
Definition initial : state :=
  mkState None (emptyStore []) true
    (cache.mkLRU jobsCacheSize []) (cache.mkLRU dependentsCacheSize []) 0.

(** A store left by a release that wrote no checkpoint: one job in the Job
    Store, runnable, and nothing under the pendingJobs prefix. *)
Definition legacyStore : Store :=
  mkStore {[ jobs := {[ ID job1 := Bytes job1 ]} ]}
          {[ runnableJobIDs := [(ID job1, "")] ]}
          [].

(** * Properties *)

(** ** The code on concrete inputs *)

(** The scenario of the spec, run with the caches switched off before the
    job is dequeued: nothing is runnable at first; after [PutJob(job1)] the
    counter is 1 and the job is there but not runnable; [AddRunnableJob]
    makes it runnable; [RemoveRunnableJob] returns [job1], after which the
    job is gone, the counter is 0 and nothing is runnable. *)
Example scenario :
  let s0 := SetParser (parseKnown [job1]) initial in
  let s1 := (PutJob job1 s0).2 in
  let s2 := (AddRunnableJob (ID job1) s1).2 in
  let s3 := (RemoveRunnableJob (DisableCaching s2)).2 in
  (HasRunnableJob s0).1 = OK false ∧
  (PutJob job1 s0).1 = None ∧ numPendingJobs s1 = 1 ∧
  (HasJob (ID job1) s1).1 = OK true ∧ (HasRunnableJob s1).1 = OK false ∧
  (HasRunnableJob s2).1 = OK true ∧
  (RemoveRunnableJob (DisableCaching s2)).1 = (Some job1, None) ∧
  (HasJob (ID job1) s3).1 = OK false ∧ numPendingJobs s3 = 0 ∧
  (HasRunnableJob s3).1 = OK false.
Proof. vm_compute. repeat split. Qed.

(** A counter is written as eight bytes and read back. *)
Example checkpoint_bytes :
  String.length (PackUInt64 258) = 8%nat ∧
  ParseUInt64 (PackUInt64 258) = OK 258 ∧
  ParseUInt64 "short" = Err (ErrLength 8 5).
Proof. vm_compute. repeat split. Qed.

(** An identifier literal has the fixed width, and only bytes of that
    width convert to an identifier. *)
Example identifiers :
  ids.wf (ids.lit "evm") ∧
  ids.ToID (ids.lit "evm") = OK (ids.lit "evm") ∧
  ids.ToID "evm" = Err (ErrLength 32 3).
Proof. vm_compute. repeat split. Qed.

(** A full cache of two entries gives up the least recently used one. *)
Example cache_evicts :
  let c := cache.Put "c" 3 (cache.Get "a" (cache.Put "b" 2
             (cache.Put "a" 1 (cache.mkLRU 2 [])))).2 in
  cache.find "a" (cache.entries c) = Some 1 ∧
  cache.find "b" (cache.entries c) = None ∧
  cache.find "c" (cache.entries c) = Some 3.
Proof. vm_compute. repeat split. Qed.

(** ** The store *)

Lemma tick_plain d : plain (tick d).2 = plain d.
Proof. unfold tick. destruct (faults d); reflexivity. Qed.

Lemma tick_linked d : linked (tick d).2 = linked d.
Proof. unfold tick. destruct (faults d); reflexivity. Qed.

Lemma tick_faults d : faults (tick d).2 = tail (faults d).
Proof. unfold tick. destruct (faults d) eqn:E; simpl; [by rewrite E | done]. Qed.

Lemma tick_fst d : (tick d).1 = hd false (faults d).
Proof. unfold tick. destruct (faults d); reflexivity. Qed.

Lemma tick_plainAt v d : plainAt v (tick d).2 = plainAt v d.
Proof. unfold plainAt. by rewrite tick_plain. Qed.

Lemma tick_linkedAt v d : linkedAt v (tick d).2 = linkedAt v d.
Proof. unfold linkedAt. by rewrite tick_linked. Qed.


(** What [tick d = (f, d')] says of [d']. *)
Lemma tick_inv d f d' :
  tick d = (f, d') →
  f = hd false (faults d) ∧ plain d' = plain d ∧ linked d' = linked d ∧
  faults d' = tail (faults d).
Proof.
  intros E. pose proof (tick_fst d). pose proof (tick_plain d).
  pose proof (tick_linked d). pose proof (tick_faults d).
  rewrite E in *. simpl in *. by subst.
Qed.

Lemma plainAt_ext v d d' : plain d' = plain d → plainAt v d' = plainAt v d.
Proof. unfold plainAt. by intros ->. Qed.

Lemma linkedAt_ext v d d' : linked d' = linked d → linkedAt v d' = linkedAt v d.
Proof. unfold linkedAt. by intros ->. Qed.

Lemma plainAt_set_plain v m d : plainAt v (set_plain v m d) = m.
Proof. unfold plainAt, set_plain. simpl. by rewrite lookup_insert_eq. Qed.

Lemma plainAt_set_plain_ne v v' m d :
  v ≠ v' → plainAt v' (set_plain v m d) = plainAt v' d.
Proof. intros. unfold plainAt, set_plain. simpl. by rewrite lookup_insert_ne. Qed.

Lemma linkedAt_set_linked v l d : linkedAt v (set_linked v l d) = l.
Proof. unfold linkedAt, set_linked. simpl. by rewrite lookup_insert_eq. Qed.

Lemma linkedAt_set_linked_ne v v' l d :
  v ≠ v' → linkedAt v' (set_linked v l d) = linkedAt v' d.
Proof. intros. unfold linkedAt, set_linked. simpl. by rewrite lookup_insert_ne. Qed.

Lemma jobs_ne_pendingJobs : jobs ≠ pendingJobs.
Proof. discriminate. Qed.

(** ** The caches *)

Section CacheFacts.
Context {V : Type}.
Implicit Types (l : list (ids.ID * V)) (c : cache.LRU V).

Lemma find_app key l1 l2 :
  cache.find key (l1 ++ l2) =
  match cache.find key l1 with Some v => Some v | None => cache.find key l2 end.
Proof.
  induction l1 as [|[k v] l1 IH]; simpl; [done|].
  case_decide; [done | apply IH].
Qed.

Lemma find_without_eq key l : cache.find key (cache.without key l) = None.
Proof.
  induction l as [|[k v] l IH]; simpl; [done|].
  case_decide; [done|]. simpl. case_decide; [done | apply IH].
Qed.

Lemma find_tail_None key l : cache.find key l = None → cache.find key (tail l) = None.
Proof.
  destruct l as [|[k v] l]; simpl; [done|]. case_decide; [done | auto].
Qed.

Lemma find_Some_elem key v l : cache.find key l = Some v → (key, v) ∈ l.
Proof.
  induction l as [|[k w] l IH]; simpl; [done|].
  case_decide; intros; simplify_eq; [left | right; auto].
Qed.

Lemma find_None_key key l : cache.find key l = None → ∀ e, e ∈ l → e.1 ≠ key.
Proof.
  induction l as [|[k w] l IH]; simpl; intros Hf e He; [by apply elem_of_nil in He|].
  case_decide; [done|]. apply elem_of_cons in He as [->|He]; [done | by apply IH].
Qed.

Lemma elem_without key l e : e ∈ cache.without key l → e ∈ l ∧ e.1 ≠ key.
Proof.
  induction l as [|[k w] l IH]; simpl; [by intros ?%elem_of_nil|].
  case_decide.
  - intros [? ?]%IH. split; [by right | done].
  - intros [->|[? ?]%IH]%elem_of_cons; [split; [by left | done] | split; [by right | done]].
Qed.

Lemma elem_tail l e : e ∈ tail l → e ∈ l.
Proof. destruct l; simpl; [done | by right]. Qed.

(** A put makes the key resident, whatever the cache held. *)
Lemma find_Put_eq key v c : cache.find key (cache.entries (cache.Put key v c)) = Some v.
Proof.
  unfold cache.Put.
  destruct (cache.find key (cache.entries c)) eqn:Hf; simpl.
  - rewrite find_app, find_without_eq. simpl. by case_decide.
  - destruct (_ <=? _)%Z; simpl; rewrite find_app.
    + rewrite find_tail_None by done. simpl. by case_decide.
    + rewrite Hf. simpl. by case_decide.
Qed.

(** Every entry after a put is the one put, or an older entry of another key. *)
Lemma elem_Put key v c e :
  e ∈ cache.entries (cache.Put key v c) →
  e = (key, v) ∨ (e ∈ cache.entries c ∧ e.1 ≠ key).
Proof.
  unfold cache.Put.
  destruct (cache.find key (cache.entries c)) eqn:Hf; simpl.
  - intros [[? ?]%elem_without | ->%list_elem_of_singleton]%elem_of_app; auto.
  - pose proof (find_None_key _ _ Hf) as Hk.
    destruct (_ <=? _)%Z; simpl;
      (intros [He | ->%list_elem_of_singleton]%elem_of_app; [|auto]).
    + apply elem_tail in He. auto.
    + auto.
Qed.

(** Every entry after a lookup was there before. *)
Lemma elem_Get key c e :
  e ∈ cache.entries (cache.Get key c).2 → e ∈ cache.entries c.
Proof.
  unfold cache.Get.
  destruct (cache.find key (cache.entries c)) eqn:Hf; simpl; [|done].
  intros [[? ?]%elem_without | ->%list_elem_of_singleton]%elem_of_app; [done|].
  by apply find_Some_elem.
Qed.

Lemma Get_fst key c : (cache.Get key c).1 = cache.find key (cache.entries c).
Proof. unfold cache.Get. by destruct (cache.find key (cache.entries c)). Qed.

End CacheFacts.

(** ** Storage calls, by what they leave behind *)

Lemma Put_inv v k b d e d' :
  database.Put v k b d = (e, d') →
  faults d' = tail (faults d) ∧ linked d' = linked d ∧
  ((e = Some ErrStorage ∧ hd false (faults d) = true ∧ plain d' = plain d) ∨
   (e = None ∧ hd false (faults d) = false ∧
    plainAt v d' = <[k := b]> (plainAt v d) ∧
    ∀ v', v ≠ v' → plainAt v' d' = plainAt v' d)).
Proof.
  unfold database.Put. destruct (tick d) as [f d1] eqn:E.
  apply tick_inv in E as (-> & Hp & Hl & Hf).
  destruct (hd false (faults d)); intros; simplify_eq/=; (split; [done|split; [done|]]).
  - left. done.
  - right. rewrite plainAt_set_plain, (plainAt_ext _ _ _ Hp).
    repeat split; [done..|]. intros v' Hv.
    by rewrite plainAt_set_plain_ne, (plainAt_ext _ _ _ Hp).
Qed.

Lemma PutUInt64_inv v k n d e d' :
  database.PutUInt64 v k n d = (e, d') →
  faults d' = tail (faults d) ∧ linked d' = linked d ∧
  ((e = Some ErrStorage ∧ hd false (faults d) = true ∧ plain d' = plain d) ∨
   (e = None ∧ hd false (faults d) = false ∧
    plainAt v d' = <[k := PackUInt64 n]> (plainAt v d) ∧
    ∀ v', v ≠ v' → plainAt v' d' = plainAt v' d)).
Proof. apply Put_inv. Qed.

Lemma Delete_inv v k d e d' :
  database.Delete v k d = (e, d') →
  faults d' = tail (faults d) ∧ linked d' = linked d ∧
  ((e = Some ErrStorage ∧ hd false (faults d) = true ∧ plain d' = plain d) ∨
   (e = None ∧ hd false (faults d) = false ∧
    plainAt v d' = delete k (plainAt v d) ∧
    ∀ v', v ≠ v' → plainAt v' d' = plainAt v' d)).
Proof.
  unfold database.Delete. destruct (tick d) as [f d1] eqn:E.
  apply tick_inv in E as (-> & Hp & Hl & Hf).
  destruct (hd false (faults d)); intros; simplify_eq/=; (split; [done|split; [done|]]).
  - left. done.
  - right. rewrite plainAt_set_plain, (plainAt_ext _ _ _ Hp).
    repeat split; [done..|]. intros v' Hv.
    by rewrite plainAt_set_plain_ne, (plainAt_ext _ _ _ Hp).
Qed.

Lemma Get_inv v k d r d' :
  database.Get v k d = (r, d') →
  faults d' = tail (faults d) ∧ linked d' = linked d ∧ plain d' = plain d ∧
  ((r = Err ErrStorage ∧ hd false (faults d) = true) ∨
   (hd false (faults d) = false ∧
    r = match plainAt v d !! k with Some b => OK b | None => Err ErrNotFound end)).
Proof.
  unfold database.Get. destruct (tick d) as [f d1] eqn:E.
  apply tick_inv in E as (-> & Hp & Hl & Hf).
  rewrite (plainAt_ext _ _ _ Hp).
  destruct (hd false (faults d)); [|destruct (plainAt v d !! k)];
    intros; simplify_eq/=; repeat split; auto.
Qed.

Lemma Has_inv v k d r d' :
  database.Has v k d = (r, d') →
  faults d' = tail (faults d) ∧ linked d' = linked d ∧ plain d' = plain d ∧
  ((r = Err ErrStorage ∧ hd false (faults d) = true) ∨
   (hd false (faults d) = false ∧ r = OK (bool_decide (is_Some (plainAt v d !! k))))).
Proof.
  unfold database.Has. destruct (tick d) as [f d1] eqn:E.
  apply tick_inv in E as (-> & Hp & Hl & Hf).
  rewrite (plainAt_ext _ _ _ Hp).
  destruct (hd false (faults d)); intros; simplify_eq/=; repeat split; auto.
Qed.

Lemma lPut_inv v k b d e d' :
  linkeddb.Put v k b d = (e, d') →
  faults d' = tail (faults d) ∧ plain d' = plain d ∧
  ((e = Some ErrStorage ∧ hd false (faults d) = true ∧ linked d' = linked d) ∨
   (e = None ∧ hd false (faults d) = false ∧
    linkedAt v d' = linkeddb.insert k b (linkedAt v d) ∧
    ∀ v', v ≠ v' → linkedAt v' d' = linkedAt v' d)).
Proof.
  unfold linkeddb.Put. destruct (tick d) as [f d1] eqn:E.
  apply tick_inv in E as (-> & Hp & Hl & Hf).
  rewrite (linkedAt_ext _ _ _ Hl).
  destruct (hd false (faults d));
    intros; simplify_eq/=; (split; [done|split; [done|]]); [by left|right].
  rewrite linkedAt_set_linked; repeat split; [done..|]; intros v' Hv.
  by rewrite linkedAt_set_linked_ne, (linkedAt_ext _ _ _ Hl).
Qed.

Lemma lDelete_inv v k d e d' :
  linkeddb.Delete v k d = (e, d') →
  faults d' = tail (faults d) ∧ plain d' = plain d ∧
  ((e = Some ErrStorage ∧ hd false (faults d) = true ∧ linked d' = linked d) ∨
   (e = None ∧ hd false (faults d) = false ∧
    linkedAt v d' = linkeddb.remove k (linkedAt v d) ∧
    ∀ v', v ≠ v' → linkedAt v' d' = linkedAt v' d)).
Proof.
  unfold linkeddb.Delete. destruct (tick d) as [f d1] eqn:E.
  apply tick_inv in E as (-> & Hp & Hl & Hf).
  rewrite (linkedAt_ext _ _ _ Hl).
  destruct (hd false (faults d));
    intros; simplify_eq/=; (split; [done|split; [done|]]); [by left|right].
  rewrite linkedAt_set_linked; repeat split; [done..|]; intros v' Hv.
  by rewrite linkedAt_set_linked_ne, (linkedAt_ext _ _ _ Hl).
Qed.

Lemma HeadKey_inv v d r d' :
  linkeddb.HeadKey v d = (r, d') →
  faults d' = tail (faults d) ∧ linked d' = linked d ∧ plain d' = plain d ∧
  ((r = Err ErrStorage ∧ hd false (faults d) = true) ∨
   (hd false (faults d) = false ∧
    r = match linkedAt v d with [] => Err ErrNotFound | e :: _ => OK e.1 end)).
Proof.
  unfold linkeddb.HeadKey. destruct (tick d) as [f d1] eqn:E.
  apply tick_inv in E as (-> & Hp & Hl & Hf).
  rewrite (linkedAt_ext _ _ _ Hl).
  destruct (hd false (faults d)); [|destruct (linkedAt v d) as [|[??]?]];
    intros; simplify_eq/=; repeat split; auto.
Qed.

Lemma IsEmpty_inv v d r d' :
  linkeddb.IsEmpty v d = (r, d') →
  faults d' = tail (faults d) ∧ linked d' = linked d ∧ plain d' = plain d.
Proof.
  unfold linkeddb.IsEmpty. destruct (tick d) as [f d1] eqn:E.
  apply tick_inv in E as (-> & Hp & Hl & Hf).
  destruct (hd false (faults d)); intros; simplify_eq/=; done.
Qed.

(** What a call through the state touches is the store alone. *)
Lemma onStore_inv {A} (call : Store → A * Store) s a s' :
  onStore call s = (a, s') →
  ∃ d', call (db s) = (a, d') ∧ s' = set_db d' s.
Proof.
  unfold onStore. destruct (call (db s)) as [a' d'].
  intros; simplify_eq/=. eauto.
Qed.

(** ** The checkpoint encoding *)

Lemma length_append_string (s1 s2 : string) :
  String.length (s1 +:+ s2) = (String.length s1 + String.length s2)%nat.
Proof. induction s1 as [|c s1 IH]; simpl; [done | by rewrite IH]. Qed.

Lemma length_packBE n v : String.length (packBE n v) = n.
Proof.
  revert v. induction n as [|n IH]; intros v; simpl; [done|].
  rewrite length_append_string, IH. simpl. lia.
Qed.

Lemma unpackBE_app acc (s1 s2 : string) :
  unpackBE acc (s1 +:+ s2) = unpackBE (unpackBE acc s1) s2.
Proof. revert acc. induction s1 as [|c s1 IH]; intros acc; simpl; [done | apply IH]. Qed.

Lemma unpackBE_packBE n acc v :
  0 ≤ v → unpackBE acc (packBE n v) = acc * 256 ^ Z.of_nat n + v mod 256 ^ Z.of_nat n.
Proof.
  revert acc v. induction n as [|n IH]; intros acc v Hv.
  - simpl. rewrite Z.mod_1_r. lia.
  - cbn [packBE]. rewrite unpackBE_app, IH by (apply Z.div_pos; lia).
    cbn [unpackBE]. rewrite N_ascii_embedding.
    2:{ assert (0 ≤ v mod 256 < 256) by (apply Z.mod_pos_bound; lia). lia. }
    rewrite Z2N.id by (apply Z.mod_pos_bound; lia).
    rewrite Nat2Z.inj_succ, Z.pow_succ_r by lia.
    rewrite (Z.rem_mul_r v 256 (256 ^ Z.of_nat n)) by lia. lia.
Qed.

Lemma unpackBE_bounds (b : string) acc :
  0 ≤ acc → 0 ≤ unpackBE acc b < (acc + 1) * 256 ^ Z.of_nat (String.length b).
Proof.
  revert acc. induction b as [|c b IH]; intros acc Hacc.
  - simpl. lia.
  - cbn [unpackBE String.length].
    pose proof (N_ascii_bounded c) as Hc.
    assert (0 ≤ Z.of_N (N_of_ascii c) < 256) as Hc' by lia.
    specialize (IH (acc * 256 + Z.of_N (N_of_ascii c)) ltac:(lia)).
    rewrite Nat2Z.inj_succ, Z.pow_succ_r by lia.
    split; [lia|]. eapply Z.lt_le_trans; [apply IH|].
    assert (0 < 256 ^ Z.of_nat (String.length b)) by (apply Z.pow_pos_nonneg; lia).
    nia.
Qed.

(** A counter in range is read back as it was written. *)
Lemma ParseUInt64_PackUInt64 v :
  0 ≤ v < 2 ^ 64 → ParseUInt64 (PackUInt64 v) = OK v.
Proof.
  intros Hv. unfold ParseUInt64, PackUInt64.
  rewrite length_packBE. simpl Nat.eqb. cbv iota.
  rewrite unpackBE_packBE by lia. f_equal.
  change (256 ^ Z.of_nat 8) with (2 ^ 64). rewrite Z.mod_small; lia.
Qed.

(** Whatever is read as a counter is a 64-bit unsigned number. *)
Lemma ParseUInt64_range b v : ParseUInt64 b = OK v → 0 ≤ v < 2 ^ 64.
Proof.
  unfold ParseUInt64. destruct (Nat.eqb _ _) eqn:E; [|done].
  apply Nat.eqb_eq in E. intros [= <-].
  pose proof (unpackBE_bounds b 0 ltac:(lia)) as Hb. rewrite E in Hb.
  change (256 ^ Z.of_nat 8) with (2 ^ 64) in Hb. lia.
Qed.

Lemma u64_range z : 0 ≤ u64 z < 2 ^ 64.
Proof. unfold u64. apply Z.mod_pos_bound. lia. Qed.

Lemma u64_small z : 0 ≤ z < 2 ^ 64 → u64 z = z.
Proof. unfold u64. apply Z.mod_small. Qed.

(** ** Presence of a job *)

Lemma GetJob_inv id s r s' :
  GetJob id s = (r, s') →
  cachingEnabled s' = cachingEnabled s ∧ numPendingJobs s' = numPendingJobs s ∧
  parser s' = parser s ∧ dependentsCache s' = dependentsCache s ∧
  plain (db s') = plain (db s) ∧ linked (db s') = linked (db s).
Proof.
  unfold GetJob, onStore, cache.Get. intros H.
  destruct (database.Get jobs id (db s)) as [r1 d1] eqn:E.
  apply Get_inv in E as (?&?&?&?).
  repeat case_match; simplify_eq/=; done.
Qed.

(** A successful [PutJob] has written the job's bytes under its id. *)
Lemma PutJob_ok_inv job s s' :
  PutJob job s = (None, s') →
  plainAt jobs (db s') !! ID job = Some (Bytes job) ∧
  cachingEnabled s' = cachingEnabled s ∧
  (cachingEnabled s = true → jobsCache s' = cache.Put (ID job) job (jobsCache s)).
Proof.
  unfold PutJob. intros HP.
  destruct (onStore (database.Put jobs _ _) _) as [e1 s1] eqn:E1.
  apply onStore_inv in E1 as (? & E1 & ->). apply Put_inv in E1 as (?&?&[(->&?&?)|(->&?&Hj&?)]);
    [done|].
  apply onStore_inv in HP as (? & E2 & ->). apply PutUInt64_inv in E2 as (?&?&[(?&?&?)|(_&?&?&Ho)]);
    [done|]. simpl in *.
  rewrite Ho by (symmetry; apply jobs_ne_pendingJobs). rewrite Hj, lookup_insert_eq.
  destruct (cachingEnabled s) eqn:Hc; simpl; rewrite ?Hc; repeat split; done.
Qed.

(** A dequeue that returned a job without an error has deleted the id at
    the head of the runnable list from the Job Store. *)
Lemma RemoveRunnableJob_ok_inv s e rest job s' :
  linkedAt runnableJobIDs (db s) = e :: rest →
  RemoveRunnableJob s = ((Some job, None), s') →
  plainAt jobs (db s') !! e.1 = None ∧ cachingEnabled s' = cachingEnabled s.
Proof.
  unfold RemoveRunnableJob. intros Hl HR.
  destruct (onStore (linkeddb.HeadKey _) _) as [r1 s1] eqn:E1.
  apply onStore_inv in E1 as (? & E1 & ->). apply HeadKey_inv in E1 as (?&?&?&[(->&?)|(?&->)]);
    [done|]. rewrite Hl in HR.
  destruct (onStore (linkeddb.Delete _ _) _) as [r2 s2] eqn:E2.
  apply onStore_inv in E2 as (? & E2 & ->). apply lDelete_inv in E2 as (?&?&_).
  destruct r2; [done|]. destruct (ids.ToID e.1); [|done].
  destruct (GetJob _ _) as [r3 s3] eqn:E3. apply GetJob_inv in E3 as (?&?&?&?&?&?).
  destruct r3; [|done].
  destruct (onStore (database.Delete _ _) _) as [r4 s4] eqn:E4.
  apply onStore_inv in E4 as (? & E4 & ->). apply Delete_inv in E4 as (?&?&[(->&?&?)|(->&?&Hj&?)]);
    [done|]. simpl in *.
  destruct (numPendingJobs s3 =? 0).
  - simplify_eq/=. rewrite Hj, lookup_delete_eq. split; [done | congruence].
  - destruct (onStore (database.PutUInt64 _ _ _) _) as [r5 s5] eqn:E5.
    apply onStore_inv in E5 as (? & E5 & ->). apply PutUInt64_inv in E5 as (?&?&[(?&?&?)|(_&?&?&Ho)]);
      simplify_eq/=.
    rewrite Ho by (symmetry; apply jobs_ne_pendingJobs). rewrite Hj, lookup_delete_eq.
    split; [done | congruence].
Qed.

(** C1, as the code has it.  After a successful [PutJob(J)], [HasJob(J.ID())]
    returns true, with caching enabled and with caching disabled (when the
    answer has to come from the store, provided that read does not fail).
    After a successful [RemoveRunnableJob] has dequeued the id of [J] with
    caching disabled, [HasJob(J.ID())] returns false. *)
Theorem HasJob_after_PutJob_and_dequeue :
  (∀ s job s',
      PutJob job s = (None, s') →
      (cachingEnabled s = false → hd false (faults (db s')) = false) →
      (HasJob (ID job) s').1 = OK true) ∧
  (∀ s job v rest j s',
      cachingEnabled s = false →
      linkedAt runnableJobIDs (db s) = (ID job, v) :: rest →
      RemoveRunnableJob s = ((Some j, None), s') →
      hd false (faults (db s')) = false →
      (HasJob (ID job) s').1 = OK false).
Proof.
  split.
  - intros s job s' HP Hq. apply PutJob_ok_inv in HP as (Hs & Hc & Hj).
    unfold HasJob. rewrite Hc. destruct (cachingEnabled s).
    + rewrite Hj by done. unfold cache.Get. by rewrite find_Put_eq.
    + destruct (onStore _ _) as [r1 s1] eqn:E1.
      apply onStore_inv in E1 as (? & E1 & _). apply Has_inv in E1 as (?&?&?&[(?&?)|(?&->)]).
      * rewrite Hq in * by done. done.
      * rewrite Hs. by rewrite bool_decide_eq_true_2.
  - intros s job v rest j s' Hc Hl HR Hq.
    eapply RemoveRunnableJob_ok_inv in HR as (Hs & Hc'); [|done]. simpl in Hs.
    unfold HasJob. rewrite Hc', Hc.
    destruct (onStore _ _) as [r1 s1] eqn:E1.
    apply onStore_inv in E1 as (? & E1 & _). apply Has_inv in E1 as (?&?&?&[(?&?)|(?&->)]).
    + congruence.
    + rewrite Hs. rewrite bool_decide_eq_false_2; [done|]. by intros [? ?].
Qed.

Lemma newState_emptyStore : newState (emptyStore []) None = OK initial.
Proof. reflexivity. Qed.

Lemma HasJob_after_PutJob_and_dequeue_witness :
  (HasJob (ID job1) (PutJob job1 initial).2).1 = OK true ∧
  (let s := DisableCaching
              (AddRunnableJob (ID job1)
                 (PutJob job1 (SetParser (parseKnown [job1]) initial)).2).2 in
   (HasJob (ID job1) (RemoveRunnableJob s).2).1 = OK false).
Proof.
  destruct HasJob_after_PutJob_and_dequeue as [Hput Hdeq]. split.
  - apply (Hput initial job1); [vm_compute; reflexivity | discriminate].
  - intros s. apply (Hdeq s job1 "" [] job1); vm_compute; reflexivity.
Defined.

(** With caching enabled the dequeued job stays in the jobs cache, and
    [HasJob] answers from the cache: it still returns true although the Job
    Store no longer has the id. *)
Lemma HasJob_true_after_cached_dequeue :
  let s := (AddRunnableJob (ID job1) (PutJob job1 initial).2).2 in
  cachingEnabled s = true ∧
  (PutJob job1 initial).1 = None ∧
  (RemoveRunnableJob s).1 = (Some job1, None) ∧
  plainAt jobs (db (RemoveRunnableJob s).2) !! ID job1 = None ∧
  (HasJob (ID job1) (RemoveRunnableJob s).2).1 = OK true.
Proof. vm_compute. repeat split. Qed.

(** ** Reading a job *)

(** C7.  With caching enabled [GetJob(id)] is cache-first: a hit is
    returned and the store is not touched.  On a miss the bytes are read
    from the Job Store (provided that read does not fail): an id the store
    does not have gives NotFound and the cache is left alone; bytes the
    parser decodes give the job, which is then resident in the cache; bytes
    the parser rejects give the parser's error and the cache is left
    alone. *)
Theorem GetJob_cache_first (s : state) (id : ids.ID) :
  cachingEnabled s = true →
  (∀ job, cache.find id (cache.entries (jobsCache s)) = Some job →
     (GetJob id s).1 = OK job ∧ db (GetJob id s).2 = db s) ∧
  (cache.find id (cache.entries (jobsCache s)) = None →
   hd false (faults (db s)) = false →
     faults (db (GetJob id s).2) = tail (faults (db s)) ∧
     (plainAt jobs (db s) !! id = None →
        (GetJob id s).1 = Err ErrNotFound ∧
        jobsCache (GetJob id s).2 = jobsCache s) ∧
     (∀ jobBytes, plainAt jobs (db s) !! id = Some jobBytes →
        (∀ job, Parse (parser s) jobBytes = OK job →
           (GetJob id s).1 = OK job ∧
           cache.find id (cache.entries (jobsCache (GetJob id s).2)) = Some job) ∧
        (∀ err, Parse (parser s) jobBytes = Err err →
           (GetJob id s).1 = Err err ∧
           jobsCache (GetJob id s).2 = jobsCache s))).
Proof.
  intros Hc. unfold GetJob. rewrite Hc. unfold cache.Get. split.
  - intros job ->. done.
  - intros -> Hq.
    destruct (onStore _ _) as [r1 s1] eqn:E1.
    apply onStore_inv in E1 as (d1 & E1 & ->).
    apply Get_inv in E1 as (Hf & ? & ? & [(?&?)|(_&->)]); [congruence|].
    split; [|split].
    + repeat case_match; simplify_eq/=; done.
    + intros ->. done.
    + intros jobBytes ->. simpl. rewrite Hc. split.
      * intros job ->. split; [done|]. simpl. apply find_Put_eq.
      * intros err ->. done.
Qed.

Lemma GetJob_cache_first_witness :
  (let s := (PutJob job1 (SetParser (parseKnown [job1]) initial)).2 in
   (GetJob (ID job1) s).1 = OK job1 ∧ db (GetJob (ID job1) s).2 = db s) ∧
  (let s := set_jobsCache (cache.Flush (jobsCache initial))
              (PutJob job1 (SetParser (parseKnown [job1]) initial)).2 in
   (GetJob (ID job1) s).1 = OK job1 ∧
   cache.find (ID job1) (cache.entries (jobsCache (GetJob (ID job1) s).2)) = Some job1) ∧
  (let s := set_jobsCache (cache.Flush (jobsCache initial))
              (PutJob job1 (SetParser parseNothing initial)).2 in
   (GetJob (ID job1) s).1 = Err (ErrParse "unknown job") ∧
   jobsCache (GetJob (ID job1) s).2 = jobsCache s) ∧
  (let s := SetParser (parseKnown [job1]) initial in
   (GetJob (ID job1) s).1 = Err ErrNotFound ∧
   jobsCache (GetJob (ID job1) s).2 = jobsCache s).
Proof.
  split_and!; intros s.
  - destruct (GetJob_cache_first s (ID job1) eq_refl) as [Hhit _].
    apply Hhit. reflexivity.
  - destruct (GetJob_cache_first s (ID job1) eq_refl) as [_ Hmiss].
    destruct (Hmiss eq_refl eq_refl) as (_ & _ & Hfound).
    destruct (Hfound (Bytes job1) ltac:(vm_compute; reflexivity)) as [Hdecoded _].
    apply Hdecoded. vm_compute. reflexivity.
  - destruct (GetJob_cache_first s (ID job1) eq_refl) as [_ Hmiss].
    destruct (Hmiss eq_refl eq_refl) as (_ & _ & Hfound).
    destruct (Hfound (Bytes job1) ltac:(vm_compute; reflexivity)) as [_ Hrejected].
    apply Hrejected. reflexivity.
  - destruct (GetJob_cache_first s (ID job1) eq_refl) as [_ Hmiss].
    destruct (Hmiss eq_refl eq_refl) as (_ & Habsent & _).
    apply Habsent. reflexivity.
Defined.

(** ** A failed write of [PutJob] *)

(** C10.  With caching enabled, when the write to the Job Store fails,
    [PutJob] returns that error with the pending counter as it was and
    nothing persisted; the job is nevertheless in the jobs cache, so that
    [HasJob] returns true and [GetJob] returns the job. *)
Theorem PutJob_failed_write_leaves_job_cached (s : state) (job : Job) :
  cachingEnabled s = true →
  hd false (faults (db s)) = true →
  let s' := (PutJob job s).2 in
  (PutJob job s).1 = Some ErrStorage ∧
  numPendingJobs s' = numPendingJobs s ∧
  plain (db s') = plain (db s) ∧
  linked (db s') = linked (db s) ∧
  (HasJob (ID job) s').1 = OK true ∧
  (GetJob (ID job) s').1 = OK job.
Proof.
  intros Hc Hf. unfold PutJob. rewrite Hc.
  destruct (onStore _ _) as [e1 s1] eqn:E1.
  apply onStore_inv in E1 as (d1 & E1 & ->).
  apply Put_inv in E1 as (?&?&[(->&?&?)|(?&?&?)]); [|simpl in *; congruence].
  simpl. repeat split; try done.
  - unfold HasJob. simpl. rewrite Hc. unfold cache.Get. by rewrite find_Put_eq.
  - unfold GetJob. simpl. rewrite Hc. unfold cache.Get. by rewrite find_Put_eq.
Qed.

Lemma PutJob_failed_write_leaves_job_cached_witness :
  let s := set_db (emptyStore [true]) initial in
  let s' := (PutJob job1 s).2 in
  (PutJob job1 s).1 = Some ErrStorage ∧
  numPendingJobs s' = numPendingJobs s ∧
  plain (db s') = plain (db s) ∧
  linked (db s') = linked (db s) ∧
  (HasJob (ID job1) s').1 = OK true ∧
  (GetJob (ID job1) s').1 = OK job1.
Proof.
  intros s. apply (PutJob_failed_write_leaves_job_cached s job1); reflexivity.
Defined.

(** ** The checkpoint of the pending counter *)

Lemma persistedPending_written d n :
  plainAt pendingJobs d !! pendingJobsKey = Some (PackUInt64 (u64 n)) →
  persistedPending d = Some (u64 n).
Proof.
  unfold persistedPending, checkpoint. intros ->.
  by rewrite ParseUInt64_PackUInt64 by apply u64_range.
Qed.

(** C4, as the code has it.  A successful [PutJob], and a successful
    [RemoveRunnableJob] that finds the counter above zero, leave the
    persisted checkpoint equal to the in-memory pending count.  When
    [RemoveRunnableJob] finds the counter at zero it writes no checkpoint:
    what is persisted under the pendingJobs prefix stays as it was, and the
    counter stays at zero. *)
Theorem checkpoint_follows_counter :
  (∀ s job s',
      PutJob job s = (None, s') →
      persistedPending (db s') = Some (numPendingJobs s')) ∧
  (∀ s job s',
      numPendingJobs s ≠ 0 →
      RemoveRunnableJob s = ((Some job, None), s') →
      persistedPending (db s') = Some (numPendingJobs s')) ∧
  (∀ s r s',
      numPendingJobs s = 0 →
      RemoveRunnableJob s = (r, s') →
      plainAt pendingJobs (db s') = plainAt pendingJobs (db s) ∧
      numPendingJobs s' = 0).
Proof.
  split; [|split].
  - intros s job s'. unfold PutJob. intros HP.
    destruct (onStore (database.Put jobs _ _) _) as [e1 s1] eqn:E1.
    apply onStore_inv in E1 as (d1 & E1 & ->).
    apply Put_inv in E1 as (?&?&[(->&?&?)|(->&?&?&?)]); [done|].
    apply onStore_inv in HP as (d2 & E2 & ->).
    apply PutUInt64_inv in E2 as (?&?&[(?&?&?)|(_&?&Hw&?)]); [done|]. simpl in *.
    apply persistedPending_written. rewrite Hw. apply lookup_insert_eq.
  - intros s job s' Hn. unfold RemoveRunnableJob. intros HR.
    destruct (onStore (linkeddb.HeadKey _) _) as [r1 s1] eqn:E1.
    apply onStore_inv in E1 as (d1 & E1 & ->). destruct r1 as [k|]; [|done].
    destruct (onStore (linkeddb.Delete _ _) _) as [r2 s2] eqn:E2.
    apply onStore_inv in E2 as (d2 & E2 & ->).
    destruct r2; [done|]. destruct (ids.ToID k); [|done].
    destruct (GetJob _ _) as [r3 s3] eqn:E3. apply GetJob_inv in E3 as (?&Hn3&?&?&?&?).
    destruct r3; [|done].
    destruct (onStore (database.Delete _ _) _) as [r4 s4] eqn:E4.
    apply onStore_inv in E4 as (d4 & E4 & ->). destruct r4; [done|]. simpl in *.
    rewrite Hn3 in HR. apply Z.eqb_neq in Hn. rewrite Hn in HR.
    destruct (onStore (database.PutUInt64 _ _ _) _) as [r5 s5] eqn:E5.
    apply onStore_inv in E5 as (d5 & E5 & ->).
    apply PutUInt64_inv in E5 as (?&?&[(?&?&?)|(_&?&Hw&?)]); simplify_eq/=.
    apply persistedPending_written. rewrite Hw. apply lookup_insert_eq.
  - intros s r s' Hn. unfold RemoveRunnableJob. intros HR.
    destruct (onStore (linkeddb.HeadKey _) _) as [r1 s1] eqn:E1.
    apply onStore_inv in E1 as (d1 & E1 & ->).
    apply HeadKey_inv in E1 as (?&?&Hp1&_).
    apply (plainAt_ext pendingJobs) in Hp1.
    destruct r1 as [k|]; [|by simplify_eq/=].
    destruct (onStore (linkeddb.Delete _ _) _) as [r2 s2] eqn:E2.
    apply onStore_inv in E2 as (d2 & E2 & ->).
    apply lDelete_inv in E2 as (?&Hp2&_). apply (plainAt_ext pendingJobs) in Hp2.
    simpl in *.
    destruct r2; [simplify_eq/=; split; [congruence|done]|].
    destruct (ids.ToID k); [|simplify_eq/=; split; [congruence|done]].
    destruct (GetJob _ _) as [r3 s3] eqn:E3. apply GetJob_inv in E3 as (?&Hn3&?&?&Hp3&?).
    apply (plainAt_ext pendingJobs) in Hp3. simpl in *.
    destruct r3; [|simplify_eq/=; split; [congruence|congruence]].
    destruct (onStore (database.Delete _ _) _) as [r4 s4] eqn:E4.
    apply onStore_inv in E4 as (d4 & E4 & ->).
    apply Delete_inv in E4 as (?&?&[(->&?&Hp4)|(->&?&?&Hp4)]).
    + apply (plainAt_ext pendingJobs) in Hp4. simplify_eq/=. split; congruence.
    + specialize (Hp4 pendingJobs jobs_ne_pendingJobs). simpl in *.
      rewrite Hn3, Hn in HR. simpl in HR. simplify_eq/=. split; congruence.
Qed.

Lemma checkpoint_follows_counter_witness :
  persistedPending (db (PutJob job1 initial).2) =
    Some (numPendingJobs (PutJob job1 initial).2) ∧
  (let s := (AddRunnableJob (ID job1) (PutJob job1 initial).2).2 in
   persistedPending (db (RemoveRunnableJob s).2) =
     Some (numPendingJobs (RemoveRunnableJob s).2)) ∧
  (let s := (AddRunnableJob (ID job1)
               (PutJob job1 (set_db (emptyStore [true]) initial)).2).2 in
   plainAt pendingJobs (db (RemoveRunnableJob s).2) = plainAt pendingJobs (db s) ∧
   numPendingJobs (RemoveRunnableJob s).2 = 0).
Proof.
  destruct checkpoint_follows_counter as (Hput & Hdec & Hclamp).
  split; [|split].
  - apply (Hput initial job1). vm_compute. reflexivity.
  - intros s. apply (Hdec s job1); vm_compute; [discriminate | reflexivity].
  - intros s. apply (Hclamp s (Some job1, None)); vm_compute; reflexivity.
Defined.

(** A dequeue that finds the counter at zero succeeds without writing the
    checkpoint.  First, the store fails the write of [PutJob], which leaves
    the job in the cache and the counter at zero; the job is then made
    runnable and dequeued: the call succeeds, the in-memory count is zero,
    and no checkpoint has been persisted.  Second, on a store that holds a
    runnable job and no checkpoint, [newState] starts the counter at zero
    and the dequeue of that job persists no checkpoint either. *)
Lemma clamped_dequeue_writes_no_checkpoint :
  (∃ s0, newState (emptyStore [false; false; true]) None = OK s0 ∧
   let s1 := (PutJob job1 s0).2 in
   let s2 := (AddRunnableJob (ID job1) s1).2 in
   let s3 := (RemoveRunnableJob s2).2 in
   (PutJob job1 s0).1 = Some ErrStorage ∧
   (AddRunnableJob (ID job1) s1).1 = None ∧
   (RemoveRunnableJob s2).1 = (Some job1, None) ∧
   numPendingJobs s3 = 0 ∧
   checkpoint (db s3) = None ∧
   persistedPending (db s3) = None) ∧
  (∃ s0, newState legacyStore None = OK s0 ∧
   let s := SetParser (parseKnown [job1]) s0 in
   (RemoveRunnableJob s).1 = (Some job1, None) ∧
   numPendingJobs (RemoveRunnableJob s).2 = 0 ∧
   checkpoint (db (RemoveRunnableJob s).2) = None ∧
   persistedPending (db (RemoveRunnableJob s).2) = None).
Proof.
  split; eexists; (split; [reflexivity|]); vm_compute; repeat split.
Qed.

(** ** Recovering the pending count *)

Lemma countLoop_store iterator n d :
  plain (countLoop iterator n d).2 = plain d ∧
  linked (countLoop iterator n d).2 = linked d.
Proof.
  revert n d. induction iterator as [|e iterator IH]; intros n d; cbn [countLoop];
    destruct (tick d) as [f d1] eqn:E; apply tick_inv in E as (_ & Hp & Hl & _);
    destruct f; simpl; try done.
  destruct (IH (u64 (n + 1)) d1) as [-> ->]. done.
Qed.

(** [newState] only reads. *)
Lemma newState_reads_only st registration s :
  newState st registration = OK s →
  plain (db s) = plain st ∧ linked (db s) = linked st.
Proof.
  unfold newState, getPendingJobs, database.GetUInt64, initializePendingJobs.
  destruct registration; [done|].
  destruct (database.Get _ _ _) as [r1 d1] eqn:E1.
  apply Get_inv in E1 as (_ & Hl & Hp & _).
  repeat case_match; intros; simplify_eq/=;
    try match goal with
        | H : countLoop ?it ?n ?d = _ |- _ =>
            destruct (countLoop_store it n d) as [Hcp Hcl];
            rewrite H in Hcp, Hcl; simpl in Hcp, Hcl
        end;
    split; congruence.
Qed.






(** ** Linked lists *)

Section LinkedFacts.
Implicit Types (l : list (string * string)) (k : string).

Lemma hasKey_true k l : linkeddb.hasKey k l = true ↔ k ∈ keys l.
Proof.
  induction l as [|[k' v] l IH]; simpl.
  - split; [done | by intros ?%elem_of_nil].
  - case_decide; subst.
    + split; [intros; by left | done].
    + rewrite IH. split; [by right|]. by intros [?|?]%elem_of_cons.
Qed.

Lemma hasKey_false k l : linkeddb.hasKey k l = false ↔ k ∉ keys l.
Proof.
  rewrite <-hasKey_true. destruct (linkeddb.hasKey k l); split; congruence || done.
Qed.

Lemma keys_overwrite k b l : keys (linkeddb.overwrite k b l) = keys l.
Proof.
  induction l as [|[k' v] l IH]; simpl; [done|].
  case_decide; simpl; [done | by rewrite IH].
Qed.

Lemma keys_app l1 l2 : keys (l1 ++ l2) = keys l1 ++ keys l2.
Proof. apply map_app. Qed.

Lemma remove_notin k l : k ∉ keys l → linkeddb.remove k l = l.
Proof.
  induction l as [|[k' v] l IH]; simpl; [done|].
  intros Hk. apply not_elem_of_cons in Hk as [? ?].
  case_decide; [congruence|]. by rewrite IH.
Qed.

Lemma elem_remove k l e : e ∈ linkeddb.remove k l → e ∈ l ∧ e.1 ≠ k.
Proof.
  induction l as [|[k' v] l IH]; simpl; [by intros ?%elem_of_nil|].
  case_decide.
  - intros [? ?]%IH. split; [by right | done].
  - intros [->|[? ?]%IH]%elem_of_cons; (split; [by (left || right) | done]).
Qed.

Lemma keys_put_elem k b l : k ∈ keys (linkeddb.insert k b l).
Proof.
  unfold linkeddb.insert. destruct (linkeddb.hasKey k l) eqn:E.
  - rewrite keys_overwrite. by apply hasKey_true.
  - rewrite keys_app. apply elem_of_app. right. by left.
Qed.

Lemma keys_put_present k b l : k ∈ keys l → keys (linkeddb.insert k b l) = keys l.
Proof.
  intros Hk%hasKey_true. unfold linkeddb.insert. rewrite Hk. apply keys_overwrite.
Qed.

Lemma keys_put_absent k b l : k ∉ keys l → keys (linkeddb.insert k b l) = keys l ++ [k].
Proof.
  intros Hk%hasKey_false. unfold linkeddb.insert. rewrite Hk. apply keys_app.
Qed.

Lemma NoDup_keys_put k b l : NoDup (keys l) → NoDup (keys (linkeddb.insert k b l)).
Proof.
  intros Hn. destruct (decide (k ∈ keys l)) as [Hk|Hk].
  - by rewrite keys_put_present.
  - rewrite keys_put_absent by done. apply NoDup_app. split; [done|].
    split; [|apply NoDup_singleton].
    intros x Hx ->%list_elem_of_singleton. done.
Qed.

Lemma NoDup_keys_remove k l : NoDup (keys l) → NoDup (keys (linkeddb.remove k l)).
Proof.
  induction l as [|[k' v] l IH]; simpl; [done|].
  intros [Hk Hn]%NoDup_cons. case_decide; [auto|].
  simpl. apply NoDup_cons. split; [|auto].
  intros [e [He [Hin _]%elem_remove]]%list_elem_of_fmap. apply Hk.
  apply list_elem_of_fmap. eauto.
Qed.

Lemma removeAll_covered ks l : (∀ e, e ∈ l → e.1 ∈ ks) → removeAll ks l = [].
Proof.
  revert l. induction ks as [|k ks IH]; intros l Hl; simpl.
  - destruct l as [|e l]; [done|]. specialize (Hl e ltac:(by left)).
    by apply elem_of_nil in Hl.
  - apply IH. intros e [He Hne]%elem_remove.
    specialize (Hl e He). apply elem_of_cons in Hl as [?|?]; done.
Qed.

Lemma removeAll_keys l : removeAll (keys l) l = [].
Proof.
  apply removeAll_covered. intros e He. unfold keys.
  apply list_elem_of_fmap. eauto.
Qed.

Lemma removeAll_prefix l1 l2 :
  NoDup (keys (l1 ++ l2)) → removeAll (keys l1) (l1 ++ l2) = l2.
Proof.
  induction l1 as [|[k v] l1 IH]; simpl; [done|].
  intros [Hk Hn]%NoDup_cons. case_decide; [|done].
  rewrite remove_notin by done. by apply IH.
Qed.

End LinkedFacts.

Lemma occurrences_NoDup (x : string) (l : list string) :
  NoDup l → x ∈ l → occurrences x l = 1%nat.
Proof.
  unfold occurrences. induction l as [|y l IH]; [by intros _ ?%elem_of_nil|].
  intros [Hy Hn]%NoDup_cons Hx. rewrite filter_cons. case_decide; subst.
  - simpl. f_equal.
    destruct (filter _ l) as [|z f] eqn:E; [done|].
    assert (z ∈ filter (λ z, z = x) l) as Hz by (rewrite E; left).
    apply list_elem_of_filter in Hz as [-> ?]. done.
  - apply elem_of_cons in Hx as [?|Hx]; [congruence|]. by apply IH.
Qed.

Lemma ToID_wf (k : string) : ids.wf k → ids.ToID k = OK k.
Proof. unfold ids.wf, ids.ToID. intros ->. done. Qed.

Lemma ToID_OK (k id : string) : ids.ToID k = OK id → id = k ∧ ids.wf k.
Proof.
  unfold ids.wf, ids.ToID. destruct (Nat.eqb _ _) eqn:E; [|done].
  apply Nat.eqb_eq in E. by intros [= ->].
Qed.

(** ** Dependency buckets *)

Lemma handlesOK_find s dependency h :
  handlesOK s →
  cache.find dependency (cache.entries (dependentsCache s)) = Some h →
  h = bucket dependency.
Proof.
  unfold handlesOK. rewrite Forall_forall. intros Hok Hf.
  apply find_Some_elem in Hf. apply (Hok _ Hf).
Qed.

(** The handle that is returned is the handle of the bucket, and the handle
    cache keeps holding handles of the right buckets. *)
Lemma getDependentsDB_inv dependency s h s' :
  handlesOK s →
  getDependentsDB dependency s = (h, s') →
  h = bucket dependency ∧ handlesOK s' ∧ db s' = db s ∧
  cachingEnabled s' = cachingEnabled s ∧ jobsCache s' = jobsCache s ∧
  numPendingJobs s' = numPendingJobs s ∧ parser s' = parser s.
Proof.
  intros Hok. unfold getDependentsDB.
  destruct (cachingEnabled s) eqn:Hc.
  - destruct (cache.Get dependency (dependentsCache s)) as [[h'|] c] eqn:EG.
    + intros [= <- <-]. pose proof (Get_fst dependency (dependentsCache s)) as Hf.
      rewrite EG in Hf. simpl in Hf. symmetry in Hf.
      split; [by eapply handlesOK_find|]. split; [|done].
      unfold handlesOK in *. rewrite Forall_forall in *. simpl.
      intros e He. apply Hok. apply (elem_Get dependency). by rewrite EG.
    + intros [= <- <-]. split; [done|]. split; [|done].
      unfold handlesOK in *. rewrite Forall_forall in *. simpl.
      intros e [->|[He _]]%elem_Put; [done | by apply Hok].
  - intros [= <- <-]. done.
Qed.

(** ** Draining a bucket *)

(** A successful [AddDependency] has put the dependent into the bucket of
    the dependency. *)
Lemma AddDependency_ok dependency dependent s :
  handlesOK s →
  (AddDependency dependency dependent s).1 = None →
  let s' := (AddDependency dependency dependent s).2 in
  handlesOK s' ∧
  linkedAt (bucket dependency) (db s') =
    linkeddb.insert dependent "" (linkedAt (bucket dependency) (db s)).
Proof.
  intros Hok. unfold AddDependency.
  destruct (getDependentsDB dependency s) as [h s1] eqn:E1.
  apply getDependentsDB_inv in E1 as (-> & Hok1 & Hdb & _); [|done].
  destruct (onStore _ s1) as [e s2] eqn:E2.
  apply onStore_inv in E2 as (d2 & E2 & ->). rewrite Hdb in E2.
  apply lPut_inv in E2 as (_ & _ & [(->&_)|(->&_&Hl&_)]); [done|].
  simpl. done.
Qed.

(** After [AddDependency(D, X)] has succeeded once or more, the bucket
    holds X, holds each key once, and has the keys the first time left. *)
Lemma AddDependency_repeated n dependency dependent s :
  handlesOK s →
  NoDup (keys (linkedAt (bucket dependency) (db s))) →
  let cs := replicate (S n) (DoAddDependency dependency dependent) in
  succeeded (trace cs s) = true →
  handlesOK (run cs s) ∧
  NoDup (keys (linkedAt (bucket dependency) (db (run cs s)))) ∧
  dependent ∈ keys (linkedAt (bucket dependency) (db (run cs s))) ∧
  keys (linkedAt (bucket dependency) (db (run cs s))) =
    keys (linkeddb.insert dependent "" (linkedAt (bucket dependency) (db s))).
Proof.
  revert s. induction n as [|n IH]; intros s Hok Hn cs Hs; subst cs.
  - cbn [replicate trace run succeeded forallb exec] in *.
    pose proof (AddDependency_ok dependency dependent s Hok) as H.
    destruct (AddDependency dependency dependent s) as [[e|] s']; [done|].
    destruct (H eq_refl) as [Hok' Hl]. simpl in *. rewrite Hl.
    split_and!; [done | by apply NoDup_keys_put | apply keys_put_elem | done].
  - change (replicate (S (S n)) (DoAddDependency dependency dependent))
      with (DoAddDependency dependency dependent ::
            replicate (S n) (DoAddDependency dependency dependent)) in *.
    cbn [trace run succeeded forallb] in Hs |- *.
    apply andb_true_iff in Hs as [H1 Hs].
    pose proof (AddDependency_ok dependency dependent s Hok) as H.
    cbn [exec] in *.
    destruct (AddDependency dependency dependent s) as [[e|] s']; [done|].
    destruct (H eq_refl) as [Hok' Hl]. simpl in *.
    destruct (IH s' Hok') as (? & ? & ? & Hk); [|done|].
    { rewrite Hl. by apply NoDup_keys_put. }
    split_and!; [done..|]. rewrite Hk, Hl.
    apply keys_put_present, keys_put_elem.
Qed.

(** The loop, when it ends without an error: every key has been returned,
    in order, and deleted. *)
Lemma removeLoop_ok h iterator acc d dependents d' :
  removeLoop h iterator acc d = ((dependents, None), d') →
  dependents = acc ++ keys iterator ∧
  linkedAt h d' = removeAll (keys iterator) (linkedAt h d).
Proof.
  revert acc d. induction iterator as [|[k v] iterator IH]; intros acc d;
    cbn [removeLoop]; destruct (tick d) as [f d1] eqn:E0;
    apply tick_inv in E0 as (_ & _ & Hl0 & _); destruct f; try done.
  - intros [= <- <-]. rewrite app_nil_r. split; [done|]. by apply linkedAt_ext.
  - destruct (linkeddb.Delete h k d1) as [e d2] eqn:E1.
    apply lDelete_inv in E1 as (_ & _ & [(->&_)|(->&_&Hl&_)]); [done|].
    destruct (ids.ToID k) as [id|] eqn:EI; [|done].
    apply ToID_OK in EI as [-> _].
    intros (-> & Hl')%IH.
    rewrite <-app_assoc. simpl. by rewrite Hl', Hl, (linkedAt_ext h d d1).
Qed.

(** C5.  After [AddDependency(D, X)] has succeeded, once or repeated
    (which leaves the bucket with the keys the first time left it with), a
    successful [RemoveDependencies(D)] returns a collection with X in it
    exactly once, and a second [RemoveDependencies(D)] right after it
    succeeds and returns the empty collection (its one read of the store
    not failing). *)
Theorem dependencies_drained_once (s : state) (D X : ids.ID) (n : nat) :
  handlesOK s →
  NoDup (keys (linkedAt (bucket D) (db s))) →
  succeeded (trace (replicate (S n) (DoAddDependency D X)) s) = true →
  let s1 := run (replicate (S n) (DoAddDependency D X)) s in
  keys (linkedAt (bucket D) (db s1)) =
    keys (linkedAt (bucket D) (db (run [DoAddDependency D X] s))) ∧
  ∀ dependents s2,
    RemoveDependencies D s1 = ((dependents, None), s2) →
    occurrences X dependents = 1%nat ∧
    (hd false (faults (db s2)) = false → (RemoveDependencies D s2).1 = ([], None)).
Proof.
  intros Hok Hn Hs s1.
  destruct (AddDependency_repeated n D X s Hok Hn Hs) as (Hok1 & Hn1 & HX & Hk).
  fold s1 in Hok1, Hn1, HX, Hk. split.
  - rewrite Hk.
    assert (succeeded (trace (replicate 1 (DoAddDependency D X)) s) = true) as Hs0.
    { cbn [replicate trace succeeded forallb] in *.
      apply andb_true_iff in Hs as [-> _]. done. }
    destruct (AddDependency_repeated 0 D X s Hok Hn Hs0) as (_ & _ & _ & Hk0).
    cbn [replicate] in Hk0. by rewrite Hk0.
  - intros dependents s2. unfold RemoveDependencies at 1.
    destruct (getDependentsDB D s1) as [h s1'] eqn:E1.
    apply getDependentsDB_inv in E1 as (-> & Hok1' & Hdb & _); [|done].
    intros HR. apply onStore_inv in HR as (d2 & HR & ->). rewrite Hdb in HR.
    apply removeLoop_ok in HR as (-> & Hl).
    unfold linkeddb.NewIterator in *. rewrite removeAll_keys in Hl.
    split; [by apply occurrences_NoDup|].
    simpl. intros Hq. unfold RemoveDependencies.
    destruct (getDependentsDB D _) as [h s3] eqn:E3.
    apply getDependentsDB_inv in E3 as (-> & _ & Hdb3 & _); [|done].
    unfold linkeddb.NewIterator, onStore. rewrite Hdb3. simpl. rewrite Hl.
    cbn [removeLoop]. destruct (tick d2) as [f d3] eqn:Et.
    apply tick_inv in Et as (-> & _). simpl in Hq. by rewrite Hq.
Qed.

Lemma dependencies_drained_once_witness :
  let D := ids.lit "D" in
  let X := ids.lit "X" in
  let r := RemoveDependencies D (run [DoAddDependency D X; DoAddDependency D X] initial) in
  occurrences X r.1.1 = 1%nat ∧ (RemoveDependencies D r.2).1 = ([], None).
Proof.
  intros D X r.
  destruct (dependencies_drained_once initial D X 1) as [_ Hdrain];
    [constructor | constructor | reflexivity |].
  destruct (Hdrain r.1.1 r.2) as [Honce Hempty]; [vm_compute; reflexivity|].
  split; [exact Honce | apply Hempty; reflexivity].
Defined.

(** The loop as far as the entries [done], when neither the iterator nor
    the deletes fail on them: their keys are returned so far and they are
    gone from the list. *)
Lemma removeLoop_prefix h done rest acc d fs :
  Forall ids.wf (keys done) →
  faults d = replicate (2 * length done) false ++ fs →
  ∃ d', removeLoop h (done ++ rest) acc d = removeLoop h rest (acc ++ keys done) d' ∧
        linkedAt h d' = removeAll (keys done) (linkedAt h d) ∧
        faults d' = fs.
Proof.
  revert acc d. induction done as [|[k v] done IH]; intros acc d Hwf Hf.
  - exists d. simpl in *. by rewrite app_nil_r.
  - apply Forall_cons in Hwf as [Hk Hwf].
    replace (2 * length ((k, v) :: done))%nat with (S (S (2 * length done))) in Hf
      by (simpl; lia).
    cbn [replicate app] in Hf. cbn [app removeLoop].
    destruct (tick d) as [f d1] eqn:E1. apply tick_inv in E1 as (-> & ? & Hl1 & Hf1).
    rewrite Hf in *. simpl in Hf1. cbn [hd].
    destruct (linkeddb.Delete h k d1) as [e d2] eqn:E2.
    apply lDelete_inv in E2 as (Hf2 & ? & [(?&Hh&?)|(->&?&Hl2&?)]).
    { rewrite Hf1 in Hh. done. }
    rewrite Hf1 in Hf2. simpl in Hf2.
    rewrite (ToID_wf k Hk).
    destruct (IH (acc ++ [k]) d2 Hwf Hf2) as (d' & -> & Hl' & Hf').
    exists d'. rewrite <-app_assoc. split; [done|]. split; [|done].
    simpl. rewrite Hl', Hl2. by rewrite (linkedAt_ext h d d1).
Qed.

(** C6.  When the delete of an entry fails in the middle of
    [RemoveDependencies(D)], the call returns the error and no collection;
    the entries it had deleted before are gone from the persisted bucket,
    which starts at the entry whose delete failed, and they are not
    returned. *)
Theorem RemoveDependencies_failed_delete (s : state) (D : ids.ID)
    (done : list (string * string)) (key value : string)
    (rest : list (string * string)) (fs : list bool) :
  handlesOK s →
  linkedAt (bucket D) (db s) = done ++ (key, value) :: rest →
  NoDup (keys (done ++ (key, value) :: rest)) →
  Forall ids.wf (keys done) →
  faults (db s) = replicate (2 * length done) false ++ false :: true :: fs →
  (RemoveDependencies D s).1 = ([], Some ErrStorage) ∧
  linkedAt (bucket D) (db (RemoveDependencies D s).2) = (key, value) :: rest.
Proof.
  intros Hok Hl Hn Hwf Hf. unfold RemoveDependencies.
  destruct (getDependentsDB D s) as [h s1] eqn:E1.
  apply getDependentsDB_inv in E1 as (-> & _ & Hdb & _); [|done].
  unfold linkeddb.NewIterator, onStore. rewrite Hdb, Hl.
  destruct (removeLoop_prefix (bucket D) done ((key, value) :: rest) [] (db s) _ Hwf Hf)
    as (d' & -> & Hl' & Hf').
  cbn [removeLoop]. destruct (tick d') as [f d1] eqn:E2.
  apply tick_inv in E2 as (-> & ? & Hl1 & Hf1). rewrite Hf' in *. cbn [hd].
  destruct (linkeddb.Delete (bucket D) key d1) as [e d2] eqn:E3.
  apply lDelete_inv in E3 as (Hf2 & ? & [(->&Hh&Hl2)|(?&Hh&?)]).
  - simpl. split; [done|].
    rewrite (linkedAt_ext _ d1 d2 Hl2), (linkedAt_ext _ d' d1 Hl1), Hl', Hl.
    by apply removeAll_prefix.
  - rewrite Hf1 in Hh. done.
Qed.

Lemma RemoveDependencies_failed_delete_witness :
  let D := ids.lit "D" in
  let X1 := ids.lit "X1" in
  let X2 := ids.lit "X2" in
  let X3 := ids.lit "X3" in
  let st := mkStore ∅ {[ bucket D := [(X1, ""); (X2, ""); (X3, "")] ]}
                    [false; false; false; true] in
  let s := set_db st initial in
  (RemoveDependencies D s).1 = ([], Some ErrStorage) ∧
  linkedAt (bucket D) (db (RemoveDependencies D s).2) = [(X2, ""); (X3, "")].
Proof.
  intros D X1 X2 X3 st s.
  apply (RemoveDependencies_failed_delete s D [(X1, "")] X2 "" [(X3, "")] []).
  - constructor.
  - vm_compute. reflexivity.
  - compute_done.
  - repeat constructor.
  - reflexivity.
Defined.

(** ** The missing set *)

(** A successful [AddMissingJobIDs] has put the ids, in the order of the
    visit. *)
Lemma AddMissingJobIDs_ok missingIDs s :
  (AddMissingJobIDs missingIDs s).1 = None →
  linkedAt missingJobIDs (db (AddMissingJobIDs missingIDs s).2) =
    foldl (λ l id, linkeddb.insert id "" l) (linkedAt missingJobIDs (db s)) missingIDs.
Proof.
  revert s. induction missingIDs as [|id missingIDs IH]; intros s; [done|].
  cbn [AddMissingJobIDs foldl].
  destruct (onStore _ s) as [e s1] eqn:E1.
  apply onStore_inv in E1 as (d1 & E1 & ->).
  apply lPut_inv in E1 as (_ & _ & [(->&_)|(->&_&Hl&_)]); [done|].
  rewrite <-Hl. apply IH.
Qed.

(** A successful [RemoveMissingJobIDs] has deleted the ids. *)
Lemma RemoveMissingJobIDs_ok missingIDs s :
  (RemoveMissingJobIDs missingIDs s).1 = None →
  linkedAt missingJobIDs (db (RemoveMissingJobIDs missingIDs s).2) =
    removeAll missingIDs (linkedAt missingJobIDs (db s)).
Proof.
  revert s. induction missingIDs as [|id missingIDs IH]; intros s; [done|].
  cbn [RemoveMissingJobIDs removeAll].
  destruct (onStore _ s) as [e s1] eqn:E1.
  apply onStore_inv in E1 as (d1 & E1 & ->).
  apply lDelete_inv in E1 as (_ & _ & [(->&_)|(->&_&Hl&_)]); [done|].
  rewrite <-Hl. apply IH.
Qed.

(** One id, on a store whose next call does not fail: the call succeeds. *)
Lemma AddMissingJobIDs_one id s :
  hd false (faults (db s)) = false → (AddMissingJobIDs [id] s).1 = None.
Proof.
  intros Hq. cbn [AddMissingJobIDs].
  destruct (onStore _ s) as [e s1] eqn:E1.
  apply onStore_inv in E1 as (d1 & E1 & ->).
  apply lPut_inv in E1 as (_ & _ & [(_&Hh&_)|(->&_)]); [congruence | done].
Qed.

Lemma RemoveMissingJobIDs_one id s :
  hd false (faults (db s)) = false → (RemoveMissingJobIDs [id] s).1 = None.
Proof.
  intros Hq. cbn [RemoveMissingJobIDs].
  destruct (onStore _ s) as [e s1] eqn:E1.
  apply onStore_inv in E1 as (d1 & E1 & ->).
  apply lDelete_inv in E1 as (_ & _ & [(_&Hh&_)|(->&_)]); [congruence | done].
Qed.

(** C9.  With nothing missing yet, a successful
    [AddMissingJobIDs({A, B})], in whichever order the set is visited,
    followed by a successful [RemoveMissingJobIDs({A})] leaves
    [MissingJobIDs()] equal to B alone (provided the iterator's read does
    not fail).  On a store whose next call does not fail, adding an id that
    is already missing succeeds and leaves the missing ids as they were,
    and removing an id that is not missing succeeds and changes nothing. *)
Theorem missing_set_algebra :
  (∀ s (A B : ids.ID) order,
      A ≠ B → ids.wf B →
      linkedAt missingJobIDs (db s) = [] →
      order ≡ₚ [A; B] →
      let s1 := (AddMissingJobIDs order s).2 in
      let s2 := (RemoveMissingJobIDs [A] s1).2 in
      (AddMissingJobIDs order s).1 = None →
      (RemoveMissingJobIDs [A] s1).1 = None →
      hd false (faults (db s2)) = false →
      (MissingJobIDs s2).1 = ([B], None)) ∧
  (∀ s (X : ids.ID),
      hd false (faults (db s)) = false →
      X ∈ keys (linkedAt missingJobIDs (db s)) →
      (AddMissingJobIDs [X] s).1 = None ∧
      keys (linkedAt missingJobIDs (db (AddMissingJobIDs [X] s).2)) =
        keys (linkedAt missingJobIDs (db s))) ∧
  (∀ s (X : ids.ID),
      hd false (faults (db s)) = false →
      X ∉ keys (linkedAt missingJobIDs (db s)) →
      (RemoveMissingJobIDs [X] s).1 = None ∧
      linkedAt missingJobIDs (db (RemoveMissingJobIDs [X] s).2) =
        linkedAt missingJobIDs (db s)).
Proof.
  split; [|split].
  - intros s A B order HAB HB He Hp s1 s2 Ha Hr Hq.
    assert (linkedAt missingJobIDs (db s2) = [(B, "")]) as Hl.
    { subst s2. rewrite RemoveMissingJobIDs_ok by done.
      subst s1. rewrite AddMissingJobIDs_ok by done. rewrite He.
      apply Permutation_sym, Permutation_length_2_inv in Hp as [-> | ->];
        cbn [foldl]; unfold linkeddb.insert; simpl;
        repeat (case_decide; simplify_eq/=; try done). }
    unfold MissingJobIDs, onStore, linkeddb.NewIterator. rewrite Hl.
    cbn [missingLoop]. destruct (tick (db s2)) as [f d1] eqn:Et.
    apply tick_inv in Et as (-> & _). rewrite Hq, (ToID_wf B HB).
    by destruct (tick d1) as [[] d2].
  - intros s X Hq HX. split; [by apply AddMissingJobIDs_one|].
    rewrite AddMissingJobIDs_ok by (by apply AddMissingJobIDs_one).
    simpl. by apply keys_put_present.
  - intros s X Hq HX. split; [by apply RemoveMissingJobIDs_one|].
    rewrite RemoveMissingJobIDs_ok by (by apply RemoveMissingJobIDs_one).
    simpl. by apply remove_notin.
Qed.

Lemma missing_set_algebra_witness :
  let A := ids.lit "A" in
  let B := ids.lit "B" in
  (let s1 := (AddMissingJobIDs [B; A] initial).2 in
   let s2 := (RemoveMissingJobIDs [A] s1).2 in
   (MissingJobIDs s2).1 = ([B], None)) ∧
  (let s := (AddMissingJobIDs [A] initial).2 in
   (AddMissingJobIDs [A] s).1 = None ∧
   keys (linkedAt missingJobIDs (db (AddMissingJobIDs [A] s).2)) =
     keys (linkedAt missingJobIDs (db s))) ∧
  ((RemoveMissingJobIDs [A] initial).1 = None ∧
   linkedAt missingJobIDs (db (RemoveMissingJobIDs [A] initial).2) =
     linkedAt missingJobIDs (db initial)).
Proof.
  intros A B. destruct missing_set_algebra as (Halg & Hadd & Hrem).
  split; [|split].
  - apply (Halg initial A B [B; A]);
      [discriminate | reflexivity | reflexivity | apply perm_swap
      | reflexivity | reflexivity | reflexivity].
  - intros s. apply (Hadd s A); [reflexivity | compute_done].
  - apply (Hrem initial A); [reflexivity | compute_done].
Defined.

(** ** Calls that leave the jobs alone *)

Lemma suffix_tail {A} (l : list A) : tail l `suffix_of` l.
Proof. destruct l; [done|]. simpl. by apply suffix_cons_r. Qed.

Lemma listsOK_ext d d' : linked d' = linked d → listsOK d → listsOK d'.
Proof. unfold listsOK, linkedAt. by intros ->. Qed.

Lemma sameJobs_refl s : sameJobs s s.
Proof. unfold sameJobs. split_and!; done. Qed.

Lemma sameJobs_trans s1 s2 s3 : sameJobs s1 s2 → sameJobs s2 s3 → sameJobs s1 s3.
Proof.
  unfold sameJobs. intros (?&?&?&?&?&?&?&?) (?&?&?&?&?&?&?&?).
  split_and!; try congruence; [by etrans | auto | auto].
Qed.

(** A store call that leaves the key-value name spaces alone. *)
Lemma sameJobs_onStore {A} (call : Store → A * Store) s :
  plain (call (db s)).2 = plain (db s) ∧
  faults (call (db s)).2 `suffix_of` faults (db s) ∧
  (listsOK (db s) → listsOK (call (db s)).2) →
  sameJobs s (onStore call s).2.
Proof.
  unfold onStore. destruct (call (db s)) as [a d]. simpl. intros (Hp & Hf & Hl).
  unfold sameJobs. simpl. split_and!; done.
Qed.

Lemma tick_suffix d : faults (tick d).2 `suffix_of` faults d.
Proof. rewrite tick_faults. apply suffix_tail. Qed.

Lemma lPut_frame v k b d :
  plain (linkeddb.Put v k b d).2 = plain d ∧
  faults (linkeddb.Put v k b d).2 `suffix_of` faults d ∧
  (listsOK d → listsOK (linkeddb.Put v k b d).2).
Proof.
  destruct (linkeddb.Put v k b d) as [e d'] eqn:E.
  apply lPut_inv in E as (Hf & Hp & Hl). simpl. rewrite Hf, Hp.
  split_and!; [done | apply suffix_tail |].
  destruct Hl as [(_&_&Hl)|(_&_&Hv&Ho)]; [by apply listsOK_ext|].
  intros Hok v'. destruct (decide (v = v')) as [<-|Hne].
  - rewrite Hv. apply NoDup_keys_put, Hok.
  - rewrite Ho by done. apply Hok.
Qed.

Lemma lDelete_frame v k d :
  plain (linkeddb.Delete v k d).2 = plain d ∧
  faults (linkeddb.Delete v k d).2 `suffix_of` faults d ∧
  (listsOK d → listsOK (linkeddb.Delete v k d).2).
Proof.
  destruct (linkeddb.Delete v k d) as [e d'] eqn:E.
  apply lDelete_inv in E as (Hf & Hp & Hl). simpl. rewrite Hf, Hp.
  split_and!; [done | apply suffix_tail |].
  destruct Hl as [(_&_&Hl)|(_&_&Hv&Ho)]; [by apply listsOK_ext|].
  intros Hok v'. destruct (decide (v = v')) as [<-|Hne].
  - rewrite Hv. apply NoDup_keys_remove, Hok.
  - rewrite Ho by done. apply Hok.
Qed.

Lemma tick_frame d :
  plain (tick d).2 = plain d ∧
  faults (tick d).2 `suffix_of` faults d ∧
  (listsOK d → listsOK (tick d).2).
Proof.
  split_and!; [apply tick_plain | apply tick_suffix |].
  apply listsOK_ext, tick_linked.
Qed.

Lemma removeLoop_frame h iterator acc d :
  plain (removeLoop h iterator acc d).2 = plain d ∧
  faults (removeLoop h iterator acc d).2 `suffix_of` faults d ∧
  (listsOK d → listsOK (removeLoop h iterator acc d).2).
Proof.
  revert acc d. induction iterator as [|[k v] iterator IH]; intros acc d;
    cbn [removeLoop]; destruct (tick_frame d) as (Hp1 & Hs1 & Hl1);
    destruct (tick d) as [f d1]; simpl in *; destruct f; try done.
  destruct (lDelete_frame h k d1) as (Hp2 & Hs2 & Hl2).
  destruct (linkeddb.Delete h k d1) as [e d2]. simpl in *.
  destruct e; simpl; [split_and!; [congruence | by etrans | auto]|].
  destruct (ids.ToID k); simpl; [|split_and!; [congruence | by etrans | auto]].
  destruct (IH (acc ++ [a]) d2) as (-> & Hs3 & Hl3).
  split_and!; [congruence | by do 2 (etrans; [done|]) | auto].
Qed.

Lemma missingLoop_frame iterator acc d :
  plain (missingLoop iterator acc d).2 = plain d ∧
  faults (missingLoop iterator acc d).2 `suffix_of` faults d ∧
  (listsOK d → listsOK (missingLoop iterator acc d).2).
Proof.
  revert acc d. induction iterator as [|[k v] iterator IH]; intros acc d;
    cbn [missingLoop]; destruct (tick_frame d) as (Hp1 & Hs1 & Hl1);
    destruct (tick d) as [f d1]; simpl in *; destruct f; try done.
  destruct (ids.ToID k); [|done].
  destruct (IH (acc ++ [a]) d1) as (-> & Hs3 & Hl3).
  split_and!; [congruence | by etrans | auto].
Qed.

Lemma AddRunnableJob_frame jobID s : sameJobs s (AddRunnableJob jobID s).2.
Proof. apply sameJobs_onStore, lPut_frame. Qed.

Lemma HasRunnableJob_frame s : sameJobs s (HasRunnableJob s).2.
Proof.
  unfold HasRunnableJob.
  assert (sameJobs s (onStore (linkeddb.IsEmpty runnableJobIDs) s).2) as H.
  { apply sameJobs_onStore.
    destruct (linkeddb.IsEmpty _ _) as [r d'] eqn:E.
    apply IsEmpty_inv in E as (Hf & ? & ?). simpl. rewrite Hf.
    split_and!; [done | apply suffix_tail | by apply listsOK_ext]. }
  by destruct (onStore _ s) as [[|] ?].
Qed.

Lemma getDependentsDB_frame dependency s : sameJobs s (getDependentsDB dependency s).2.
Proof.
  destruct (getDependentsDB dependency s) as [h s'] eqn:E.
  unfold sameJobs. simpl. split_and!.
  7:{ intros Hok. by apply getDependentsDB_inv in E as (? & ? & _). }
  all: unfold getDependentsDB, cache.Get in E; repeat case_match; by simplify_eq/=.
Qed.

Lemma AddDependency_frame dependency dependent s :
  sameJobs s (AddDependency dependency dependent s).2.
Proof.
  unfold AddDependency.
  pose proof (getDependentsDB_frame dependency s) as H1.
  destruct (getDependentsDB dependency s) as [h s1]. simpl in H1.
  eapply sameJobs_trans; [done|]. apply sameJobs_onStore, lPut_frame.
Qed.

Lemma RemoveDependencies_frame dependency s :
  sameJobs s (RemoveDependencies dependency s).2.
Proof.
  unfold RemoveDependencies.
  pose proof (getDependentsDB_frame dependency s) as H1.
  destruct (getDependentsDB dependency s) as [h s1]. simpl in H1.
  eapply sameJobs_trans; [done|]. apply sameJobs_onStore, removeLoop_frame.
Qed.

Lemma AddMissingJobIDs_frame missingIDs s : sameJobs s (AddMissingJobIDs missingIDs s).2.
Proof.
  revert s. induction missingIDs as [|id missingIDs IH]; intros s;
    [apply sameJobs_refl|].
  cbn [AddMissingJobIDs].
  assert (sameJobs s (onStore (linkeddb.Put missingJobIDs id "") s).2) as H
    by apply sameJobs_onStore, lPut_frame.
  destruct (onStore _ s) as [[e|] s1]; [done|].
  eapply sameJobs_trans; [done | apply IH].
Qed.

Lemma RemoveMissingJobIDs_frame missingIDs s :
  sameJobs s (RemoveMissingJobIDs missingIDs s).2.
Proof.
  revert s. induction missingIDs as [|id missingIDs IH]; intros s;
    [apply sameJobs_refl|].
  cbn [RemoveMissingJobIDs].
  assert (sameJobs s (onStore (linkeddb.Delete missingJobIDs id) s).2) as H
    by apply sameJobs_onStore, lDelete_frame.
  destruct (onStore _ s) as [[e|] s1]; [done|].
  eapply sameJobs_trans; [done | apply IH].
Qed.

Lemma MissingJobIDs_frame s : sameJobs s (MissingJobIDs s).2.
Proof. apply sameJobs_onStore, missingLoop_frame. Qed.

(** ** Calls that touch the jobs *)

Lemma coherent_alt s :
  coherent s ↔
  ∀ e, e ∈ cache.entries (jobsCache s) →
       ∀ b, plainAt jobs (db s) !! e.1 = Some b → Parse (parser s) b = OK e.2.
Proof. unfold coherent. by rewrite Forall_forall. Qed.

Lemma handlesOK_same s s' :
  dependentsCache s' = dependentsCache s → handlesOK s → handlesOK s'.
Proof. unfold handlesOK. by intros ->. Qed.

Lemma GetJob_frame id s :
  let s' := (GetJob id s).2 in
  parser s' = parser s ∧ cachingEnabled s' = cachingEnabled s ∧
  dependentsCache s' = dependentsCache s ∧ numPendingJobs s' = numPendingJobs s ∧
  plain (db s') = plain (db s) ∧ linked (db s') = linked (db s) ∧
  faults (db s') `suffix_of` faults (db s).
Proof.
  destruct (GetJob id s) as [r s'] eqn:E. simpl.
  pose proof E as (?&?&?&?&?&?)%GetJob_inv. repeat split; try done.
  unfold GetJob, onStore, cache.Get in E.
  destruct (database.Get jobs id (db s)) as [r1 d1] eqn:E1.
  apply Get_inv in E1 as (Hf&_). pose proof (suffix_tail (faults (db s))).
  repeat case_match; simplify_eq/=; try done; by rewrite Hf.
Qed.

Lemma GetJob_cacheTrusted id s : cacheTrusted s → cacheTrusted (GetJob id s).2.
Proof.
  intros Ht. unfold cacheTrusted. rewrite (proj1 (proj2 (GetJob_frame id s))). intros Hc.
  specialize (Ht Hc). rewrite coherent_alt in *.
  unfold GetJob. rewrite Hc.
  destruct (cache.Get id (jobsCache s)) as [[job|] c] eqn:EG.
  - simpl. intros e He. apply Ht. apply (elem_Get id). by rewrite EG.
  - destruct (onStore _ s) as [r1 s1] eqn:E1.
    apply onStore_inv in E1 as (d1 & E1 & ->).
    apply Get_inv in E1 as (_ & _ & Hp & Hr). apply (plainAt_ext jobs) in Hp.
    destruct r1 as [b|]; [|simpl; by rewrite Hp].
    destruct Hr as [(?&?)|(_&Hr)]; [done|]. simpl.
    destruct (Parse (parser s) b) as [job|] eqn:EP; simpl; rewrite ?Hc; simpl;
      rewrite ?Hp; [|done].
    intros e [->|[He ?]]%elem_Put; [|by apply Ht]. simpl.
    intros b' Hb'. rewrite Hb' in Hr. by simplify_eq.
Qed.

Lemma HasJob_frame id s :
  let s' := (HasJob id s).2 in
  parser s' = parser s ∧ cachingEnabled s' = cachingEnabled s ∧
  dependentsCache s' = dependentsCache s ∧ numPendingJobs s' = numPendingJobs s ∧
  plain (db s') = plain (db s) ∧ linked (db s') = linked (db s) ∧
  faults (db s') `suffix_of` faults (db s).
Proof.
  unfold HasJob, onStore, cache.Get.
  destruct (database.Has jobs id (db s)) as [r1 d1] eqn:E1.
  apply Has_inv in E1 as (Hf&?&?&_). pose proof (suffix_tail (faults (db s))).
  repeat case_match; simplify_eq/=; split_and!; try done; by rewrite Hf.
Qed.

Lemma HasJob_cacheTrusted id s : cacheTrusted s → cacheTrusted (HasJob id s).2.
Proof.
  intros Ht. unfold cacheTrusted. rewrite (proj1 (proj2 (HasJob_frame id s))).
  intros Hc. specialize (Ht Hc). rewrite coherent_alt in *.
  unfold HasJob. rewrite Hc.
  destruct (cache.Get id (jobsCache s)) as [[job|] c] eqn:EG.
  - simpl. intros e He. apply Ht. apply (elem_Get id). by rewrite EG.
  - destruct (onStore _ s) as [r1 s1] eqn:E1.
    apply onStore_inv in E1 as (d1 & E1 & ->).
    apply Has_inv in E1 as (_ & _ & Hp & _). apply (plainAt_ext jobs) in Hp.
    simpl. by rewrite Hp.
Qed.

Lemma PutJob_frame job s :
  let s' := (PutJob job s).2 in
  parser s' = parser s ∧ cachingEnabled s' = cachingEnabled s ∧
  dependentsCache s' = dependentsCache s ∧
  (numPendingJobs s' = numPendingJobs s ∨ numPendingJobs s' = u64 (numPendingJobs s + 1)) ∧
  linked (db s') = linked (db s) ∧
  faults (db s') `suffix_of` faults (db s).
Proof.
  unfold PutJob.
  set (s0 := if cachingEnabled s then _ else s).
  assert (parser s0 = parser s ∧ cachingEnabled s0 = cachingEnabled s ∧
          dependentsCache s0 = dependentsCache s ∧ numPendingJobs s0 = numPendingJobs s ∧
          db s0 = db s) as (Hp0 & Hc0 & Hd0 & Hn0 & Hdb0)
    by (subst s0; destruct (cachingEnabled s) eqn:Hc; simpl; rewrite ?Hc; done).
  clearbody s0.
  destruct (onStore (database.Put jobs _ _) s0) as [e1 s1] eqn:E1.
  apply onStore_inv in E1 as (d1 & E1 & ->). apply Put_inv in E1 as (Hf1 & Hl1 & _).
  rewrite Hdb0 in Hf1, Hl1. pose proof (suffix_tail (faults (db s))) as Hs1.
  destruct e1; simpl.
  { split_and!; try congruence. by left. }
  destruct (onStore _ _) as [e2 s2] eqn:E2.
  apply onStore_inv in E2 as (d2 & E2 & ->). apply PutUInt64_inv in E2 as (Hf2 & Hl2 & _).
  simpl in *. split_and!; try congruence; [right; congruence|].
  rewrite Hf2, Hf1. etrans; [apply suffix_tail | done].
Qed.

(** On a store that does not fail [PutJob] succeeds and counts the job. *)
Lemma PutJob_quiet job s :
  faults (db s) = [] →
  (PutJob job s).1 = None ∧ numPendingJobs (PutJob job s).2 = u64 (numPendingJobs s + 1).
Proof.
  intros Hq. unfold PutJob.
  set (s0 := if cachingEnabled s then _ else s).
  assert (numPendingJobs s0 = numPendingJobs s ∧ db s0 = db s) as (Hn0 & Hdb0)
    by (subst s0; destruct (cachingEnabled s) eqn:Hc; simpl; rewrite ?Hc; done).
  clearbody s0.
  destruct (onStore (database.Put jobs _ _) s0) as [e1 s1] eqn:E1.
  apply onStore_inv in E1 as (d1 & E1 & ->).
  apply Put_inv in E1 as (Hf1 & _ & [(_&Hh&_)|(->&_)]); rewrite Hdb0, Hq in *; [done|].
  destruct (onStore _ _) as [e2 s2] eqn:E2.
  apply onStore_inv in E2 as (d2 & E2 & ->).
  apply PutUInt64_inv in E2 as (Hf2 & _ & [(_&Hh&_)|(->&_)]); simpl in *.
  - rewrite Hf1 in Hh. done.
  - by rewrite Hn0.
Qed.

(** A [PutJob] that succeeds with a job the parser reads back keeps the
    cache in agreement with the store. *)
Lemma PutJob_cacheTrusted job s :
  cacheTrusted s →
  (PutJob job s).1 = None →
  Parse (parser s) (Bytes job) = OK job →
  cacheTrusted (PutJob job s).2.
Proof.
  intros Ht Hok Hlaw. unfold cacheTrusted.
  rewrite (proj1 (proj2 (PutJob_frame job s))). intros Hc. specialize (Ht Hc).
  destruct (PutJob job s) as [e s'] eqn:E. simpl in *. subst e.
  rewrite coherent_alt in *.
  unfold PutJob in E. rewrite Hc in E.
  destruct (onStore (database.Put jobs _ _) _) as [e1 s1] eqn:E1.
  apply onStore_inv in E1 as (d1 & E1 & ->).
  apply Put_inv in E1 as (_ & _ & [(->&_)|(->&_&Hj&_)]); [done|].
  apply onStore_inv in E as (d2 & E2 & ->).
  apply PutUInt64_inv in E2 as (_ & _ & [(?&_)|(_&_&_&Ho)]); [done|]. simpl in *.
  rewrite Ho by (symmetry; apply jobs_ne_pendingJobs). rewrite Hj.
  intros e [->|[He Hne]]%elem_Put; simpl.
  - rewrite lookup_insert_eq. by intros b [= <-].
  - rewrite lookup_insert_ne by done. by apply Ht.
Qed.

Lemma DisableCaching_frame s :
  let s' := DisableCaching s in
  parser s' = parser s ∧ cachingEnabled s' = false ∧ db s' = db s ∧
  numPendingJobs s' = numPendingJobs s ∧
  cache.entries (jobsCache s') = [] ∧ cache.entries (dependentsCache s') = [].
Proof. done. Qed.

(** The stages of [RemoveRunnableJob]: [s1] after the head has been read
    and deleted from the runnable list, [s3] after the job has been
    fetched, [s4] after it has been deleted from the Job Store. *)
Lemma RemoveRunnableJob_stages s r s' :
  RemoveRunnableJob s = (r, s') →
  (isNil r.2 = false ∧ sameJobs s s') ∨
  (∃ s1 id,
      sameJobs s s1 ∧
      ((isNil r.2 = false ∧ s' = (GetJob id s1).2) ∨
       (∃ job k d4 e4,
           (GetJob id s1).1 = OK job ∧
           database.Delete jobs k (db (GetJob id s1).2) = (e4, d4) ∧
           let s4 := set_db d4 (GetJob id s1).2 in
           ((e4 ≠ None ∧ isNil r.2 = false ∧ s' = s4) ∨
            (e4 = None ∧ numPendingJobs s4 = 0 ∧ r = (Some job, None) ∧ s' = s4) ∨
            (e4 = None ∧ numPendingJobs s4 ≠ 0 ∧
             let s5 := set_numPendingJobs (u64 (numPendingJobs s4 - 1)) s4 in
             ∃ e5 d5,
               database.PutUInt64 pendingJobs pendingJobsKey (numPendingJobs s5) d4
                 = (e5, d5) ∧
               r = (Some job, e5) ∧ s' = set_db d5 s5))))).
Proof.
  unfold RemoveRunnableJob. intros HR.
  pose proof (sameJobs_onStore (linkeddb.HeadKey runnableJobIDs) s) as H1.
  destruct (onStore (linkeddb.HeadKey _) s) as [r1 s1] eqn:E1.
  apply onStore_inv in E1 as (d1 & E1 & ->). rewrite E1 in H1. simpl in H1.
  apply HeadKey_inv in E1 as (Hf1 & Hl1 & Hp1 & _).
  specialize (H1 ltac:(split_and!;
    [done | rewrite Hf1; apply suffix_tail | by apply listsOK_ext])).
  destruct r1 as [k|]; [|left; simplify_eq/=; by split].
  pose proof (sameJobs_onStore (linkeddb.Delete runnableJobIDs k) (set_db d1 s)) as H2.
  pose proof (lDelete_frame runnableJobIDs k d1) as Hfr2.
  destruct (onStore (linkeddb.Delete _ _) _) as [r2 s2] eqn:E2.
  apply onStore_inv in E2 as (d2 & E2 & ->). simpl in *. rewrite E2 in *. simpl in *.
  specialize (H2 Hfr2).
  assert (sameJobs s (set_db d2 (set_db d1 s))) as H12 by (by eapply sameJobs_trans).
  destruct r2; [left; simplify_eq/=; by split|].
  destruct (ids.ToID k) as [id|]; [|left; simplify_eq/=; by split].
  right. exists (set_db d2 (set_db d1 s)), id. split; [done|].
  destruct (GetJob id _) as [r3 s3] eqn:E3. simpl.
  destruct r3 as [job|]; [|left; simplify_eq/=; by split].
  right. exists job, k.
  destruct (onStore (database.Delete _ _) s3) as [e4 s4] eqn:E4.
  apply onStore_inv in E4 as (d4 & E4 & ->). exists d4, e4.
  split; [done|]. split; [done|]. simpl.
  destruct e4; [left; simplify_eq/=; by split_and!|]. right. simpl in HR.
  destruct (numPendingJobs s3 =? 0) eqn:En.
  - left. apply Z.eqb_eq in En. simplify_eq/=. by split_and!.
  - right. apply Z.eqb_neq in En. split; [done|]. split; [done|].
    destruct (onStore _ _) as [e5 s5] eqn:E5.
    apply onStore_inv in E5 as (d5 & E5 & ->). simpl in *.
    exists e5, d5. simplify_eq/=. by split_and!.
Qed.

Lemma RemoveRunnableJob_frame s :
  let s' := (RemoveRunnableJob s).2 in
  parser s' = parser s ∧ cachingEnabled s' = cachingEnabled s ∧
  (handlesOK s → handlesOK s') ∧
  (numPendingJobs s' = numPendingJobs s ∨
   ∃ z, numPendingJobs s' = u64 z) ∧
  faults (db s') `suffix_of` faults (db s) ∧
  (listsOK (db s) → listsOK (db s')).
Proof.
  destruct (RemoveRunnableJob s) as [r s'] eqn:E. simpl.
  apply RemoveRunnableJob_stages in E
    as [(_ & Hs)|(s1 & id & Hs & Hrest)].
  { destruct Hs as (?&?&?&?&?&?&?&?). split_and!; auto. }
  destruct Hs as (Hp1&Hc1&_&Hn1&_&Hf1&Hh1&Hl1).
  destruct (GetJob_frame id s1) as (Hp3&Hc3&Hd3&Hn3&_&Hl3&Hf3).
  assert (listsOK (db s) → listsOK (db (GetJob id s1).2)) as Hl3'
    by (intros ?; eapply listsOK_ext; [done|auto]).
  destruct Hrest as [(_ & ->)|(job & k & d4 & e4 & _ & E4 & Hrest)].
  { split_and!; try congruence; [|left; congruence|by etrans|done].
    intros ?. eapply handlesOK_same; [done|auto]. }
  apply Delete_inv in E4 as (Hf4 & Hl4 & _). simpl in Hrest.
  assert (faults d4 `suffix_of` faults (db s)) as Hs4.
  { rewrite Hf4. etrans; [apply suffix_tail|]. by etrans. }
  assert (handlesOK s → handlesOK (GetJob id s1).2) as Hh3
    by (intros ?; eapply handlesOK_same; [done|auto]).
  assert (listsOK (db s) → listsOK d4) as Hl4'
    by (intros ?; eapply listsOK_ext; [done|auto]).
  destruct Hrest as [(_&_&->)|[(_&_&_&->)|(_&_&e5&d5&E5&_&->)]]; simpl.
  - split_and!; try congruence; [done|left; congruence|done].
  - split_and!; try congruence; [done|left; congruence|done].
  - apply PutUInt64_inv in E5 as (Hf5 & Hl5 & _).
    split_and!; try congruence; [done|right; eauto| |].
    + rewrite Hf5. etrans; [apply suffix_tail | done].
    + intros ?. eapply listsOK_ext; [done|auto].
Qed.

Lemma RemoveRunnableJob_cacheTrusted s :
  cacheTrusted s → cacheTrusted (RemoveRunnableJob s).2.
Proof.
  intros Ht.
  assert (∀ s1, sameJobs s s1 → cacheTrusted s1) as Hsame.
  { intros s1 (Hp&Hc&Hj&_&Hpl&_). unfold cacheTrusted, coherent in *.
    rewrite Hp, Hc, Hj, (plainAt_ext jobs _ _ Hpl). done. }
  destruct (RemoveRunnableJob s) as [r s'] eqn:E. simpl.
  apply RemoveRunnableJob_stages in E
    as [(_ & Hs)|(s1 & id & Hs & Hrest)]; [auto|].
  apply Hsame in Hs. apply (GetJob_cacheTrusted id) in Hs.
  destruct Hrest as [(_ & ->)|(job & k & d4 & e4 & _ & E4 & Hrest)]; [done|].
  set (s3 := (GetJob id s1).2) in *.
  assert (cacheTrusted (set_db d4 s3)) as H4.
  { unfold cacheTrusted in *. simpl. intros Hc. specialize (Hs Hc).
    rewrite coherent_alt in *. simpl.
    apply Delete_inv in E4 as (_ & _ & [(_&_&Hpl)|(_&_&Hj&_)]).
    - by rewrite (plainAt_ext jobs _ _ Hpl).
    - rewrite Hj. intros e He b [_ Hb]%lookup_delete_Some. by apply Hs. }
  simpl in Hrest.
  destruct Hrest as [(_&_&->)|[(_&_&_&->)|(_&_&e5&d5&E5&_&->)]]; [done..|].
  unfold cacheTrusted in *. simpl in *. intros Hc. specialize (H4 Hc).
  rewrite coherent_alt in *. simpl in *.
  apply PutUInt64_inv in E5 as (_ & _ & [(_&_&Hpl)|(_&_&_&Ho)]).
  - by rewrite (plainAt_ext jobs _ _ Hpl).
  - by rewrite Ho by (symmetry; apply jobs_ne_pendingJobs).
Qed.

(** On a store that does not fail, a dequeue that succeeds takes one off
    the counter unless the counter is zero, and one that fails leaves the
    counter alone. *)
Lemma RemoveRunnableJob_quiet s :
  faults (db s) = [] →
  numPendingJobs (RemoveRunnableJob s).2 =
    if isNil (RemoveRunnableJob s).1.2
    then (if numPendingJobs s =? 0 then 0 else u64 (numPendingJobs s - 1))
    else numPendingJobs s.
Proof.
  intros Hq.
  destruct (RemoveRunnableJob s) as [r s'] eqn:E. simpl.
  apply RemoveRunnableJob_stages in E
    as [(-> & Hs)|(s1 & id & Hs & Hrest)].
  { by destruct Hs as (?&?&?&?&?&?&?&?). }
  destruct Hs as (_&_&_&Hn1&_&Hf1&_).
  rewrite Hq in Hf1. apply suffix_nil_inv in Hf1.
  destruct (GetJob_frame id s1) as (_&_&_&Hn3&_&_&Hf3).
  rewrite Hf1 in Hf3. apply suffix_nil_inv in Hf3.
  destruct Hrest as [(-> & ->)|(job & k & d4 & e4 & _ & E4 & Hrest)];
    [congruence|].
  apply Delete_inv in E4 as (Hf4 & _ & [(_&Hh&_)|(->&_)]).
  { rewrite Hf3 in Hh. done. }
  rewrite Hf3 in Hf4. simpl in *.
  destruct Hrest as [(?&_)|[(_&Hz&->&->)|(_&Hnz&e5&d5&E5&->&->)]]; [done|..]; simpl.
  - rewrite Hn3, Hn1 in *. by rewrite Hz.
  - apply PutUInt64_inv in E5 as (_ & _ & [(_&Hh&_)|(->&_)]).
    { rewrite Hf4 in Hh. done. }
    simpl. rewrite Hn3, Hn1 in *. apply Z.eqb_neq in Hnz. by rewrite Hnz.
Qed.

(** ** Runs *)

Lemma inRange_step s s' :
  (numPendingJobs s' = numPendingJobs s ∨ ∃ z, numPendingJobs s' = u64 z) →
  inRange s → inRange s'.
Proof.
  unfold inRange. intros [->|[z ->]] ?; [done | apply u64_range].
Qed.

(** What every call leaves as it was: the parser, caching once it is off,
    the handles of the right buckets, lists with each key once, a counter
    in range; and it only uses up storage failures. *)
Lemma exec_frame c s :
  let s' := (exec c s).2 in
  parser s' = parser s ∧
  (cachingEnabled s = false → cachingEnabled s' = false) ∧
  faults (db s') `suffix_of` faults (db s) ∧
  (handlesOK s → handlesOK s') ∧
  (inRange s → inRange s') ∧
  (listsOK (db s) → listsOK (db s')).
Proof.
  assert (∀ s', sameJobs s s' →
            parser s' = parser s ∧
            (cachingEnabled s = false → cachingEnabled s' = false) ∧
            faults (db s') `suffix_of` faults (db s) ∧
            (handlesOK s → handlesOK s') ∧
            (inRange s → inRange s') ∧
            (listsOK (db s) → listsOK (db s'))) as Hsame.
  { intros s' (?&?&?&Hn&?&?&?&?). unfold inRange. rewrite Hn.
    split_and!; auto; congruence. }
  destruct c; simpl.
  - pose proof (PutJob_frame job s) as (?&?&?&Hn&?&?).
    destruct (PutJob job s) as [e s']. simpl in *.
    split_and!; auto; [congruence | by apply handlesOK_same | | by apply listsOK_ext].
    apply inRange_step. destruct Hn; eauto.
  - pose proof (HasJob_frame id s) as (?&?&?&Hn&?&?&?).
    destruct (HasJob id s) as [r s']. simpl in *.
    split_and!; auto; [congruence | by apply handlesOK_same | | by apply listsOK_ext].
    apply inRange_step. eauto.
  - pose proof (GetJob_frame id s) as (?&?&?&Hn&?&?&?).
    destruct (GetJob id s) as [r s']. simpl in *.
    split_and!; auto; [congruence | by apply handlesOK_same | | by apply listsOK_ext].
    apply inRange_step. eauto.
  - pose proof (AddRunnableJob_frame jobID s).
    destruct (AddRunnableJob jobID s). auto.
  - pose proof (HasRunnableJob_frame s). destruct (HasRunnableJob s). auto.
  - pose proof (RemoveRunnableJob_frame s) as (?&?&?&Hn&?&?).
    destruct (RemoveRunnableJob s) as [r s']. simpl in *.
    split_and!; auto; [congruence|]. by apply inRange_step.
  - pose proof (AddDependency_frame dependency dependent s).
    destruct (AddDependency dependency dependent s). auto.
  - pose proof (RemoveDependencies_frame dependency s).
    destruct (RemoveDependencies dependency s). auto.
  - pose proof (AddMissingJobIDs_frame missingIDs s).
    destruct (AddMissingJobIDs missingIDs s). auto.
  - pose proof (RemoveMissingJobIDs_frame missingIDs s).
    destruct (RemoveMissingJobIDs missingIDs s). auto.
  - pose proof (MissingJobIDs_frame s). destruct (MissingJobIDs s). auto.
  - split_and!; try done. intros _. constructor.
Qed.

Lemma run_frame cs s :
  parser (run cs s) = parser s ∧
  (cachingEnabled s = false → cachingEnabled (run cs s) = false) ∧
  faults (db (run cs s)) `suffix_of` faults (db s) ∧
  (handlesOK s → handlesOK (run cs s)) ∧
  (inRange s → inRange (run cs s)) ∧
  (listsOK (db s) → listsOK (db (run cs s))).
Proof.
  revert s. induction cs as [|c cs IH]; intros s; simpl; [done|].
  destruct (exec_frame c s) as (Hp&Hc&Hf&Hh&Hr&Hl).
  destruct (IH (exec c s).2) as (Hp'&Hc'&Hf'&Hh'&Hr'&Hl').
  split_and!; auto; [congruence | by etrans].
Qed.

(** The counter after one call on a store that does not fail. *)
Lemma exec_counter_quiet c s :
  faults (db s) = [] →
  faults (db (exec c s).2) = [] ∧
  numPendingJobs (exec c s).2 =
    if isPut (c, (exec c s).1) then u64 (numPendingJobs s + 1)
    else if isDequeue (c, (exec c s).1)
         then (if numPendingJobs s =? 0 then 0 else u64 (numPendingJobs s - 1))
         else numPendingJobs s.
Proof.
  intros Hq. split.
  { destruct (exec_frame c s) as (_&_&Hf&_). rewrite Hq in Hf.
    by apply suffix_nil_inv in Hf. }
  assert (∀ s', sameJobs s s' → numPendingJobs s' = numPendingJobs s) as Hsame
    by (by intros s' (?&?&?&?&?)).
  destruct c; simpl.
  - destruct (PutJob_quiet job s Hq) as [He Hn].
    destruct (PutJob job s) as [e s']. simpl in *. by subst e.
  - pose proof (HasJob_frame id s) as (?&?&?&Hn&?).
    by destruct (HasJob id s) as [r s'].
  - pose proof (GetJob_frame id s) as (?&?&?&Hn&?&?&?).
    by destruct (GetJob id s) as [r s'].
  - pose proof (AddRunnableJob_frame jobID s).
    destruct (AddRunnableJob jobID s). auto.
  - pose proof (HasRunnableJob_frame s). destruct (HasRunnableJob s). auto.
  - pose proof (RemoveRunnableJob_quiet s Hq) as Hn.
    destruct (RemoveRunnableJob s) as [r s']. simpl in *.
    by destruct (isNil r.2).
  - pose proof (AddDependency_frame dependency dependent s).
    destruct (AddDependency dependency dependent s). auto.
  - pose proof (RemoveDependencies_frame dependency s).
    destruct (RemoveDependencies dependency s). auto.
  - pose proof (AddMissingJobIDs_frame missingIDs s).
    destruct (AddMissingJobIDs missingIDs s). auto.
  - pose proof (RemoveMissingJobIDs_frame missingIDs s).
    destruct (RemoveMissingJobIDs missingIDs s). auto.
  - pose proof (MissingJobIDs_frame s). destruct (MissingJobIDs s). auto.
  - done.
Qed.

Lemma puts_cons e tr : puts (e :: tr) = (if isPut e then 1 else 0) + puts tr.
Proof. unfold puts. simpl. destruct (isPut e); simpl; lia. Qed.

Lemma dequeues_cons e tr :
  dequeues (e :: tr) = (if isDequeue e then 1 else 0) + dequeues tr.
Proof. unfold dequeues. simpl. destruct (isDequeue e); simpl; lia. Qed.

Lemma puts_nonneg tr : 0 ≤ puts tr.
Proof. unfold puts. lia. Qed.

Lemma isPut_isDequeue e : isPut e = true → isDequeue e = false.
Proof. by destruct e as [[] []]. Qed.

(** [covered] says what its name says: in every prefix of the run the
    dequeues are covered by the balance and the puts. *)
Lemma covered_prefixes n tr :
  0 ≤ n →
  covered n tr = true ↔ ∀ k, dequeues (take k tr) ≤ n + puts (take k tr).
Proof.
  revert n. induction tr as [|e tr IH]; intros n Hn.
  - simpl. split; [|done]. intros _ k. rewrite take_nil. unfold dequeues, puts. simpl. lia.
  - cbn [covered]. destruct (isPut e) eqn:EP; [|destruct (isDequeue e) eqn:ED].
    + pose proof (isPut_isDequeue e EP) as ED. rewrite IH by lia. split.
      * intros H [|k]; [unfold dequeues, puts; simpl; lia|].
        cbn [take]. rewrite puts_cons, dequeues_cons, EP, ED.
        specialize (H k). lia.
      * intros H k. specialize (H (S k)). cbn [take] in H.
        rewrite puts_cons, dequeues_cons, EP, ED in H. lia.
    + rewrite andb_true_iff, Z.ltb_lt. split.
      * intros [Hpos H] [|k]; [unfold dequeues, puts; simpl; lia|].
        pose proof (proj1 (IH (n - 1) ltac:(lia)) H k) as Hk.
        cbn [take]. rewrite puts_cons, dequeues_cons, EP, ED. lia.
      * intros H. assert (0 < n) as Hpos.
        { specialize (H 1%nat). cbn [take] in H. rewrite take_0 in H.
          rewrite puts_cons, dequeues_cons, EP, ED in H.
          unfold dequeues, puts in H. simpl in H. lia. }
        split; [done|]. apply IH; [lia|]. intros k. specialize (H (S k)).
        cbn [take] in H. rewrite puts_cons, dequeues_cons, EP, ED in H. lia.
    + rewrite IH by lia. split.
      * intros H [|k]; [unfold dequeues, puts; simpl; lia|].
        cbn [take]. rewrite puts_cons, dequeues_cons, EP, ED.
        specialize (H k). lia.
      * intros H k. specialize (H (S k)). cbn [take] in H.
        rewrite puts_cons, dequeues_cons, EP, ED in H. lia.
Qed.

(** The counter law from any state on a store that does not fail. *)
Lemma counter_law_from cs s :
  faults (db s) = [] → inRange s →
  covered (numPendingJobs s) (trace cs s) = true →
  numPendingJobs s + puts (trace cs s) < 2 ^ 64 →
  numPendingJobs (run cs s) =
    numPendingJobs s + puts (trace cs s) - dequeues (trace cs s).
Proof.
  revert s. induction cs as [|c cs IH]; intros s Hq Hr Hcov Hb.
  - simpl. unfold puts, dequeues. simpl. lia.
  - cbn [trace run] in *. rewrite puts_cons, dequeues_cons in *.
    destruct (exec_counter_quiet c s Hq) as [Hq1 Hn1].
    destruct (exec_frame c s) as (_&_&_&_&Hr1&_). specialize (Hr1 Hr).
    pose proof (puts_nonneg (trace cs (exec c s).2)).
    unfold inRange in Hr. cbn [covered] in Hcov.
    destruct (isPut (c, (exec c s).1)) eqn:EP.
    + rewrite (isPut_isDequeue _ EP).
      rewrite u64_small in Hn1 by lia.
      rewrite IH; rewrite ?Hn1; [lia|done..|lia].
    + destruct (isDequeue (c, (exec c s).1)) eqn:ED.
      * apply andb_true_iff in Hcov as [Hpos Hcov]. apply Z.ltb_lt in Hpos.
        assert ((numPendingJobs s =? 0) = false) as Hz by (apply Z.eqb_neq; lia).
        rewrite Hz, u64_small in Hn1 by lia.
        rewrite IH; rewrite ?Hn1; [lia|done..|lia].
      * rewrite IH; rewrite ?Hn1; [lia|done..|lia].
Qed.

Lemma newState_inRange st registration s :
  newState st registration = OK s → inRange s.
Proof.
  unfold newState, getPendingJobs, database.GetUInt64, initializePendingJobs.
  destruct registration; [done|].
  destruct (database.Get _ _ _) as [[b|e] d1].
  - destruct (ParseUInt64 b) as [v|e] eqn:EP.
    + intros [= <-]. by apply ParseUInt64_range in EP.
    + unfold ParseUInt64 in EP. destruct (Nat.eqb _ _); simplify_eq/=. done.
  - assert (∀ it n d, 0 ≤ n < 2 ^ 64 → 0 ≤ (countLoop it n d).1.1 < 2 ^ 64) as Hcount.
    { induction it as [|x it IH]; intros n d Hn; cbn [countLoop];
        destruct (tick d) as [[] d']; simpl; try done. apply IH, u64_range. }
    specialize (Hcount (database.NewIterator pendingJobs d1) 0 d1 ltac:(lia)).
    destruct (countLoop _ 0 d1) as [[n e'] d2]. simpl in *.
    destruct e; try done; destruct e'; intros; by simplify_eq/=.
Qed.

(** The states the calls reach from [newState], on a store whose lists
    hold each key once, have handles of the right buckets, lists that hold
    each key once and a counter in range. *)
Lemma reached_wellformed st registration s0 cs :
  newState st registration = OK s0 →
  listsOK st →
  handlesOK (run cs s0) ∧ listsOK (db (run cs s0)) ∧ inRange (run cs s0).
Proof.
  intros HN Hl. destruct (run_frame cs s0) as (_&_&_&Hh&Hr&Hl').
  split_and!.
  - apply Hh. unfold newState in HN. repeat case_match; simplify_eq/=. constructor.
  - apply Hl'. eapply listsOK_ext; [|done].
    by destruct (newState_reads_only st registration s0 HN) as [_ ?].
  - apply Hr. by eapply newState_inRange.
Qed.

(** C3, as the code has it.  Starting from an empty state, with whatever
    parser (or none), on a store that does not fail: after any sequence of
    calls with N successful [PutJob] and M successful [RemoveRunnableJob]
    in which the dequeues so far never exceed the puts so far (and N fits
    a uint64), the pending counter equals N - M.  In every state the calls
    reach from a state [newState] makes, whatever the parser and whatever
    the store does, the counter is not negative.  A dequeue that finds the
    counter at zero leaves it at zero and returns the job without an
    error. *)
Theorem pending_counter_law :
  (∀ s0 (p : Parser) cs,
      newState (emptyStore []) None = OK s0 →
      let s := set_parser p s0 in
      covered 0 (trace cs s) = true →
      puts (trace cs s) < 2 ^ 64 →
      numPendingJobs (run cs s) = puts (trace cs s) - dequeues (trace cs s)) ∧
  (∀ st registration s0 (p : Parser) cs,
      newState st registration = OK s0 →
      0 ≤ numPendingJobs (run cs (set_parser p s0))) ∧
  (∀ s job err s',
      numPendingJobs s = 0 →
      faults (db s) = [] →
      RemoveRunnableJob s = ((Some job, err), s') →
      err = None ∧ numPendingJobs s' = 0).
Proof.
  split; [|split].
  - intros s0 p cs HN s Hcov Hb. rewrite newState_emptyStore in HN. injection HN as <-.
    pose proof (counter_law_from cs s eq_refl) as H.
    change (numPendingJobs s) with 0 in H. rewrite Z.add_0_l in H.
    apply H; [unfold inRange; simpl; lia | done | done].
  - intros st registration s0 p cs HN%newState_inRange.
    destruct (run_frame cs (set_parser p s0)) as (_&_&_&_&Hr&_). specialize (Hr HN).
    unfold inRange in Hr. lia.
  - intros s job err s' Hz Hq. unfold RemoveRunnableJob.
    destruct (onStore (linkeddb.HeadKey _) s) as [r1 s1] eqn:E1.
    apply onStore_inv in E1 as (d1 & E1 & ->).
    apply HeadKey_inv in E1 as (Hf1 & _). rewrite Hq in Hf1.
    destruct r1 as [k|]; [|done].
    destruct (onStore (linkeddb.Delete _ _) _) as [r2 s2] eqn:E2.
    apply onStore_inv in E2 as (d2 & E2 & ->).
    apply lDelete_inv in E2 as (Hf2 & _). simpl in *. rewrite Hf1 in Hf2.
    destruct r2; [done|]. destruct (ids.ToID k) as [id|]; [|done].
    pose proof (GetJob_frame id (set_db d2 (set_db d1 s))) as (_&_&_&Hn3&_&_&Hf3).
    destruct (GetJob id _) as [[job'|] s3]; [|done]. simpl in *.
    rewrite Hf2 in Hf3. apply suffix_nil_inv in Hf3.
    destruct (onStore (database.Delete _ _) s3) as [e4 s4] eqn:E4.
    apply onStore_inv in E4 as (d4 & E4 & ->).
    apply Delete_inv in E4 as (_ & _ & [(_&Hh&_)|(->&_)]).
    { rewrite Hf3 in Hh. done. }
    simpl. rewrite Hn3, Hz. simpl. intros [= <- <- <-]. simpl. by rewrite Hn3.
Qed.

Lemma pending_counter_law_witness :
  (let cs := [DoPutJob job1; DoPutJob job2; DoAddRunnableJob (ID job1);
              DoDisableCaching; DoRemoveRunnableJob;
              DoAddRunnableJob (ID job2); DoRemoveRunnableJob] in
   let s := set_parser (Some (parseKnown [job1; job2])) initial in
   trace cs s = map (λ c, (c, true)) cs ∧
   numPendingJobs (run cs s) = puts (trace cs s) - dequeues (trace cs s)) ∧
  (let cs := [DoPutJob job1; DoPutJob job2; DoAddRunnableJob (ID job1);
              DoRemoveRunnableJob; DoRemoveRunnableJob] in
   numPendingJobs (run cs (set_parser None initial)) =
     puts (trace cs (set_parser None initial))
     - dequeues (trace cs (set_parser None initial))) ∧
  (let cs := [DoPutJob job1; DoAddRunnableJob (ID job1); DoDisableCaching;
              DoRemoveRunnableJob; DoAddRunnableJob (ID job1); DoRemoveRunnableJob] in
   let s0 := mkState None legacyStore true (cache.mkLRU jobsCacheSize [])
               (cache.mkLRU dependentsCacheSize []) 0 in
   0 ≤ numPendingJobs (run cs (set_parser (Some (parseKnown [job1])) s0))) ∧
  (let s := set_jobsCache (cache.Put (ID job1) job1 (jobsCache initial))
              (AddRunnableJob (ID job1) initial).2 in
   (RemoveRunnableJob s).1.2 = None ∧ numPendingJobs (RemoveRunnableJob s).2 = 0).
Proof.
  destruct pending_counter_law as (Hlaw & Hpos & Hclamp).
  split; [|split; [|split]].
  - intros cs s. split; [vm_compute; reflexivity|].
    apply (Hlaw initial (Some (parseKnown [job1; job2])) cs); vm_compute; reflexivity.
  - intros cs. apply (Hlaw initial None cs); vm_compute; reflexivity.
  - intros cs s0. apply (Hpos legacyStore None s0 (Some (parseKnown [job1])) cs).
    reflexivity.
  - intros s. apply (Hclamp s job1 _ _); [reflexivity | reflexivity |].
    vm_compute. reflexivity.
Defined.

(** Two runs from the empty state in which the counter is not N - M.  In
    the first the store does not fail and caching is enabled: the job is
    dequeued, made runnable again and dequeued a second time out of the
    cache, which finds the counter at zero; after one more put there are
    two puts and two dequeues, and the counter is one.  In the second the
    checkpoint write of the only [PutJob] fails: no call has succeeded, and
    the counter is one. *)
Lemma counter_is_not_puts_minus_dequeues :
  (let cs := [DoPutJob job1; DoAddRunnableJob (ID job1); DoRemoveRunnableJob;
              DoAddRunnableJob (ID job1); DoRemoveRunnableJob; DoPutJob job1] in
   trace cs initial = map (λ c, (c, true)) cs ∧
   puts (trace cs initial) = 2 ∧
   dequeues (trace cs initial) = 2 ∧
   numPendingJobs (run cs initial) = 1) ∧
  (∃ s0, newState (emptyStore [false; false; false; true]) None = OK s0 ∧
   trace [DoPutJob job1] s0 = [(DoPutJob job1, false)] ∧
   puts (trace [DoPutJob job1] s0) = 0 ∧
   dequeues (trace [DoPutJob job1] s0) = 0 ∧
   numPendingJobs (run [DoPutJob job1] s0) = 1).
Proof.
  split; [vm_compute; repeat split|].
  eexists. split; [reflexivity|]. vm_compute. repeat split.
Qed.

(** ** Disabling the caches *)

Lemma sameJobs_cacheTrusted s s' : sameJobs s s' → cacheTrusted s → cacheTrusted s'.
Proof.
  intros (Hp&Hc&Hj&_&Hpl&_). unfold cacheTrusted, coherent.
  rewrite Hp, Hc, Hj, (plainAt_ext jobs _ _ Hpl). done.
Qed.

Lemma exec_cacheTrusted c s :
  cacheTrusted s →
  (∀ job, c = DoPutJob job →
          (exec c s).1 = true ∧ Parse (parser s) (Bytes job) = OK job) →
  cacheTrusted (exec c s).2.
Proof.
  intros Ht Hput. destruct c; simpl.
  - destruct (Hput job eq_refl) as [Hok Hlaw]. simpl in Hok.
    pose proof (PutJob_cacheTrusted job s Ht) as H.
    destruct (PutJob job s) as [[e|] s']; [done|]. by apply H.
  - pose proof (HasJob_cacheTrusted id s Ht). by destruct (HasJob id s).
  - pose proof (GetJob_cacheTrusted id s Ht). by destruct (GetJob id s).
  - pose proof (AddRunnableJob_frame jobID s) as H.
    destruct (AddRunnableJob jobID s). by eapply sameJobs_cacheTrusted.
  - pose proof (HasRunnableJob_frame s) as H.
    destruct (HasRunnableJob s). by eapply sameJobs_cacheTrusted.
  - pose proof (RemoveRunnableJob_cacheTrusted s Ht).
    by destruct (RemoveRunnableJob s).
  - pose proof (AddDependency_frame dependency dependent s) as H.
    destruct (AddDependency dependency dependent s). by eapply sameJobs_cacheTrusted.
  - pose proof (RemoveDependencies_frame dependency s) as H.
    destruct (RemoveDependencies dependency s). by eapply sameJobs_cacheTrusted.
  - pose proof (AddMissingJobIDs_frame missingIDs s) as H.
    destruct (AddMissingJobIDs missingIDs s). by eapply sameJobs_cacheTrusted.
  - pose proof (RemoveMissingJobIDs_frame missingIDs s) as H.
    destruct (RemoveMissingJobIDs missingIDs s). by eapply sameJobs_cacheTrusted.
  - pose proof (MissingJobIDs_frame s) as H.
    destruct (MissingJobIDs s). by eapply sameJobs_cacheTrusted.
  - done.
Qed.

(** A run in which every [PutJob] succeeds, with jobs the parser reads
    back, keeps the cache in agreement with the store. *)
Lemma run_cacheTrusted cs s :
  cacheTrusted s →
  Forall (λ job, Parse (parser s) (Bytes job) = OK job) (putJobs cs) →
  putsSucceeded (trace cs s) = true →
  cacheTrusted (run cs s).
Proof.
  revert s. induction cs as [|c cs IH]; intros s Ht Hlaw Hok; [done|].
  cbn [run trace putsSucceeded forallb] in *.
  apply andb_true_iff in Hok as [Hc Hok].
  destruct (exec_frame c s) as (Hp&_).
  apply IH; [| |done].
  - apply exec_cacheTrusted; [done|]. intros job ->. simpl in *.
    apply Forall_cons in Hlaw as [? _].
    split; [|done]. by destruct (PutJob job s) as [[e|] s'].
  - rewrite Hp. destruct c; simpl in Hlaw; try done.
    by apply Forall_cons in Hlaw as [_ ?].
Qed.

(** A read that does not find the id in the cache, or finds caching off,
    gives what the store holds. *)
Lemma GetJob_readThrough id s :
  cachingEnabled s = false ∨ cache.find id (cache.entries (jobsCache s)) = None →
  hd false (faults (db s)) = false →
  (GetJob id s).1 = readThrough id s.
Proof.
  intros Hmiss Hq. unfold GetJob, readThrough, cache.Get.
  assert ((let (r, s1) := onStore (database.Get jobs id) s in
           match r with
           | OK jobBytes =>
               match Parse (parser s1) jobBytes with
               | OK job =>
                   if cachingEnabled s1
                   then (OK job, set_jobsCache (cache.Put id job (jobsCache s1)) s1)
                   else (OK job, s1)
               | Err err => (Err err, s1)
               end
           | Err err => (Err err, s1)
           end).1 =
          match plainAt jobs (db s) !! id with
          | Some jobBytes => Parse (parser s) jobBytes
          | None => Err ErrNotFound
          end) as Hread.
  { destruct (onStore _ s) as [r1 s1] eqn:E1.
    apply onStore_inv in E1 as (d1 & E1 & ->).
    apply Get_inv in E1 as (_ & _ & _ & [(_&?)|(_&->)]); [congruence|].
    destruct (plainAt jobs (db s) !! id) as [b|]; [|done]. simpl.
    destruct (Parse (parser s) b); [|done]. by destruct (cachingEnabled s). }
  destruct (cachingEnabled s); [|done].
  destruct Hmiss as [?| ->]; done.
Qed.

(** C8, as the code has it.  [DisableCaching] empties the jobs cache and
    the handle cache and switches caching off; no call switches it on
    again; and with caching off [GetJob] gives what the store holds and
    leaves the cache empty-handed.  In a state reached from [newState] by
    a run in which every [PutJob] succeeded, with jobs that the parser
    decodes from their own bytes, and for an id in the Job Store whose read
    does not fail: [GetJob(id)] returns after [DisableCaching] what it
    returns with caching as it is. *)
Theorem DisableCaching_transparent :
  (∀ s, cachingEnabled (DisableCaching s) = false ∧
        cache.entries (jobsCache (DisableCaching s)) = [] ∧
        cache.entries (dependentsCache (DisableCaching s)) = [] ∧
        db (DisableCaching s) = db s) ∧
  (∀ s cs, cachingEnabled s = false → cachingEnabled (run cs s) = false) ∧
  (∀ s id,
      cachingEnabled s = false →
      hd false (faults (db s)) = false →
      (GetJob id s).1 = readThrough id s ∧
      jobsCache (GetJob id s).2 = jobsCache s) ∧
  (∀ st registration s0 parse cs id,
      newState st registration = OK s0 →
      Forall (λ job, parse (Bytes job) = OK job) (putJobs cs) →
      putsSucceeded (trace cs (SetParser parse s0)) = true →
      let s := run cs (SetParser parse s0) in
      is_Some (plainAt jobs (db s) !! id) →
      hd false (faults (db s)) = false →
      (GetJob id (DisableCaching s)).1 = (GetJob id s).1).
Proof.
  split_and!.
  - done.
  - intros s cs. by destruct (run_frame cs s) as (_&?&_).
  - intros s id Hc Hq. split; [by apply GetJob_readThrough; auto|].
    unfold GetJob, onStore. rewrite Hc. destruct (database.Get _ _ _) as [[b|] d1]; [|done].
    simpl. rewrite Hc. by destruct (Parse _ _).
  - intros st registration s0 parse cs id HN Hlaw Hok s [b Hb] Hq.
    assert (cacheTrusted s) as Ht.
    { apply run_cacheTrusted; [|done..].
      unfold newState in HN. repeat case_match; simplify_eq/=.
      intros _. constructor. }
    rewrite (GetJob_readThrough id (DisableCaching s)) by (by auto).
    change (readThrough id (DisableCaching s)) with (readThrough id s).
    destruct (cachingEnabled s) eqn:Hc.
    + destruct (cache.find id (cache.entries (jobsCache s))) as [job|] eqn:Hf.
      * specialize (Ht Hc). rewrite coherent_alt in Ht.
        specialize (Ht _ (find_Some_elem _ _ _ Hf) b Hb). simpl in Ht.
        unfold readThrough. rewrite Hb, Ht.
        unfold GetJob, cache.Get. by rewrite Hc, Hf.
      * by rewrite GetJob_readThrough by auto.
    + by rewrite GetJob_readThrough by auto.
Qed.

Lemma DisableCaching_transparent_witness :
  (cachingEnabled (run [DoPutJob job1; DoGetJob (ID job1)] (DisableCaching initial))
     = false) ∧
  (let s := DisableCaching (PutJob job1 (SetParser (parseKnown [job1]) initial)).2 in
   (GetJob (ID job1) s).1 = readThrough (ID job1) s ∧
   jobsCache (GetJob (ID job1) s).2 = jobsCache s) ∧
  (let s := run [DoPutJob job1; DoPutJob job2; DoGetJob (ID job2)]
                (SetParser (parseKnown [job1; job2]) initial) in
   (GetJob (ID job1) (DisableCaching s)).1 = (GetJob (ID job1) s).1).
Proof.
  destruct DisableCaching_transparent as (_ & Hstays & Hread & Hsame).
  split_and!.
  - apply Hstays. reflexivity.
  - intros s. apply (Hread s (ID job1)); reflexivity.
  - apply (Hsame (emptyStore []) None initial (parseKnown [job1; job2])
             [DoPutJob job1; DoPutJob job2; DoGetJob (ID job2)] (ID job1)).
    + reflexivity.
    + repeat constructor.
    + vm_compute. reflexivity.
    + vm_compute. eexists. reflexivity.
    + vm_compute. reflexivity.
Defined.

(** Three states in which [GetJob] of an id that is in the Job Store
    returns one thing with caching enabled and another after
    [DisableCaching].  The parser does not decode the bytes of the job that
    was put: the cache has the job, the store gives a decode error.  The
    write of a second job with the same id failed: the cache has the second
    job, the store the first.  The read from the store fails: the cache has
    the job, the store gives the storage error. *)
Lemma GetJob_differs_after_DisableCaching :
  (let s := (PutJob job1 (SetParser parseNothing initial)).2 in
   (PutJob job1 (SetParser parseNothing initial)).1 = None ∧
   plainAt jobs (db s) !! ID job1 = Some (Bytes job1) ∧
   (GetJob (ID job1) s).1 = OK job1 ∧
   (GetJob (ID job1) (DisableCaching s)).1 = Err (ErrParse "unknown job")) ∧
  (let s0 := SetParser (parseKnown [job1; job1Other])
               (set_db (emptyStore [false; false; true]) initial) in
   let s := run [DoPutJob job1; DoPutJob job1Other] s0 in
   trace [DoPutJob job1; DoPutJob job1Other] s0 =
     [(DoPutJob job1, true); (DoPutJob job1Other, false)] ∧
   plainAt jobs (db s) !! ID job1 = Some (Bytes job1) ∧
   (GetJob (ID job1) s).1 = OK job1Other ∧
   (GetJob (ID job1) (DisableCaching s)).1 = OK job1) ∧
  (let s0 := SetParser (parseKnown [job1])
               (set_db (emptyStore [false; false; true]) initial) in
   let s := run [DoPutJob job1] s0 in
   trace [DoPutJob job1] s0 = [(DoPutJob job1, true)] ∧
   plainAt jobs (db s) !! ID job1 = Some (Bytes job1) ∧
   (GetJob (ID job1) s).1 = OK job1 ∧
   (GetJob (ID job1) (DisableCaching s)).1 = Err ErrStorage).
Proof. vm_compute. repeat split. Qed.

(** ** Storage calls that do not fail *)

Lemma calm_step n d d' :
  calm (S n) d = true → faults d' = tail (faults d) →
  hd false (faults d) = false ∧ calm n d' = true.
Proof.
  unfold calm. intros H ->. destruct (faults d) as [|f fs]; simpl in *.
  - split; [done|]. by rewrite take_nil.
  - apply andb_true_iff in H as [Hf H]. by destruct f.
Qed.

Lemma calm_hd n d : calm (S n) d = true → hd false (faults d) = false.
Proof. unfold calm. destruct (faults d) as [|[] fs]; simpl; done. Qed.

Lemma calm_weaken n m d : (m ≤ n)%nat → calm n d = true → calm m d = true.
Proof.
  unfold calm. generalize (faults d). revert m.
  induction n as [|n IH]; intros m fs Hm.
  - by replace m with 0%nat by lia.
  - destruct m as [|m]; [done|]. destruct fs as [|f fs]; [done|]. simpl.
    rewrite !andb_true_iff. intros [? ?]. split; [done|]. apply IH; [lia|done].
Qed.

(** ** The runnable queue *)

(** Where the job of a successful [GetJob] comes from: the cache, which
    leaves the store alone, or the bytes of the Job Store. *)
Lemma GetJob_OK_inv id s job s' :
  GetJob id s = (OK job, s') →
  (cachingEnabled s = true ∧
   cache.find id (cache.entries (jobsCache s)) = Some job ∧ db s' = db s) ∨
  ((cachingEnabled s = false ∨ cache.find id (cache.entries (jobsCache s)) = None) ∧
   hd false (faults (db s)) = false ∧
   readThrough id s = OK job ∧
   faults (db s') = tail (faults (db s))).
Proof.
  unfold GetJob, readThrough, cache.Get. intros H.
  destruct (onStore (database.Get jobs id) s) as [r1 s1] eqn:E1.
  apply onStore_inv in E1 as (d1 & E1 & ->).
  apply Get_inv in E1 as (Hf & _ & _ & Hr).
  destruct (cachingEnabled s) eqn:Hc;
    [destruct (cache.find id (cache.entries (jobsCache s))) as [j|] eqn:Hj|].
  - left. by simplify_eq/=.
  - right. destruct Hr as [(->&_)|(Hq&->)]; [done|].
    destruct (plainAt jobs (db s) !! id) as [b|]; [|done]. simpl in H. rewrite Hc in H.
    destruct (Parse (parser s) b) eqn:EP; simplify_eq/=. split_and!; auto.
  - right. destruct Hr as [(->&_)|(Hq&->)]; [done|].
    destruct (plainAt jobs (db s) !! id) as [b|]; [|done]. simpl in H. rewrite Hc in H.
    destruct (Parse (parser s) b) eqn:EP; simplify_eq/=. split_and!; auto.
Qed.

(** A dequeue that returns a job, with or without an error, has read the
    head of the runnable list, deleted it from the list, fetched its job and
    gone on to delete the job from the Job Store. *)
Lemma RemoveRunnableJob_job_inv s job e s' :
  RemoveRunnableJob s = ((Some job, e), s') →
  ∃ k v rest d2 s3 e4 d4,
    linkedAt runnableJobIDs (db s) = (k, v) :: rest ∧
    plain d2 = plain (db s) ∧
    linkedAt runnableJobIDs d2 = linkeddb.remove k ((k, v) :: rest) ∧
    faults d2 = tail (tail (faults (db s))) ∧
    ids.wf k ∧
    GetJob k (set_db d2 s) = (OK job, s3) ∧
    database.Delete jobs k (db s3) = (e4, d4) ∧
    match e4 with
    | Some err => e = Some err ∧ s' = set_db d4 s3
    | None =>
        if numPendingJobs s3 =? 0 then e = None ∧ s' = set_db d4 s3
        else ∃ d5,
            database.PutUInt64 pendingJobs pendingJobsKey
              (u64 (numPendingJobs s3 - 1)) d4 = (e, d5) ∧
            s' = set_db d5 (set_numPendingJobs (u64 (numPendingJobs s3 - 1)) (set_db d4 s3))
    end.
Proof.
  unfold RemoveRunnableJob. intros HR.
  destruct (onStore (linkeddb.HeadKey _) s) as [r1 s1] eqn:E1.
  apply onStore_inv in E1 as (d1 & E1 & ->).
  apply HeadKey_inv in E1 as (Hf1 & Hl1 & Hp1 & Hr1).
  destruct r1 as [k|]; [|done].
  destruct Hr1 as [(?&_)|(_&Hr1)]; [done|].
  destruct (linkedAt runnableJobIDs (db s)) as [|[k0 v] rest] eqn:Hl; [done|].
  simpl in Hr1. injection Hr1 as <-.
  destruct (onStore (linkeddb.Delete _ _) _) as [r2 s2] eqn:E2.
  apply onStore_inv in E2 as (d2 & E2 & ->). simpl in E2.
  apply lDelete_inv in E2 as (Hf2 & Hp2 & Hr2).
  destruct r2; [done|]. destruct Hr2 as [(?&_)|(_&_&Hl2&_)]; [done|].
  destruct (ids.ToID k) as [id|] eqn:EI; [|done].
  apply ToID_OK in EI as [-> Hwf].
  destruct (GetJob k _) as [r3 s3] eqn:E3. destruct r3 as [job'|]; [|done].
  destruct (onStore (database.Delete _ _) s3) as [e4 s4] eqn:E4.
  apply onStore_inv in E4 as (d4 & E4 & ->).
  assert (job' = job) as ->.
  { destruct e4; simpl in HR; [by simplify_eq/=|].
    destruct (numPendingJobs s3 =? 0); [by simplify_eq/=|].
    destruct (onStore _ _); by simplify_eq/=. }
  exists k, v, rest, d2, s3, e4, d4.
  rewrite (linkedAt_ext _ _ _ Hl1), Hl in Hl2.
  split_and!; try done; try congruence.
  destruct e4; [by simplify_eq/=|]. simpl in HR.
  destruct (numPendingJobs s3 =? 0); [by simplify_eq/=|].
  destruct (onStore _ _) as [e5 s5] eqn:E5.
  apply onStore_inv in E5 as (d5 & E5 & ->). simpl in *.
  simplify_eq/=. eauto.
Qed.

Lemma remove_head k v rest :
  k ∉ keys rest → linkeddb.remove k ((k, v) :: rest) = rest.
Proof. intros H. simpl. rewrite decide_True by done. by apply remove_notin. Qed.

(** X1.  After a successful [AddRunnableJob], [HasRunnableJob] returns true
    (its read of the store not failing). *)
Theorem HasRunnableJob_after_AddRunnableJob (s : state) (jobID : ids.ID) (s' : state) :
  AddRunnableJob jobID s = (None, s') →
  hd false (faults (db s')) = false →
  (HasRunnableJob s').1 = OK true.
Proof.
  unfold AddRunnableJob. intros HA Hq.
  apply onStore_inv in HA as (d1 & E1 & ->).
  apply lPut_inv in E1 as (_ & _ & [(?&_)|(_&_&Hl&_)]); [done|].
  pose proof (keys_put_elem jobID "" (linkedAt runnableJobIDs (db s))) as Hin.
  rewrite <-Hl in Hin.
  unfold HasRunnableJob, onStore, linkeddb.IsEmpty. simpl in *.
  destruct (tick d1) as [f d2] eqn:Et. apply tick_inv in Et as (-> & _ & Hl2 & _).
  rewrite Hq. simpl. rewrite (linkedAt_ext _ _ _ Hl2).
  rewrite bool_decide_eq_false_2; [done|].
  intros Hnil. rewrite Hnil in Hin. by apply elem_of_nil in Hin.
Qed.

Lemma HasRunnableJob_after_AddRunnableJob_witness :
  (HasRunnableJob (AddRunnableJob (ID job1) initial).2).1 = OK true.
Proof.
  apply (HasRunnableJob_after_AddRunnableJob initial (ID job1)); reflexivity.
Defined.

(** X2.  With nothing runnable (and the read of the store not failing),
    [HasRunnableJob] returns false and [RemoveRunnableJob] returns NotFound
    and no job; the dequeue has changed nothing: what is persisted, the
    pending counter and the jobs cache are as they were. *)
Theorem RemoveRunnableJob_empty_queue (s : state) :
  linkedAt runnableJobIDs (db s) = [] →
  hd false (faults (db s)) = false →
  (HasRunnableJob s).1 = OK false ∧
  (RemoveRunnableJob s).1 = (None, Some ErrNotFound) ∧
  let s' := (RemoveRunnableJob s).2 in
  plain (db s') = plain (db s) ∧ linked (db s') = linked (db s) ∧
  numPendingJobs s' = numPendingJobs s ∧ jobsCache s' = jobsCache s.
Proof.
  intros Hl Hq. split.
  - unfold HasRunnableJob, onStore, linkeddb.IsEmpty.
    destruct (tick (db s)) as [f d1] eqn:Et. apply tick_inv in Et as (-> & _ & Hl1 & _).
    rewrite Hq. simpl. by rewrite (linkedAt_ext _ _ _ Hl1), Hl.
  - unfold RemoveRunnableJob.
    destruct (onStore (linkeddb.HeadKey _) s) as [r1 s1] eqn:E1.
    apply onStore_inv in E1 as (d1 & E1 & ->).
    apply HeadKey_inv in E1 as (_ & ? & ? & [(?&?)|(_&->)]); [congruence|].
    rewrite Hl. done.
Qed.

Lemma RemoveRunnableJob_empty_queue_witness :
  (HasRunnableJob initial).1 = OK false ∧
  (RemoveRunnableJob initial).1 = (None, Some ErrNotFound) ∧
  let s' := (RemoveRunnableJob initial).2 in
  plain (db s') = plain (db initial) ∧ linked (db s') = linked (db initial) ∧
  numPendingJobs s' = numPendingJobs initial ∧ jobsCache s' = jobsCache initial.
Proof. apply (RemoveRunnableJob_empty_queue initial); reflexivity. Defined.

(** X3.  When the id at the head of the runnable list has no job, neither in
    the cache nor in the Job Store, [RemoveRunnableJob] returns NotFound and
    no job, but the id has been taken off the runnable list all the same;
    the Job Store and the pending counter are as they were. *)
Theorem RemoveRunnableJob_job_missing (s : state) (k v : string)
    (rest : list (string * string)) :
  linkedAt runnableJobIDs (db s) = (k, v) :: rest →
  k ∉ keys rest →
  ids.wf k →
  cachingEnabled s = false ∨ cache.find k (cache.entries (jobsCache s)) = None →
  plainAt jobs (db s) !! k = None →
  calm 3 (db s) = true →
  (RemoveRunnableJob s).1 = (None, Some ErrNotFound) ∧
  let s' := (RemoveRunnableJob s).2 in
  linkedAt runnableJobIDs (db s') = rest ∧
  plain (db s') = plain (db s) ∧
  numPendingJobs s' = numPendingJobs s.
Proof.
  intros Hl Hk Hwf Hmiss Hj Hq. unfold RemoveRunnableJob.
  destruct (onStore (linkeddb.HeadKey _) s) as [r1 s1] eqn:E1.
  apply onStore_inv in E1 as (d1 & E1 & ->).
  apply HeadKey_inv in E1 as (Hf1 & Hl1 & Hp1 & Hr1).
  destruct (calm_step 2 (db s) d1 Hq Hf1) as [Hq0 Hq1].
  destruct Hr1 as [(?&?)|(_&->)]; [congruence|]. rewrite Hl. simpl.
  destruct (onStore (linkeddb.Delete _ _) _) as [r2 s2] eqn:E2.
  apply onStore_inv in E2 as (d2 & E2 & ->). simpl in E2.
  apply lDelete_inv in E2 as (Hf2 & Hp2 & Hr2).
  destruct (calm_step 1 d1 d2 Hq1 Hf2) as [Hq1' Hq2].
  destruct Hr2 as [(_&?&_)|(->&_&Hl2&_)]; [congruence|].
  rewrite (linkedAt_ext _ _ _ Hl1), Hl, remove_head in Hl2 by done.
  rewrite (ToID_wf k Hwf).
  assert ((GetJob k (set_db d2 (set_db d1 s))).1 = Err ErrNotFound) as HG.
  { rewrite GetJob_readThrough; [|done|by apply (calm_hd 0)].
    unfold readThrough. simpl.
    by rewrite (plainAt_ext jobs _ _ Hp2), (plainAt_ext jobs _ _ Hp1), Hj. }
  destruct (GetJob k _) as [r3 s3] eqn:E3. simpl in HG. subst r3.
  apply GetJob_inv in E3 as (_ & Hn & _ & _ & Hp3 & Hl3). simpl in *.
  split; [done|]. rewrite (linkedAt_ext _ _ _ Hl3).
  split_and!; [done | congruence | done].
Qed.

Lemma RemoveRunnableJob_job_missing_witness :
  let s := (AddRunnableJob (ID job1) initial).2 in
  (RemoveRunnableJob s).1 = (None, Some ErrNotFound) ∧
  let s' := (RemoveRunnableJob s).2 in
  linkedAt runnableJobIDs (db s') = [] ∧
  plain (db s') = plain (db s) ∧
  numPendingJobs s' = numPendingJobs s.
Proof.
  intros s. apply (RemoveRunnableJob_job_missing s (ID job1) "" []);
    [reflexivity | apply not_elem_of_nil | reflexivity | by right
    | reflexivity | reflexivity].
Defined.

(** A dequeue that succeeds has taken the head off the runnable list,
    fetched its job with the list already updated, and deleted the id from
    the Job Store. *)
Lemma RemoveRunnableJob_ok_head s k v rest job s' :
  linkedAt runnableJobIDs (db s) = (k, v) :: rest →
  k ∉ keys rest →
  RemoveRunnableJob s = ((Some job, None), s') →
  linkedAt runnableJobIDs (db s') = rest ∧
  plainAt jobs (db s') = delete k (plainAt jobs (db s)) ∧
  ∃ d2 s3, plain d2 = plain (db s) ∧ GetJob k (set_db d2 s) = (OK job, s3).
Proof.
  intros Hl Hk HR.
  apply RemoveRunnableJob_job_inv in HR
    as (k' & v' & rest' & d2 & s3 & e4 & d4 & Hl' & Hp2 & Hl2 & Hf2 & Hwf & HG & HD & Hend).
  rewrite Hl in Hl'. injection Hl' as <- <- <-. rewrite remove_head in Hl2 by done.
  pose proof HG as (_ & _ & _ & _ & Hp3 & Hl3)%GetJob_inv. simpl in *.
  apply Delete_inv in HD as (_ & Hl4 & [(->&_)|(->&_&Hj4&Ho4)]); [by destruct Hend|].
  rewrite (plainAt_ext jobs _ _ Hp3), (plainAt_ext jobs _ _ Hp2) in Hj4.
  split_and!; [..|by eauto]; destruct (numPendingJobs s3 =? 0).
  - destruct Hend as [_ ->]. simpl.
    by rewrite (linkedAt_ext _ _ _ Hl4), (linkedAt_ext _ _ _ Hl3).
  - destruct Hend as (d5 & E5 & ->). simpl.
    apply PutUInt64_inv in E5 as (_ & Hl5 & _).
    by rewrite (linkedAt_ext _ _ _ Hl5), (linkedAt_ext _ _ _ Hl4), (linkedAt_ext _ _ _ Hl3).
  - by destruct Hend as [_ ->].
  - destruct Hend as (d5 & E5 & ->). simpl.
    apply PutUInt64_inv in E5 as (_ & _ & [(?&_)|(_&_&_&Ho5)]); [done|].
    by rewrite Ho5 by (symmetry; apply jobs_ne_pendingJobs).
Qed.

(** X4.  A dequeue that succeeds has taken exactly the head off the runnable
    list and deleted that id from the Job Store, and the job it returns is
    the job of that id: the one the cache holds for it when caching is
    enabled and the cache has one, otherwise what the parser makes of the
    bytes the Job Store held. *)
Theorem RemoveRunnableJob_takes_head (s : state) (k v : string)
    (rest : list (string * string)) (job : Job) (s' : state) :
  linkedAt runnableJobIDs (db s) = (k, v) :: rest →
  k ∉ keys rest →
  RemoveRunnableJob s = ((Some job, None), s') →
  linkedAt runnableJobIDs (db s') = rest ∧
  plainAt jobs (db s') = delete k (plainAt jobs (db s)) ∧
  match (if cachingEnabled s then cache.find k (cache.entries (jobsCache s)) else None) with
  | Some cached => job = cached
  | None => readThrough k s = OK job
  end.
Proof.
  intros Hl Hk HR.
  destruct (RemoveRunnableJob_ok_head s k v rest job s' Hl Hk HR)
    as (? & ? & d2 & s3 & Hp2 & HG).
  split_and!; [done..|].
  apply GetJob_OK_inv in HG as [(Hc & Hfind & _)|(Hmiss & _ & Hread & _)]; simpl in *.
  - by rewrite Hc, Hfind.
  - assert (readThrough k s = OK job) as Hread'.
    { unfold readThrough in *. simpl in Hread.
      by rewrite (plainAt_ext jobs _ _ Hp2) in Hread. }
    destruct Hmiss as [-> | Hfind]; [done|]. rewrite Hfind. by destruct (cachingEnabled s).
Qed.

Lemma RemoveRunnableJob_takes_head_witness :
  let s := DisableCaching
             (run [DoPutJob job1; DoPutJob job2; DoAddRunnableJob (ID job1)]
                  (SetParser (parseKnown [job1; job2]) initial)) in
  let s' := (RemoveRunnableJob s).2 in
  linkedAt runnableJobIDs (db s') = [] ∧
  plainAt jobs (db s') = delete (ID job1) (plainAt jobs (db s)) ∧
  readThrough (ID job1) s = OK job1.
Proof.
  intros s s'.
  apply (RemoveRunnableJob_takes_head s (ID job1) "" [] job1 s');
    [reflexivity | apply not_elem_of_nil | vm_compute; reflexivity].
Defined.

(** ** What [PutJob] and a dequeue leave behind *)

(** What a successful [PutJob] has done, in full. *)
Lemma PutJob_None_inv job s s' :
  PutJob job s = (None, s') →
  plainAt jobs (db s') = <[ID job := Bytes job]> (plainAt jobs (db s)) ∧
  numPendingJobs s' = u64 (numPendingJobs s + 1) ∧
  checkpoint (db s') = Some (PackUInt64 (numPendingJobs s')) ∧
  linked (db s') = linked (db s) ∧
  faults (db s') = tail (tail (faults (db s))) ∧
  parser s' = parser s ∧ cachingEnabled s' = cachingEnabled s.
Proof.
  unfold PutJob. intros HP.
  set (s0 := if cachingEnabled s then _ else s) in HP.
  assert (parser s0 = parser s ∧ cachingEnabled s0 = cachingEnabled s ∧
          numPendingJobs s0 = numPendingJobs s ∧ db s0 = db s) as (Hp0 & Hc0 & Hn0 & Hdb0)
    by (subst s0; destruct (cachingEnabled s) eqn:Hc; simpl; rewrite ?Hc; done).
  clearbody s0.
  destruct (onStore (database.Put jobs _ _) s0) as [e1 s1] eqn:E1.
  apply onStore_inv in E1 as (d1 & E1 & ->).
  apply Put_inv in E1 as (Hf1 & Hl1 & [(->&_)|(->&_&Hj&_)]); [done|].
  apply onStore_inv in HP as (d2 & E2 & ->).
  apply PutUInt64_inv in E2 as (Hf2 & Hl2 & [(?&_)|(_&_&Hw&Ho)]); [done|]. simpl in *.
  rewrite Hdb0 in *. unfold checkpoint.
  rewrite Ho by (symmetry; apply jobs_ne_pendingJobs). rewrite Hw, lookup_insert_eq, Hn0.
  split_and!; congruence.
Qed.

(** X5.  When the write of the job succeeds and the write of the checkpoint
    fails, [PutJob] returns the error, but the job is in the Job Store and
    the in-memory counter has been incremented; the persisted checkpoint is
    what it was, one behind.  [HasJob] then returns true (its read of the
    store, if it needs one, not failing). *)
Theorem PutJob_failed_checkpoint_write (s : state) (job : Job) (fs : list bool) :
  faults (db s) = false :: true :: fs →
  let s' := (PutJob job s).2 in
  (PutJob job s).1 = Some ErrStorage ∧
  plainAt jobs (db s') = <[ID job := Bytes job]> (plainAt jobs (db s)) ∧
  numPendingJobs s' = u64 (numPendingJobs s + 1) ∧
  checkpoint (db s') = checkpoint (db s) ∧
  (hd false fs = false → (HasJob (ID job) s').1 = OK true).
Proof.
  intros Hf. unfold PutJob.
  set (s0 := if cachingEnabled s then _ else s).
  assert (cachingEnabled s0 = cachingEnabled s ∧
          numPendingJobs s0 = numPendingJobs s ∧ db s0 = db s ∧
          (cachingEnabled s = true →
           cache.find (ID job) (cache.entries (jobsCache s0)) = Some job))
    as (Hc0 & Hn0 & Hdb0 & Hj0).
  { subst s0; destruct (cachingEnabled s) eqn:Hc; simpl; rewrite ?Hc;
      split_and!; try done. intros _. apply find_Put_eq. }
  clearbody s0.
  destruct (onStore (database.Put jobs _ _) s0) as [e1 s1] eqn:E1.
  apply onStore_inv in E1 as (d1 & E1 & ->).
  apply Put_inv in E1 as (Hf1 & Hl1 & [(_&Hh&_)|(->&_&Hj&Ho1)]);
    rewrite Hdb0, Hf in *; [done|]. simpl in Hf1.
  destruct (onStore _ _) as [e2 s2] eqn:E2.
  apply onStore_inv in E2 as (d2 & E2 & ->).
  apply PutUInt64_inv in E2 as (Hf2 & Hl2 & [(->&_&Hp2)|(_&Hh&_)]); simpl in *;
    [|rewrite Hf1 in Hh; done].
  rewrite Hf1 in Hf2. simpl in Hf2. unfold checkpoint.
  rewrite !(plainAt_ext _ _ _ Hp2), Hj, Ho1, Hn0 by apply jobs_ne_pendingJobs.
  split_and!; try done.
  intros Hq. unfold HasJob, cache.Get. simpl. rewrite Hc0.
  destruct (cachingEnabled s) eqn:Hc.
  - by rewrite Hj0.
  - unfold onStore. simpl.
    destruct (database.Has jobs (ID job) d2) as [r3 d3] eqn:E3.
    apply Has_inv in E3 as (_ & _ & _ & [(_&Hh)|(_&->)]).
    + rewrite Hf2 in Hh. congruence.
    + simpl. rewrite (plainAt_ext _ _ _ Hp2), Hj, lookup_insert_eq.
      by rewrite bool_decide_eq_true_2.
Qed.

Lemma PutJob_failed_checkpoint_write_witness :
  let s := set_db (emptyStore [false; true]) initial in
  let s' := (PutJob job1 s).2 in
  (PutJob job1 s).1 = Some ErrStorage ∧
  plainAt jobs (db s') = <[ID job1 := Bytes job1]> (plainAt jobs (db s)) ∧
  numPendingJobs s' = u64 (numPendingJobs s + 1) ∧
  checkpoint (db s') = checkpoint (db s) ∧
  (hd false [] = false → (HasJob (ID job1) s').1 = OK true).
Proof.
  intros s. apply (PutJob_failed_checkpoint_write s job1 []). reflexivity.
Defined.

(** X6.  [PutJob] counts calls, not jobs: putting again a job that is already
    there leaves the Job Store with the entries it had and adds one more to
    the pending counter. *)
Theorem PutJob_counts_every_call (s : state) (job : Job) (s1 s2 : state) :
  inRange s →
  numPendingJobs s + 2 < 2 ^ 64 →
  PutJob job s = (None, s1) →
  PutJob job s1 = (None, s2) →
  plainAt jobs (db s2) = plainAt jobs (db s1) ∧
  numPendingJobs s2 = numPendingJobs s + 2 ∧
  persistedPending (db s2) = Some (numPendingJobs s + 2).
Proof.
  unfold inRange. intros Hr Hb H1 H2.
  apply PutJob_None_inv in H1 as (Hj1 & Hn1 & _).
  apply PutJob_None_inv in H2 as (Hj2 & Hn2 & Hc2 & _).
  rewrite u64_small in Hn1 by lia. rewrite Hn1, u64_small in Hn2 by lia.
  split_and!.
  - rewrite Hj2, Hj1. by rewrite insert_insert_eq.
  - lia.
  - unfold persistedPending. rewrite Hc2, ParseUInt64_PackUInt64 by lia.
    f_equal. lia.
Qed.

Lemma PutJob_counts_every_call_witness :
  let s1 := (PutJob job1 initial).2 in
  let s2 := (PutJob job1 s1).2 in
  plainAt jobs (db s2) = plainAt jobs (db s1) ∧
  numPendingJobs s2 = numPendingJobs initial + 2 ∧
  persistedPending (db s2) = Some (numPendingJobs initial + 2).
Proof.
  intros s1 s2. apply (PutJob_counts_every_call initial job1 s1 s2);
    [unfold inRange; simpl; lia | simpl; lia | reflexivity | reflexivity].
Defined.

(** X7.  The pending counter is a uint64 and [PutJob] increments it without a
    check: at the largest value it wraps around to zero, and zero is what
    is persisted. *)
Theorem PutJob_counter_wraps (s : state) (job : Job) (s' : state) :
  numPendingJobs s = 2 ^ 64 - 1 →
  PutJob job s = (None, s') →
  numPendingJobs s' = 0 ∧ persistedPending (db s') = Some 0.
Proof.
  intros Hn HP. apply PutJob_None_inv in HP as (_ & Hn' & Hc & _).
  rewrite Hn in Hn'. change (u64 (2 ^ 64 - 1 + 1)) with 0 in Hn'.
  split; [done|]. unfold persistedPending. rewrite Hc, Hn'. reflexivity.
Qed.

Lemma PutJob_counter_wraps_witness :
  let s := set_numPendingJobs (2 ^ 64 - 1) initial in
  numPendingJobs (PutJob job1 s).2 = 0 ∧
  persistedPending (db (PutJob job1 s).2) = Some 0.
Proof.
  intros s. apply (PutJob_counter_wraps s job1); reflexivity.
Defined.

(** X8.  What is put is what is read back.  After a successful [PutJob(J)],
    whatever the id of J had before, [GetJob(J.ID())] returns J itself when
    caching is enabled, and what the parser makes of the bytes of J when it
    is not (the read of the store not failing). *)
Theorem GetJob_after_PutJob (s : state) (job : Job) (s' : state) :
  PutJob job s = (None, s') →
  (cachingEnabled s = true → (GetJob (ID job) s').1 = OK job) ∧
  (cachingEnabled s = false → hd false (faults (db s')) = false →
   (GetJob (ID job) s').1 = Parse (parser s) (Bytes job)).
Proof.
  intros HP. pose proof HP as (Hj & Hc & Hcache)%PutJob_ok_inv.
  apply PutJob_None_inv in HP as (_ & _ & _ & _ & _ & Hp & _). split.
  - intros Hon. unfold GetJob, cache.Get. rewrite Hc, Hon, Hcache by done.
    by rewrite find_Put_eq.
  - intros Hoff Hq. rewrite GetJob_readThrough; [|left; congruence|done].
    unfold readThrough. by rewrite Hj, Hp.
Qed.

Lemma GetJob_after_PutJob_witness :
  (GetJob (ID job1Other) (PutJob job1Other (PutJob job1 initial).2).2).1 = OK job1Other ∧
  (let s := DisableCaching (SetParser (parseKnown [job1; job1Other]) initial) in
   (GetJob (ID job1Other) (PutJob job1Other (PutJob job1 s).2).2).1 =
     Parse (parser (PutJob job1 s).2) (Bytes job1Other)).
Proof.
  split.
  - apply (GetJob_after_PutJob (PutJob job1 initial).2 job1Other); reflexivity.
  - intros s. apply (GetJob_after_PutJob (PutJob job1 s).2 job1Other); reflexivity.
Defined.

(** X9.  When [RemoveRunnableJob] returns a job together with an error, the id
    is off the runnable list and no checkpoint has been written.  Either
    the deletion of the job failed: the Job Store and the counter are as
    they were.  Or the write of the checkpoint failed: the job is deleted
    and the in-memory counter is one lower, while the persisted checkpoint
    is what it was. *)
Theorem RemoveRunnableJob_job_and_error (s : state) (job : Job) (err : Error)
    (s' : state) :
  inRange s →
  RemoveRunnableJob s = ((Some job, Some err), s') →
  err = ErrStorage ∧
  checkpoint (db s') = checkpoint (db s) ∧
  ∃ k v rest,
    linkedAt runnableJobIDs (db s) = (k, v) :: rest ∧
    linkedAt runnableJobIDs (db s') = linkeddb.remove k ((k, v) :: rest) ∧
    ((plainAt jobs (db s') = plainAt jobs (db s) ∧
      numPendingJobs s' = numPendingJobs s) ∨
     (plainAt jobs (db s') = delete k (plainAt jobs (db s)) ∧
      numPendingJobs s' = numPendingJobs s - 1 ∧ 0 < numPendingJobs s)).
Proof.
  unfold inRange. intros Hr HR.
  apply RemoveRunnableJob_job_inv in HR
    as (k & v & rest & d2 & s3 & e4 & d4 & Hl & Hp2 & Hl2 & Hf2 & Hwf & HG & HD & Hend).
  apply GetJob_inv in HG as (_ & Hn3 & _ & _ & Hp3 & Hl3). simpl in *.
  assert (∀ w, plainAt w (db s3) = plainAt w (db s)) as Hsame
    by (intros w; by rewrite (plainAt_ext w _ _ Hp3), (plainAt_ext w _ _ Hp2)).
  assert (linkedAt runnableJobIDs (db s3) = linkeddb.remove k ((k, v) :: rest)) as Hrun
    by (by rewrite (linkedAt_ext _ _ _ Hl3)).
  apply Delete_inv in HD as (_ & Hl4 & [(->&_&Hp4)|(->&_&Hj4&Ho4)]).
  - destruct Hend as [[= <-] ->]. simpl. unfold checkpoint.
    rewrite !(plainAt_ext _ _ _ Hp4), !Hsame, (linkedAt_ext _ _ _ Hl4).
    split_and!; [done..|]. exists k, v, rest. split_and!; [done..|]. by left.
  - destruct (numPendingJobs s3 =? 0) eqn:Ez; [by destruct Hend|].
    apply Z.eqb_neq in Ez. destruct Hend as (d5 & E5 & ->). simpl.
    apply PutUInt64_inv in E5 as (_ & Hl5 & [([= <-]&_&Hp5)|(?&_)]); [|done].
    unfold checkpoint.
    rewrite !(plainAt_ext _ _ _ Hp5), Hj4, Ho4, !Hsame by apply jobs_ne_pendingJobs.
    rewrite (linkedAt_ext _ _ _ Hl5), (linkedAt_ext _ _ _ Hl4).
    split_and!; [done..|]. exists k, v, rest. split_and!; [done..|]. right.
    rewrite Hn3 in *. rewrite u64_small by lia. split_and!; [done | done | lia].
Qed.

Lemma RemoveRunnableJob_job_and_error_witness :
  let s := run [DoPutJob job1; DoAddRunnableJob (ID job1)]
               (set_db (emptyStore [false; false; false; false; false; true]) initial) in
  let s' := (RemoveRunnableJob s).2 in
  ErrStorage = ErrStorage ∧
  checkpoint (db s') = checkpoint (db s) ∧
  ∃ k v rest,
    linkedAt runnableJobIDs (db s) = (k, v) :: rest ∧
    linkedAt runnableJobIDs (db s') = linkeddb.remove k ((k, v) :: rest) ∧
    ((plainAt jobs (db s') = plainAt jobs (db s) ∧
      numPendingJobs s' = numPendingJobs s) ∨
     (plainAt jobs (db s') = delete k (plainAt jobs (db s)) ∧
      numPendingJobs s' = numPendingJobs s - 1 ∧ 0 < numPendingJobs s)).
Proof.
  intros s s'. apply (RemoveRunnableJob_job_and_error s job1 ErrStorage s').
  - unfold inRange. vm_compute. split; [discriminate | reflexivity].
  - vm_compute. reflexivity.
Defined.

(** ** Starting again from what is persisted *)

(** The state [newState] makes is fresh: caching on, both caches empty,
    no parser yet. *)
Lemma newState_fresh st registration s :
  newState st registration = OK s →
  parser s = None ∧ cachingEnabled s = true ∧
  cache.entries (jobsCache s) = [] ∧ cache.entries (dependentsCache s) = [].
Proof. unfold newState. intros H. repeat case_match; by simplify_eq/=. Qed.

(** With a checkpoint that holds a counter, [newState] starts from it. *)
Lemma newState_checkpoint st n :
  checkpoint st = Some (PackUInt64 n) → 0 ≤ n < 2 ^ 64 →
  hd false (faults st) = false →
  ∃ s0, newState st None = OK s0 ∧ numPendingJobs s0 = n ∧
        plain (db s0) = plain st ∧ linked (db s0) = linked st.
Proof.
  unfold checkpoint. intros Hc Hn Hq.
  unfold newState, getPendingJobs, database.GetUInt64.
  destruct (database.Get pendingJobs pendingJobsKey st) as [r d1] eqn:E.
  apply Get_inv in E as (_ & Hl & Hp & [(_&?)|(_&->)]); [congruence|].
  rewrite Hc, ParseUInt64_PackUInt64 by done. eauto.
Qed.

(** What a successful dequeue that found the counter above zero has
    persisted as the checkpoint. *)
Lemma RemoveRunnableJob_checkpoint s job s' :
  numPendingJobs s ≠ 0 →
  RemoveRunnableJob s = ((Some job, None), s') →
  numPendingJobs s' = u64 (numPendingJobs s - 1) ∧
  checkpoint (db s') = Some (PackUInt64 (numPendingJobs s')).
Proof.
  intros Hnz HR.
  apply RemoveRunnableJob_job_inv in HR
    as (k & v & rest & d2 & s3 & e4 & d4 & _ & _ & _ & _ & _ & HG & HD & Hend).
  apply GetJob_inv in HG as (_ & Hn3 & _). simpl in Hn3.
  destruct e4; [by destruct Hend|].
  apply Z.eqb_neq in Hnz. rewrite Hn3, Hnz in Hend.
  destruct Hend as (d5 & E5 & ->). simpl.
  apply PutUInt64_inv in E5 as (_ & _ & [(?&_)|(_&_&Hw&_)]); [done|].
  unfold checkpoint. by rewrite Hw, lookup_insert_eq.
Qed.

(** X10.  The checkpoint carries the counter across a restart.  After a
    successful [PutJob], and after a successful dequeue that found the
    counter above zero, [newState] on the store as it stands (its read of
    the checkpoint not failing) succeeds and starts from the pending count
    the old state had in memory. *)
Theorem newState_resumes_counter :
  (∀ s job s',
      PutJob job s = (None, s') →
      hd false (faults (db s')) = false →
      ∃ s0, newState (db s') None = OK s0 ∧ numPendingJobs s0 = numPendingJobs s') ∧
  (∀ s job s',
      numPendingJobs s ≠ 0 →
      RemoveRunnableJob s = ((Some job, None), s') →
      hd false (faults (db s')) = false →
      ∃ s0, newState (db s') None = OK s0 ∧ numPendingJobs s0 = numPendingJobs s').
Proof.
  split.
  - intros s job s' HP Hq. apply PutJob_None_inv in HP as (_ & Hn & Hc & _).
    destruct (newState_checkpoint (db s') (numPendingJobs s')) as (s0 & ? & ? & _);
      [done | rewrite Hn; apply u64_range | done | eauto].
  - intros s job s' Hnz HR Hq.
    apply RemoveRunnableJob_checkpoint in HR as (Hn & Hc); [|done].
    destruct (newState_checkpoint (db s') (numPendingJobs s')) as (s0 & ? & ? & _);
      [done | rewrite Hn; apply u64_range | done | eauto].
Qed.

Lemma newState_resumes_counter_witness :
  (∃ s0, newState (db (PutJob job2 (PutJob job1 initial).2).2) None = OK s0 ∧
         numPendingJobs s0 = numPendingJobs (PutJob job2 (PutJob job1 initial).2).2) ∧
  (let s := run [DoPutJob job1; DoPutJob job2; DoAddRunnableJob (ID job1)] initial in
   ∃ s0, newState (db (RemoveRunnableJob s).2) None = OK s0 ∧
         numPendingJobs s0 = numPendingJobs (RemoveRunnableJob s).2).
Proof.
  destruct newState_resumes_counter as [Hput Hdeq]. split.
  - apply (Hput (PutJob job1 initial).2 job2); reflexivity.
  - intros s. apply (Hdeq s job1); [discriminate | reflexivity | reflexivity].
Defined.

(** X11.  Jobs are as durable as their write.  A job whose [PutJob] succeeded is
    found by a state made afresh from the store: [HasJob] returns true and
    [GetJob] returns what the parser makes of its bytes.  A job whose write
    to the Job Store failed was only ever in the cache of the old state:
    for the fresh state it is not there. *)
Theorem newState_finds_stored_jobs :
  (∀ s job s' s0 parse,
      PutJob job s = (None, s') →
      newState (db s') None = OK s0 →
      hd false (faults (db s0)) = false →
      (HasJob (ID job) s0).1 = OK true ∧
      (GetJob (ID job) (SetParser parse s0)).1 = parse (Bytes job)) ∧
  (∀ s job s0,
      hd false (faults (db s)) = true →
      plainAt jobs (db s) !! ID job = None →
      newState (db (PutJob job s).2) None = OK s0 →
      hd false (faults (db s0)) = false →
      (HasJob (ID job) s0).1 = OK false).
Proof.
  split.
  - intros s job s' s0 parse HP HN Hq.
    apply PutJob_ok_inv in HP as (Hj & _).
    pose proof (newState_fresh _ _ _ HN) as (_ & Hc & Hempty & _).
    apply newState_reads_only in HN as [Hp _].
    rewrite <-(plainAt_ext jobs _ _ Hp) in Hj. split.
    + unfold HasJob, cache.Get. rewrite Hc, Hempty. simpl. unfold onStore.
      destruct (database.Has jobs (ID job) (db s0)) as [r d1] eqn:E.
      apply Has_inv in E as (_ & _ & _ & [(_&?)|(_&->)]); [congruence|].
      by rewrite Hj.
    + rewrite GetJob_readThrough; [|right; simpl; by rewrite Hempty|done].
      unfold readThrough. simpl. by rewrite Hj.
  - intros s job s0 Hfail Hj HN Hq.
    assert (plain (db (PutJob job s).2) = plain (db s)) as Hsame.
    { unfold PutJob.
      set (s1 := if cachingEnabled s then _ else s).
      assert (db s1 = db s) as Hdb
        by (subst s1; destruct (cachingEnabled s) eqn:Hc; simpl; rewrite ?Hc; done).
      clearbody s1.
      destruct (onStore (database.Put jobs _ _) s1) as [e1 s2] eqn:E1.
      apply onStore_inv in E1 as (d1 & E1 & ->). rewrite Hdb in E1.
      apply Put_inv in E1 as (_ & _ & [(->&_&?)|(_&?&_)]); [done | congruence]. }
    pose proof (newState_fresh _ _ _ HN) as (_ & Hc & Hempty & _).
    apply newState_reads_only in HN as [Hp _].
    unfold HasJob, cache.Get. rewrite Hc, Hempty. simpl. unfold onStore.
    destruct (database.Has jobs (ID job) (db s0)) as [r d1] eqn:E.
    apply Has_inv in E as (_ & _ & _ & [(_&?)|(_&->)]); [congruence|].
    by rewrite (plainAt_ext jobs _ _ Hp), (plainAt_ext jobs _ _ Hsame), Hj.
Qed.

Lemma newState_finds_stored_jobs_witness :
  (let s0 := mkState None (tick (db (PutJob job1 initial).2)).2 true
               (cache.mkLRU jobsCacheSize []) (cache.mkLRU dependentsCacheSize []) 1 in
   (HasJob (ID job1) s0).1 = OK true ∧
   (GetJob (ID job1) (SetParser (parseKnown [job1]) s0)).1 =
     parseKnown [job1] (Bytes job1)) ∧
  (HasJob (ID job1) initial).1 = OK false.
Proof.
  destruct newState_finds_stored_jobs as [Hstored Hcached]. split.
  - intros s0. apply (Hstored initial job1 (PutJob job1 initial).2 s0); reflexivity.
  - apply (Hcached (set_db (emptyStore [true]) initial) job1 initial); reflexivity.
Defined.

(** ** Failures of the recovery *)

(** The scan as far as a [Next] that fails. *)
Lemma countLoop_fails k iterator n d fs :
  faults d = replicate k false ++ true :: fs →
  (k ≤ length iterator)%nat →
  (countLoop iterator n d).1.2 = Some ErrStorage ∧
  faults (countLoop iterator n d).2 = fs.
Proof.
  revert iterator n d. induction k as [|k IH]; intros iterator n d Hf Hk;
    cbn [replicate app] in Hf.
  - destruct iterator; cbn [countLoop]; unfold tick; rewrite Hf; done.
  - destruct iterator as [|e iterator]; [simpl in Hk; lia|].
    cbn [countLoop]. destruct (tick d) as [f d1] eqn:Et.
    apply tick_inv in Et as (-> & _ & _ & Hf1). rewrite Hf in *. simpl in *.
    apply IH; [done | lia].
Qed.

(** The scan on a store whose next calls do not fail. *)
Lemma countLoop_calm iterator n d :
  calm (S (length iterator)) d = true →
  0 ≤ n → n + Z.of_nat (length iterator) < 2 ^ 64 →
  (countLoop iterator n d).1 = (n + Z.of_nat (length iterator), None).
Proof.
  revert n d. induction iterator as [|e iterator IH]; intros n d Hq Hn Hb;
    cbn [countLoop]; destruct (tick d) as [f d1] eqn:Et;
    apply tick_inv in Et as (-> & _ & _ & Hf1);
    destruct (calm_step _ d d1 Hq Hf1) as [-> Hq1].
  - simpl. by rewrite Z.add_0_r.
  - cbn [length] in *. rewrite Nat2Z.inj_succ in *.
    rewrite u64_small by lia. rewrite IH by (done || lia).
    f_equal. lia.
Qed.

(** X12.  [initializePendingJobs] counts the entries of the database it is
    handed, whichever that is, and changes nothing in it; and when a [Next]
    of its iterator fails it returns that error, not a count to go by. *)
Theorem initializePendingJobs_counts (d : list string) (st : Store) :
  (calm (S (size (plainAt d st))) st = true →
   Z.of_nat (size (plainAt d st)) < 2 ^ 64 →
   (initializePendingJobs d st).1 = (Z.of_nat (size (plainAt d st)), None)) ∧
  (∀ k fs,
     faults st = replicate k false ++ true :: fs →
     (k ≤ size (plainAt d st))%nat →
     (initializePendingJobs d st).1.2 = Some ErrStorage) ∧
  plain (initializePendingJobs d st).2 = plain st ∧
  linked (initializePendingJobs d st).2 = linked st.
Proof.
  unfold initializePendingJobs, database.NewIterator. split_and!.
  - intros Hq Hb. rewrite <-length_map_to_list in Hq, Hb.
    rewrite countLoop_calm by done. by rewrite Z.add_0_l, length_map_to_list.
  - intros k fs Hf Hk. rewrite <-length_map_to_list in Hk.
    by destruct (countLoop_fails k (map_to_list (plainAt d st)) 0 st fs Hf Hk).
  - apply countLoop_store.
  - apply countLoop_store.
Qed.

Lemma initializePendingJobs_counts_witness :
  (initializePendingJobs jobs legacyStore).1 = (1, None) ∧
  (initializePendingJobs jobs (mkStore (plain legacyStore) ∅ [false; true])).1.2
    = Some ErrStorage.
Proof.
  split.
  - destruct (initializePendingJobs_counts jobs legacyStore) as (Hcount & _).
    apply Hcount; [reflexivity | vm_compute; reflexivity].
  - destruct (initializePendingJobs_counts jobs
                (mkStore (plain legacyStore) ∅ [false; true])) as (_ & Hfail & _).
    apply (Hfail 1%nat []); [reflexivity | vm_compute; lia].
Defined.

(** X13.  [newState] gives up on every failure of the recovery.  When the
    metrics cannot be registered the store is not even read.  When the read
    of the checkpoint fails, or the checkpoint does not have the bytes of a
    counter, that error is returned: only NotFound leads to the scan.  When
    there is no checkpoint and the scan fails, that error is returned. *)
Theorem newState_failures (st : Store) :
  (∀ err, newState st (Some err) = Err (ErrWrap "couldn't create metered cache" err)) ∧
  (hd false (faults st) = true →
   newState st None = Err (ErrWrap "couldn't initialize pending jobs" ErrStorage)) ∧
  (∀ b, checkpoint st = Some b → String.length b ≠ 8%nat →
        hd false (faults st) = false →
        newState st None =
          Err (ErrWrap "couldn't initialize pending jobs" (ErrLength 8 (String.length b)))) ∧
  (∀ k fs, checkpoint st = None →
           faults st = false :: replicate k false ++ true :: fs →
           (k ≤ size (plainAt pendingJobs st))%nat →
           newState st None = Err (ErrWrap "couldn't initialize pending jobs" ErrStorage)).
Proof.
  split_and!; [done|..].
  - intros Hq. unfold newState, getPendingJobs, database.GetUInt64.
    destruct (database.Get pendingJobs pendingJobsKey st) as [r d1] eqn:E.
    apply Get_inv in E as (_ & _ & _ & [(->&_)|(?&_)]); [done | congruence].
  - unfold checkpoint. intros b Hc Hlen Hq.
    unfold newState, getPendingJobs, database.GetUInt64.
    destruct (database.Get pendingJobs pendingJobsKey st) as [r d1] eqn:E.
    apply Get_inv in E as (_ & _ & _ & [(_&?)|(_&->)]); [congruence|].
    rewrite Hc. unfold ParseUInt64.
    destruct (Nat.eqb (String.length b) 8) eqn:E8; [by apply Nat.eqb_eq in E8|]. done.
  - unfold checkpoint. intros k fs Hc Hf Hk.
    unfold newState, getPendingJobs, database.GetUInt64.
    destruct (database.Get pendingJobs pendingJobsKey st) as [r d1] eqn:E.
    apply Get_inv in E as (Hf1 & _ & Hp1 & [(_&Hh)|(_&->)]);
      [rewrite Hf in Hh; done|].
    rewrite Hc. rewrite Hf in Hf1. simpl in Hf1.
    unfold initializePendingJobs, database.NewIterator.
    rewrite <-(plainAt_ext pendingJobs _ _ Hp1), <-length_map_to_list in Hk.
    destruct (countLoop_fails k (map_to_list (plainAt pendingJobs d1)) 0 d1 fs Hf1 Hk)
      as [He _].
    destruct (countLoop _ 0 d1) as [[n e] d2]. simpl in He. by subst e.
Qed.

Lemma newState_failures_witness :
  newState (emptyStore [true]) None
    = Err (ErrWrap "couldn't initialize pending jobs" ErrStorage) ∧
  newState (mkStore {[ pendingJobs := {[ pendingJobsKey := "short" ]} ]} ∅ []) None
    = Err (ErrWrap "couldn't initialize pending jobs" (ErrLength 8 5)) ∧
  newState (emptyStore [false; true]) None
    = Err (ErrWrap "couldn't initialize pending jobs" ErrStorage).
Proof.
  split_and!.
  - destruct (newState_failures (emptyStore [true])) as (_ & H & _).
    apply H. reflexivity.
  - destruct (newState_failures
                (mkStore {[ pendingJobs := {[ pendingJobsKey := "short" ]} ]} ∅ []))
      as (_ & _ & H & _).
    apply (H "short"); [vm_compute; reflexivity | discriminate | reflexivity].
  - destruct (newState_failures (emptyStore [false; true])) as (_ & _ & _ & H).
    apply (H 0%nat []); [reflexivity | reflexivity | vm_compute; lia].
Defined.

(** ** Every dependent of a dependency *)

Section PutMany.
Implicit Types (l : list (string * string)) (k : string) (ks : list string).

(** The keys of a list after the keys [ks] have been put into it: each
    once, those it had and those of [ks]. *)
Lemma keys_put_many ks l :
  NoDup (keys l) →
  NoDup (keys (foldl (λ l k, linkeddb.insert k "" l) l ks)) ∧
  ∀ x, x ∈ keys (foldl (λ l k, linkeddb.insert k "" l) l ks) ↔ x ∈ keys l ∨ x ∈ ks.
Proof.
  revert l. induction ks as [|k ks IH]; intros l Hn; cbn [foldl].
  - split; [done|]. intros x. rewrite elem_of_nil. tauto.
  - destruct (IH (linkeddb.insert k "" l) (NoDup_keys_put k "" l Hn)) as [Hn' Hin].
    split; [done|]. intros x. rewrite Hin, elem_of_cons.
    destruct (decide (k ∈ keys l)) as [Hk|Hk].
    + rewrite keys_put_present by done. split; [tauto|].
      intros [?|[->|?]]; auto.
    + rewrite keys_put_absent, elem_of_app, list_elem_of_singleton by done. tauto.
Qed.

(** The keys of a list after the keys [ks] have been deleted from it. *)
Lemma keys_removeAll ks l :
  NoDup (keys l) →
  NoDup (keys (removeAll ks l)) ∧
  ∀ x, x ∈ keys (removeAll ks l) ↔ x ∈ keys l ∧ x ∉ ks.
Proof.
  assert (∀ k l x, x ∈ keys (linkeddb.remove k l) ↔ x ∈ keys l ∧ x ≠ k) as Hrem.
  { intros k l' x. induction l' as [|[k' v'] l' IHl]; simpl.
    - rewrite elem_of_nil. tauto.
    - case_decide; subst; simpl; rewrite ?elem_of_cons, IHl.
      + split; [tauto|]. intros [[->|?] ?]; [done | tauto].
      + split; [|tauto]. intros [->|[? ?]]; [split; [by left | congruence] | tauto]. }
  revert l. induction ks as [|k ks IH]; intros l Hn; cbn [removeAll].
  - split; [done|]. intros x. rewrite elem_of_nil. tauto.
  - destruct (IH (linkeddb.remove k l) (NoDup_keys_remove k l Hn)) as [Hn' Hin].
    split; [done|]. intros x. rewrite Hin, Hrem, elem_of_cons. tauto.
Qed.

End PutMany.

(** A run of successful [AddDependency(D, X)] for the dependents [Xs] has
    put them into the bucket of D, one after the other. *)
Lemma AddDependency_many D Xs s :
  handlesOK s →
  succeeded (trace (map (DoAddDependency D) Xs) s) = true →
  handlesOK (run (map (DoAddDependency D) Xs) s) ∧
  linkedAt (bucket D) (db (run (map (DoAddDependency D) Xs) s)) =
    foldl (λ l X, linkeddb.insert X "" l) (linkedAt (bucket D) (db s)) Xs.
Proof.
  revert s. induction Xs as [|X Xs IH]; intros s Hok Hs; [done|].
  cbn [map trace run succeeded forallb foldl exec] in *.
  apply andb_true_iff in Hs as [H1 Hs].
  pose proof (AddDependency_ok D X s Hok) as H.
  destruct (AddDependency D X s) as [[e|] s']; [done|].
  destruct (H eq_refl) as [Hok' Hl]. simpl in *. rewrite <-Hl. by apply IH.
Qed.

(** A [RemoveDependencies] that succeeds has returned the keys of the
    bucket and left the bucket empty. *)
Lemma RemoveDependencies_ok D s dependents s' :
  handlesOK s →
  RemoveDependencies D s = ((dependents, None), s') →
  dependents = keys (linkedAt (bucket D) (db s)) ∧
  linkedAt (bucket D) (db s') = [].
Proof.
  intros Hok. unfold RemoveDependencies.
  destruct (getDependentsDB D s) as [h s1] eqn:E1.
  apply getDependentsDB_inv in E1 as (-> & _ & Hdb & _); [|done].
  intros HR. apply onStore_inv in HR as (d2 & HR & ->). rewrite Hdb in HR.
  apply removeLoop_ok in HR as (-> & Hl). unfold linkeddb.NewIterator in *.
  by rewrite removeAll_keys in Hl.
Qed.

(** X14.  [RemoveDependencies(D)] returns every dependent of D, each once.  After
    [AddDependency(D, X)] has succeeded for each X of [Xs], in any order and
    any number of times, a successful [RemoveDependencies(D)] returns a
    collection without repetition that holds exactly the dependents the
    bucket had and those of [Xs], and leaves the bucket empty. *)
Theorem RemoveDependencies_returns_every_dependent (s : state) (D : ids.ID)
    (Xs : list ids.ID) (dependents : list ids.ID) (s' : state) :
  handlesOK s →
  NoDup (keys (linkedAt (bucket D) (db s))) →
  succeeded (trace (map (DoAddDependency D) Xs) s) = true →
  RemoveDependencies D (run (map (DoAddDependency D) Xs) s) = ((dependents, None), s') →
  NoDup dependents ∧
  (∀ X, X ∈ dependents ↔ X ∈ keys (linkedAt (bucket D) (db s)) ∨ X ∈ Xs) ∧
  linkedAt (bucket D) (db s') = [].
Proof.
  intros Hok Hn Hs HR.
  destruct (AddDependency_many D Xs s Hok Hs) as [Hok1 Hl1].
  apply RemoveDependencies_ok in HR as [-> Hempty]; [|done].
  rewrite Hl1. destruct (keys_put_many Xs _ Hn) as [? ?]. done.
Qed.

Lemma RemoveDependencies_returns_every_dependent_witness :
  let D := ids.lit "D" in
  let X1 := ids.lit "X1" in
  let X2 := ids.lit "X2" in
  let s := run (map (DoAddDependency D) [X1; X2; X1]) initial in
  NoDup (RemoveDependencies D s).1.1 ∧
  (∀ X, X ∈ (RemoveDependencies D s).1.1 ↔
        X ∈ keys (linkedAt (bucket D) (db initial)) ∨ X ∈ [X1; X2; X1]) ∧
  linkedAt (bucket D) (db (RemoveDependencies D s).2) = [].
Proof.
  intros D X1 X2 s.
  apply (RemoveDependencies_returns_every_dependent initial D [X1; X2; X1]);
    [constructor | constructor | reflexivity | vm_compute; reflexivity].
Defined.

(** ** Buckets apart *)

Lemma removeLoop_other h v iterator acc d :
  v ≠ h → linkedAt v (removeLoop h iterator acc d).2 = linkedAt v d.
Proof.
  intros Hv. revert acc d. induction iterator as [|[k b] iterator IH]; intros acc d;
    cbn [removeLoop]; destruct (tick d) as [f d1] eqn:Et;
    apply tick_inv in Et as (_ & _ & Hl1 & _); destruct f; simpl;
    try (by apply linkedAt_ext).
  destruct (linkeddb.Delete h k d1) as [e d2] eqn:E2.
  assert (linkedAt v d2 = linkedAt v d) as Hl2.
  { apply lDelete_inv in E2 as (_ & _ & [(_&_&Hl)|(_&_&_&Ho)]).
    - by rewrite (linkedAt_ext _ _ _ Hl), (linkedAt_ext _ _ _ Hl1).
    - by rewrite Ho, (linkedAt_ext _ _ _ Hl1). }
  destruct e; [done|]. destruct (ids.ToID k); [|done]. by rewrite IH.
Qed.

(** X15.  The dependents of one dependency are kept apart from everything else.
    [AddDependency(D, X)] and [RemoveDependencies(D)] leave every list other
    than the bucket of D as it was: the buckets of the other dependencies,
    the runnable list, the missing ids; and the key-value name spaces
    too. *)
Theorem dependency_bucket_is_separate (s : state) (D X : ids.ID) (v : list string) :
  handlesOK s →
  v ≠ bucket D →
  linkedAt v (db (AddDependency D X s).2) = linkedAt v (db s) ∧
  linkedAt v (db (RemoveDependencies D s).2) = linkedAt v (db s) ∧
  plain (db (AddDependency D X s).2) = plain (db s) ∧
  plain (db (RemoveDependencies D s).2) = plain (db s).
Proof.
  intros Hok Hv. split_and!.
  - unfold AddDependency.
    destruct (getDependentsDB D s) as [h s1] eqn:E1.
    apply getDependentsDB_inv in E1 as (-> & _ & Hdb & _); [|done].
    destruct (onStore _ s1) as [e s2] eqn:E2.
    apply onStore_inv in E2 as (d2 & E2 & ->). rewrite Hdb in E2. simpl.
    apply lPut_inv in E2 as (_ & _ & [(_&_&Hl)|(_&_&_&Ho)]).
    + by apply linkedAt_ext.
    + by apply Ho.
  - unfold RemoveDependencies.
    destruct (getDependentsDB D s) as [h s1] eqn:E1.
    apply getDependentsDB_inv in E1 as (-> & _ & Hdb & _); [|done].
    unfold onStore. rewrite Hdb.
    pose proof (removeLoop_other (bucket D) v
                  (linkeddb.NewIterator (bucket D) (db s)) [] (db s) Hv) as H.
    by destruct (removeLoop _ _ _ _).
  - by destruct (AddDependency_frame D X s) as (_&_&_&_&?&_).
  - by destruct (RemoveDependencies_frame D s) as (_&_&_&_&?&_).
Qed.

Lemma dependency_bucket_is_separate_witness :
  let D := ids.lit "D" in
  let E := ids.lit "E" in
  let X := ids.lit "X" in
  let s := (AddDependency E X initial).2 in
  linkedAt (bucket E) (db (AddDependency D X s).2) = linkedAt (bucket E) (db s) ∧
  linkedAt (bucket E) (db (RemoveDependencies D s).2) = linkedAt (bucket E) (db s) ∧
  plain (db (AddDependency D X s).2) = plain (db s) ∧
  plain (db (RemoveDependencies D s).2) = plain (db s).
Proof.
  intros D E X s. apply (dependency_bucket_is_separate s D X (bucket E)).
  - repeat constructor.
  - discriminate.
Defined.

(** X16.  The handle cache never hands out the bucket of another dependency: in
    every state the calls reach from [newState], cached or not,
    [getDependentsDB(D)] is the database [prefixdb.New(D, dependencies)]
    wrapped as a linked database. *)
Theorem getDependentsDB_is_the_bucket (st : Store) (registration : option Error)
    (s0 : state) (cs : list Call) (D : ids.ID) :
  newState st registration = OK s0 →
  (getDependentsDB D (run cs s0)).1 =
    linkeddb.NewDefault (prefixdb.New D dependencies).
Proof.
  intros HN.
  assert (handlesOK (run cs s0)) as Hok.
  { destruct (run_frame cs s0) as (_&_&_&Hh&_). apply Hh.
    apply newState_fresh in HN as (_ & _ & _ & Hempty).
    unfold handlesOK. rewrite Hempty. constructor. }
  destruct (getDependentsDB D (run cs s0)) as [h s1] eqn:E.
  by apply getDependentsDB_inv in E as (-> & _).
Qed.

Lemma getDependentsDB_is_the_bucket_witness :
  let D := ids.lit "D" in
  let E := ids.lit "E" in
  let X := ids.lit "X" in
  (getDependentsDB D
     (run [DoAddDependency D X; DoAddDependency E X; DoRemoveDependencies E] initial)).1 =
    linkeddb.NewDefault (prefixdb.New D dependencies).
Proof.
  intros D E X.
  apply (getDependentsDB_is_the_bucket (emptyStore []) None initial). reflexivity.
Defined.

(** ** The missing ids, as a set *)

Lemma missingLoop_calm iterator acc d :
  Forall ids.wf (keys iterator) →
  calm (S (length iterator)) d = true →
  (missingLoop iterator acc d).1 = (acc ++ keys iterator, None).
Proof.
  revert acc d. induction iterator as [|[k v] iterator IH]; intros acc d Hwf Hq;
    cbn [missingLoop]; destruct (tick d) as [f d1] eqn:Et;
    apply tick_inv in Et as (-> & _ & _ & Hf1);
    destruct (calm_step _ d d1 Hq Hf1) as [-> Hq1].
  - simpl. by rewrite app_nil_r.
  - apply Forall_cons in Hwf as [Hk Hwf]. rewrite (ToID_wf k Hk).
    rewrite IH by done. simpl. by rewrite <-app_assoc.
Qed.

Lemma missingLoop_fails k iterator acc d fs :
  Forall ids.wf (keys iterator) →
  faults d = replicate k false ++ true :: fs →
  (k ≤ length iterator)%nat →
  (missingLoop iterator acc d).1 = (acc ++ take k (keys iterator), None).
Proof.
  revert iterator acc d. induction k as [|k IH]; intros iterator acc d Hwf Hf Hk;
    cbn [replicate app] in Hf.
  - rewrite take_0, app_nil_r.
    destruct iterator as [|[??]?]; cbn [missingLoop]; unfold tick; rewrite Hf; done.
  - destruct iterator as [|[k0 v] iterator]; [simpl in Hk; lia|].
    cbn [missingLoop]. destruct (tick d) as [f d1] eqn:Et.
    apply tick_inv in Et as (-> & _ & _ & Hf1). rewrite Hf in *. simpl in *.
    apply Forall_cons in Hwf as [Hk0 Hwf]. rewrite (ToID_wf k0 Hk0).
    rewrite (IH iterator (acc ++ [k0]) d1) by (done || lia).
    by rewrite <-app_assoc.
Qed.

(** X17.  [MissingJobIDs] returns the missing ids the list holds, in its order
    (the reads of its iterator not failing).  It never reports a failure of
    the iterator: when a [Next] fails it returns the ids read until then,
    with a nil error. *)
Theorem MissingJobIDs_lists_or_truncates (s : state) :
  let l := linkedAt missingJobIDs (db s) in
  Forall ids.wf (keys l) →
  (calm (S (length l)) (db s) = true → (MissingJobIDs s).1 = (keys l, None)) ∧
  (∀ k fs,
     faults (db s) = replicate k false ++ true :: fs →
     (k ≤ length l)%nat →
     (MissingJobIDs s).1 = (take k (keys l), None)).
Proof.
  intros l Hwf. unfold MissingJobIDs, onStore, linkeddb.NewIterator. fold l. split.
  - intros Hq. pose proof (missingLoop_calm l [] (db s) Hwf Hq) as H.
    by destruct (missingLoop l [] (db s)).
  - intros k fs Hf Hk. pose proof (missingLoop_fails k l [] (db s) fs Hwf Hf Hk) as H.
    by destruct (missingLoop l [] (db s)).
Qed.

Lemma MissingJobIDs_lists_or_truncates_witness :
  let A := ids.lit "A" in
  let B := ids.lit "B" in
  let st fs := mkStore ∅ {[ missingJobIDs := [(A, ""); (B, "")] ]} fs in
  (MissingJobIDs (set_db (st []) initial)).1 = ([A; B], None) ∧
  (MissingJobIDs (set_db (st [false; true]) initial)).1 = ([A], None).
Proof.
  intros A B st. split.
  - destruct (MissingJobIDs_lists_or_truncates (set_db (st []) initial)) as [H _];
      [repeat constructor|].
    apply H. reflexivity.
  - destruct (MissingJobIDs_lists_or_truncates (set_db (st [false; true]) initial))
      as [_ H]; [repeat constructor|].
    apply (H 1%nat []); [reflexivity | vm_compute; lia].
Defined.

(** X18.  The missing ids behave as a set, whatever the order in which the sets
    handed to [AddMissingJobIDs] and [RemoveMissingJobIDs] are visited:
    after a successful add of [add] and a successful remove of [rem], the
    list holds each id once, and it holds exactly the ids that were missing
    or were added and have not been removed. *)
Theorem missing_ids_form_a_set (s : state) (add rem : list ids.ID) :
  NoDup (keys (linkedAt missingJobIDs (db s))) →
  let s1 := (AddMissingJobIDs add s).2 in
  let s2 := (RemoveMissingJobIDs rem s1).2 in
  (AddMissingJobIDs add s).1 = None →
  (RemoveMissingJobIDs rem s1).1 = None →
  NoDup (keys (linkedAt missingJobIDs (db s2))) ∧
  ∀ x, x ∈ keys (linkedAt missingJobIDs (db s2)) ↔
       (x ∈ keys (linkedAt missingJobIDs (db s)) ∨ x ∈ add) ∧ x ∉ rem.
Proof.
  intros Hn s1 s2 Ha Hr. subst s2.
  rewrite RemoveMissingJobIDs_ok by done. subst s1.
  rewrite AddMissingJobIDs_ok by done.
  destruct (keys_put_many add _ Hn) as [Hn1 Hin1].
  destruct (keys_removeAll rem _ Hn1) as [Hn2 Hin2].
  split; [done|]. intros x. by rewrite Hin2, Hin1.
Qed.

Lemma missing_ids_form_a_set_witness :
  let A := ids.lit "A" in
  let B := ids.lit "B" in
  let C := ids.lit "C" in
  let s2 := (RemoveMissingJobIDs [C; A] (AddMissingJobIDs [B; A; C] initial).2).2 in
  NoDup (keys (linkedAt missingJobIDs (db s2))) ∧
  ∀ x, x ∈ keys (linkedAt missingJobIDs (db s2)) ↔
       (x ∈ keys (linkedAt missingJobIDs (db initial)) ∨ x ∈ [B; A; C]) ∧ x ∉ [C; A].
Proof.
  intros A B C s2.
  apply (missing_ids_form_a_set initial [B; A; C] [C; A]);
    [constructor | reflexivity | reflexivity].
Defined.

(** X19.  An update of the missing ids stops at the first write that fails: the
    ids visited before it have been added (or removed), the one whose write
    failed and those after it have not, and the store is not called again. *)
Theorem missing_ids_update_stops_at_failure (s : state) (done : list ids.ID)
    (x : ids.ID) (rest : list ids.ID) (fs : list bool) :
  faults (db s) = replicate (length done) false ++ true :: fs →
  ((AddMissingJobIDs (done ++ x :: rest) s).1 = Some ErrStorage ∧
   linkedAt missingJobIDs (db (AddMissingJobIDs (done ++ x :: rest) s).2) =
     foldl (λ l id, linkeddb.insert id "" l) (linkedAt missingJobIDs (db s)) done ∧
   faults (db (AddMissingJobIDs (done ++ x :: rest) s).2) = fs) ∧
  ((RemoveMissingJobIDs (done ++ x :: rest) s).1 = Some ErrStorage ∧
   linkedAt missingJobIDs (db (RemoveMissingJobIDs (done ++ x :: rest) s).2) =
     removeAll done (linkedAt missingJobIDs (db s)) ∧
   faults (db (RemoveMissingJobIDs (done ++ x :: rest) s).2) = fs).
Proof.
  revert s. induction done as [|id done IH]; intros s Hf; cbn [length replicate app] in Hf.
  - cbn [app AddMissingJobIDs RemoveMissingJobIDs foldl removeAll]. split.
    + destruct (onStore (linkeddb.Put _ _ _) s) as [e s1] eqn:E1.
      apply onStore_inv in E1 as (d1 & E1 & ->).
      apply lPut_inv in E1 as (Hf1 & _ & [(->&_&Hl)|(_&Hh&_)]);
        rewrite Hf in *; [|done].
      simpl. by rewrite (linkedAt_ext _ _ _ Hl).
    + destruct (onStore (linkeddb.Delete _ _) s) as [e s1] eqn:E1.
      apply onStore_inv in E1 as (d1 & E1 & ->).
      apply lDelete_inv in E1 as (Hf1 & _ & [(->&_&Hl)|(_&Hh&_)]);
        rewrite Hf in *; [|done].
      simpl. by rewrite (linkedAt_ext _ _ _ Hl).
  - cbn [app AddMissingJobIDs RemoveMissingJobIDs foldl removeAll]. split.
    + destruct (onStore (linkeddb.Put _ _ _) s) as [e s1] eqn:E1.
      apply onStore_inv in E1 as (d1 & E1 & ->).
      apply lPut_inv in E1 as (Hf1 & _ & [(_&Hh&_)|(->&_&Hl&_)]);
        rewrite Hf in *; [done|]. simpl in Hf1.
      destruct (IH (set_db d1 s) Hf1) as [(? & Hl' & ?) _].
      split_and!; [done | | done]. by rewrite Hl'; simpl; rewrite Hl.
    + destruct (onStore (linkeddb.Delete _ _) s) as [e s1] eqn:E1.
      apply onStore_inv in E1 as (d1 & E1 & ->).
      apply lDelete_inv in E1 as (Hf1 & _ & [(_&Hh&_)|(->&_&Hl&_)]);
        rewrite Hf in *; [done|]. simpl in Hf1.
      destruct (IH (set_db d1 s) Hf1) as [_ (? & Hl' & ?)].
      split_and!; [done | | done]. by rewrite Hl'; simpl; rewrite Hl.
Qed.

Lemma missing_ids_update_stops_at_failure_witness :
  let A := ids.lit "A" in
  let B := ids.lit "B" in
  let C := ids.lit "C" in
  let s := set_db (mkStore ∅ {[ missingJobIDs := [(C, "")] ]} [false; true; true]) initial in
  ((AddMissingJobIDs [A; B; C] s).1 = Some ErrStorage ∧
   linkedAt missingJobIDs (db (AddMissingJobIDs [A; B; C] s).2) =
     foldl (λ l id, linkeddb.insert id "" l) (linkedAt missingJobIDs (db s)) [A] ∧
   faults (db (AddMissingJobIDs [A; B; C] s).2) = [true]) ∧
  ((RemoveMissingJobIDs [A; B; C] s).1 = Some ErrStorage ∧
   linkedAt missingJobIDs (db (RemoveMissingJobIDs [A; B; C] s).2) =
     removeAll [A] (linkedAt missingJobIDs (db s)) ∧
   faults (db (RemoveMissingJobIDs [A; B; C] s).2) = [true]).
Proof.
  intros A B C s.
  apply (missing_ids_update_stops_at_failure s [A] B [C] [true]). reflexivity.
Defined.

(** ** Keys that are not identifiers *)

(** X20.  A key at the head of a list that does not convert to an identifier is
    an error for whoever reads it, and a dequeue or a drain has deleted it
    by then: [RemoveRunnableJob] returns the wrapped conversion error and
    no job, [RemoveDependencies] returns the conversion error and no
    collection, both with the key gone from the list; [MissingJobIDs]
    returns the conversion error and no collection. *)
Theorem malformed_key_at_the_head (s : state) (k v : string)
    (rest : list (string * string)) (err : Error) :
  ids.ToID k = Err err →
  calm 2 (db s) = true →
  (linkedAt runnableJobIDs (db s) = (k, v) :: rest →
   (RemoveRunnableJob s).1 =
     (None, Some (ErrWrap "couldn't convert job ID bytes to job ID" err)) ∧
   linkedAt runnableJobIDs (db (RemoveRunnableJob s).2) =
     linkeddb.remove k ((k, v) :: rest)) ∧
  (∀ D, handlesOK s →
        linkedAt (bucket D) (db s) = (k, v) :: rest →
        (RemoveDependencies D s).1 = ([], Some err) ∧
        linkedAt (bucket D) (db (RemoveDependencies D s).2) =
          linkeddb.remove k ((k, v) :: rest)) ∧
  (linkedAt missingJobIDs (db s) = (k, v) :: rest →
   (MissingJobIDs s).1 = ([], Some err)).
Proof.
  intros HI Hq. split_and!.
  - intros Hl. unfold RemoveRunnableJob.
    destruct (onStore (linkeddb.HeadKey _) s) as [r1 s1] eqn:E1.
    apply onStore_inv in E1 as (d1 & E1 & ->).
    apply HeadKey_inv in E1 as (Hf1 & Hl1 & Hp1 & Hr1).
    destruct (calm_step 1 (db s) d1 Hq Hf1) as [Hq0 Hq1].
    destruct Hr1 as [(?&?)|(_&->)]; [congruence|]. rewrite Hl. simpl.
    destruct (onStore (linkeddb.Delete _ _) _) as [r2 s2] eqn:E2.
    apply onStore_inv in E2 as (d2 & E2 & ->). simpl in E2.
    apply lDelete_inv in E2 as (Hf2 & Hp2 & [(_&Hh&_)|(->&_&Hl2&_)]).
    { apply calm_hd in Hq1. congruence. }
    rewrite HI. simpl. by rewrite Hl2, (linkedAt_ext _ _ _ Hl1), Hl.
  - intros D Hok Hl. unfold RemoveDependencies.
    destruct (getDependentsDB D s) as [h s1] eqn:E1.
    apply getDependentsDB_inv in E1 as (-> & _ & Hdb & _); [|done].
    unfold linkeddb.NewIterator, onStore. rewrite Hdb, Hl. cbn [removeLoop].
    destruct (tick (db s)) as [f d1] eqn:Et. apply tick_inv in Et as (-> & _ & Hl1 & Hf1).
    destruct (calm_step 1 (db s) d1 Hq Hf1) as [-> Hq1].
    destruct (linkeddb.Delete (bucket D) k d1) as [e d2] eqn:E2.
    apply lDelete_inv in E2 as (_ & _ & [(_&Hh&_)|(->&_&Hl2&_)]).
    { apply calm_hd in Hq1. congruence. }
    rewrite HI. simpl. by rewrite Hl2, (linkedAt_ext _ _ _ Hl1), Hl.
  - intros Hl. unfold MissingJobIDs, linkeddb.NewIterator, onStore. rewrite Hl.
    cbn [missingLoop].
    destruct (tick (db s)) as [f d1] eqn:Et. apply tick_inv in Et as (-> & _).
    apply (calm_weaken 2 1) in Hq; [|lia]. apply calm_hd in Hq. rewrite Hq, HI. done.
Qed.

Lemma malformed_key_at_the_head_witness :
  let D := ids.lit "D" in
  let l := [("evm", ""); (ID job1, "")] in
  let s := set_db (mkStore ∅ {[ runnableJobIDs := l; bucket D := l; missingJobIDs := l ]} [])
                  initial in
  ((RemoveRunnableJob s).1 =
     (None, Some (ErrWrap "couldn't convert job ID bytes to job ID" (ErrLength 32 3))) ∧
   linkedAt runnableJobIDs (db (RemoveRunnableJob s).2) = linkeddb.remove "evm" l) ∧
  ((RemoveDependencies D s).1 = ([], Some (ErrLength 32 3)) ∧
   linkedAt (bucket D) (db (RemoveDependencies D s).2) = linkeddb.remove "evm" l) ∧
  (MissingJobIDs s).1 = ([], Some (ErrLength 32 3)).
Proof.
  intros D l s.
  destruct (malformed_key_at_the_head s "evm" "" [(ID job1, "")] (ErrLength 32 3))
    as (Hrun & Hdep & Hmiss); [reflexivity | reflexivity |].
  split; [|split].
  - apply Hrun. vm_compute. reflexivity.
  - apply (Hdep D); [constructor | vm_compute; reflexivity].
  - apply Hmiss. vm_compute. reflexivity.
Defined.

(** ** What a call leaves alone *)

Lemma missingLoop_linked iterator acc d :
  linked (missingLoop iterator acc d).2 = linked d.
Proof.
  revert acc d. induction iterator as [|[k v] iterator IH]; intros acc d;
    cbn [missingLoop]; destruct (tick d) as [f d1] eqn:Et;
    apply tick_inv in Et as (_ & _ & Hl1 & _); destruct f; simpl; try done.
  destruct (ids.ToID k); [|done]. by rewrite IH.
Qed.

(** X21.  The reads only read.  [HasJob], [GetJob], [HasRunnableJob] and
    [MissingJobIDs] leave everything that is persisted as it was, and the
    pending counter too, whether they succeed or fail. *)
Theorem reads_change_nothing_persisted (s : state) (id : ids.ID) :
  let same (s' : state) :=
    plain (db s') = plain (db s) ∧ linked (db s') = linked (db s) ∧
    numPendingJobs s' = numPendingJobs s in
  same (HasJob id s).2 ∧ same (GetJob id s).2 ∧
  same (HasRunnableJob s).2 ∧ same (MissingJobIDs s).2.
Proof.
  intros same. subst same. cbv beta. split; [|split; [|split]].
  - by destruct (HasJob_frame id s) as (_&_&_&?&?&?&_).
  - by destruct (GetJob_frame id s) as (_&_&_&?&?&?&_).
  - unfold HasRunnableJob.
    destruct (onStore (linkeddb.IsEmpty runnableJobIDs) s) as [r s1] eqn:E.
    apply onStore_inv in E as (d1 & E & ->). apply IsEmpty_inv in E as (_ & ? & ?).
    by destruct r.
  - unfold MissingJobIDs, onStore.
    pose proof (missingLoop_frame (linkeddb.NewIterator missingJobIDs (db s)) [] (db s))
      as (? & _).
    pose proof (missingLoop_linked (linkeddb.NewIterator missingJobIDs (db s)) [] (db s)).
    by destruct (missingLoop _ _ _).
Qed.

(** X22.  Only [PutJob] and [RemoveRunnableJob] touch the jobs.  A run of any
    other calls leaves the pending counter, the Job Store and the persisted
    checkpoint as they were. *)
Theorem only_PutJob_and_dequeue_touch_jobs (cs : list Call) (s : state) :
  Forall (λ c, (∀ job, c ≠ DoPutJob job) ∧ c ≠ DoRemoveRunnableJob) cs →
  numPendingJobs (run cs s) = numPendingJobs s ∧
  plainAt jobs (db (run cs s)) = plainAt jobs (db s) ∧
  checkpoint (db (run cs s)) = checkpoint (db s).
Proof.
  intros Hcs.
  assert (numPendingJobs (run cs s) = numPendingJobs s ∧
          plain (db (run cs s)) = plain (db s)) as [Hn Hp].
  { revert s. induction Hcs as [|c cs [Hput Hdeq] _ IH]; intros s; [done|].
    cbn [run].
    assert (numPendingJobs (exec c s).2 = numPendingJobs s ∧
            plain (db (exec c s).2) = plain (db s)) as [Hn1 Hp1].
    { assert (∀ s', sameJobs s s' →
                numPendingJobs s' = numPendingJobs s ∧ plain (db s') = plain (db s))
        as Hsame by (by intros s' (?&?&?&?&?&?)).
      destruct c; simpl.
      - by destruct (Hput job).
      - pose proof (HasJob_frame id s) as (_&_&_&?&?&_).
        by destruct (HasJob id s).
      - pose proof (GetJob_frame id s) as (_&_&_&?&?&_).
        by destruct (GetJob id s).
      - pose proof (AddRunnableJob_frame jobID s).
        destruct (AddRunnableJob jobID s). auto.
      - pose proof (HasRunnableJob_frame s). destruct (HasRunnableJob s). auto.
      - done.
      - pose proof (AddDependency_frame dependency dependent s).
        destruct (AddDependency dependency dependent s). auto.
      - pose proof (RemoveDependencies_frame dependency s).
        destruct (RemoveDependencies dependency s). auto.
      - pose proof (AddMissingJobIDs_frame missingIDs s).
        destruct (AddMissingJobIDs missingIDs s). auto.
      - pose proof (RemoveMissingJobIDs_frame missingIDs s).
        destruct (RemoveMissingJobIDs missingIDs s). auto.
      - pose proof (MissingJobIDs_frame s). destruct (MissingJobIDs s). auto.
      - done. }
    destruct (IH (exec c s).2) as [-> ->]. done. }
  unfold checkpoint. by rewrite !(plainAt_ext _ _ _ Hp).
Qed.

Lemma only_PutJob_and_dequeue_touch_jobs_witness :
  let cs := [DoGetJob (ID job1); DoAddRunnableJob (ID job2);
             DoAddDependency (ID job1) (ID job2); DoRemoveDependencies (ID job1);
             DoAddMissingJobIDs [ID job2]; DoMissingJobIDs; DoDisableCaching] in
  let s := (PutJob job1 (SetParser (parseKnown [job1]) initial)).2 in
  numPendingJobs (run cs s) = numPendingJobs s ∧
  plainAt jobs (db (run cs s)) = plainAt jobs (db s) ∧
  checkpoint (db (run cs s)) = checkpoint (db s).
Proof.
  intros cs s. apply (only_PutJob_and_dequeue_touch_jobs cs s).
  repeat constructor; discriminate.
Defined.

(** ** Bounds of the pending counter *)

(** X23.  On a store that does not fail, and short of an overflow, the pending
    counter after a run lies between the balance of the successful puts and
    dequeues and the number of successful puts, counted from where it
    started: the guard rail can only leave it above the balance. *)
Theorem pending_counter_bounds (cs : list Call) (s : state) :
  faults (db s) = [] →
  inRange s →
  numPendingJobs s + puts (trace cs s) < 2 ^ 64 →
  numPendingJobs s + puts (trace cs s) - dequeues (trace cs s)
    ≤ numPendingJobs (run cs s) ≤ numPendingJobs s + puts (trace cs s).
Proof.
  revert s. induction cs as [|c cs IH]; intros s Hq Hr Hb.
  - simpl. unfold puts, dequeues. simpl. lia.
  - cbn [trace run] in *. rewrite puts_cons, dequeues_cons in *.
    destruct (exec_counter_quiet c s Hq) as [Hq1 Hn1].
    destruct (exec_frame c s) as (_&_&_&_&Hr1&_). specialize (Hr1 Hr).
    pose proof (puts_nonneg (trace cs (exec c s).2)).
    unfold inRange in Hr.
    destruct (isPut (c, (exec c s).1)) eqn:EP.
    + rewrite (isPut_isDequeue _ EP).
      rewrite u64_small in Hn1 by lia.
      specialize (IH (exec c s).2 Hq1 Hr1). rewrite Hn1 in IH. lia.
    + destruct (isDequeue (c, (exec c s).1)) eqn:ED.
      * destruct (numPendingJobs s =? 0) eqn:Ez.
        -- apply Z.eqb_eq in Ez.
           specialize (IH (exec c s).2 Hq1 Hr1). rewrite Hn1 in IH. lia.
        -- apply Z.eqb_neq in Ez. rewrite u64_small in Hn1 by lia.
           specialize (IH (exec c s).2 Hq1 Hr1). rewrite Hn1 in IH. lia.
      * specialize (IH (exec c s).2 Hq1 Hr1). rewrite Hn1 in IH. lia.
Qed.

Lemma pending_counter_bounds_witness :
  let cs := [DoPutJob job1; DoAddRunnableJob (ID job1); DoRemoveRunnableJob;
             DoAddRunnableJob (ID job1); DoRemoveRunnableJob; DoPutJob job1] in
  numPendingJobs initial + puts (trace cs initial) - dequeues (trace cs initial)
    ≤ numPendingJobs (run cs initial)
    ≤ numPendingJobs initial + puts (trace cs initial).
Proof.
  intros cs. apply (pending_counter_bounds cs initial);
    [reflexivity | unfold inRange; simpl; lia | vm_compute; reflexivity].
Defined.

(** ** A job from [PutJob] to its dequeue *)

(** X24.  A job that is put, made runnable on an empty queue and dequeued comes
    back as it went in, and the state is back where it was: when the three
    calls succeed, the dequeue returns the job that was put (with caching
    disabled, what the parser makes of its bytes), the pending counter and
    the persisted checkpoint are the count before the put, nothing is
    runnable, and the Job Store no longer has the id. *)
Theorem put_run_dequeue (s : state) (job returned : Job) (s1 s2 s3 : state) :
  linkedAt runnableJobIDs (db s) = [] →
  inRange s →
  numPendingJobs s + 1 < 2 ^ 64 →
  PutJob job s = (None, s1) →
  AddRunnableJob (ID job) s1 = (None, s2) →
  RemoveRunnableJob s2 = ((Some returned, None), s3) →
  (if cachingEnabled s then returned = job
   else Parse (parser s) (Bytes job) = OK returned) ∧
  numPendingJobs s3 = numPendingJobs s ∧
  persistedPending (db s3) = Some (numPendingJobs s) ∧
  linkedAt runnableJobIDs (db s3) = [] ∧
  plainAt jobs (db s3) = delete (ID job) (plainAt jobs (db s)).
Proof.
  unfold inRange. intros Hl Hr Hb HP HA HR.
  pose proof HP as (Hstored & Hc1 & Hcache)%PutJob_ok_inv.
  apply PutJob_None_inv in HP as (Hj1 & Hn1 & _ & Hl1 & _ & Hp1 & _).
  rewrite u64_small in Hn1 by lia.
  unfold AddRunnableJob in HA. apply onStore_inv in HA as (d2 & HA & ->).
  apply lPut_inv in HA as (_ & Hp2 & [(?&_)|(_&_&Hl2&_)]); [done|].
  rewrite (linkedAt_ext _ _ _ Hl1), Hl in Hl2.
  change (linkeddb.insert (ID job) "" []) with [(ID job, "")] in Hl2.
  assert (numPendingJobs (set_db d2 s1) ≠ 0) as Hnz by (simpl; lia).
  destruct (RemoveRunnableJob_checkpoint _ _ _ Hnz HR) as [Hn3 Hc3].
  simpl in Hn3. rewrite Hn1, u64_small in Hn3 by lia.
  destruct (RemoveRunnableJob_ok_head (set_db d2 s1) (ID job) "" [] returned s3
              Hl2 (not_elem_of_nil _) HR)
    as (Hl3 & Hj3 & d & s' & Hpd & HG).
  simpl in Hj3, Hpd. rewrite (plainAt_ext jobs _ _ Hp2), Hj1 in Hj3.
  split_and!.
  - apply GetJob_OK_inv in HG as [(Hc & Hfind & _)|(Hmiss & _ & Hread & _)]; simpl in *.
    + rewrite Hc1 in Hc. rewrite Hc in *. rewrite Hcache, find_Put_eq in Hfind by done.
      congruence.
    + unfold readThrough in Hread. simpl in Hread.
      rewrite (plainAt_ext jobs _ _ Hpd), (plainAt_ext jobs _ _ Hp2), Hstored, Hp1 in Hread.
      destruct (cachingEnabled s) eqn:Hc; [|done].
      rewrite Hc1, Hcache, find_Put_eq in Hmiss by done. by destruct Hmiss.
  - lia.
  - unfold persistedPending. rewrite Hc3, Hn3.
    rewrite ParseUInt64_PackUInt64 by lia. f_equal. lia.
  - done.
  - rewrite Hj3. apply delete_insert_eq.
Qed.

Lemma put_run_dequeue_witness :
  let s := SetParser (parseKnown [job1; job2]) (PutJob job2 initial).2 in
  let s1 := (PutJob job1 s).2 in
  let s2 := (AddRunnableJob (ID job1) s1).2 in
  let s3 := (RemoveRunnableJob s2).2 in
  (if cachingEnabled s then job1 = job1
   else Parse (parser s) (Bytes job1) = OK job1) ∧
  numPendingJobs s3 = numPendingJobs s ∧
  persistedPending (db s3) = Some (numPendingJobs s) ∧
  linkedAt runnableJobIDs (db s3) = [] ∧
  plainAt jobs (db s3) = delete (ID job1) (plainAt jobs (db s)).
Proof.
  intros s s1 s2 s3.
  apply (put_run_dequeue s job1 job1 s1 s2 s3);
    [reflexivity | unfold inRange; vm_compute; split; [discriminate | reflexivity]
    | vm_compute; reflexivity | reflexivity | reflexivity | vm_compute; reflexivity].
Defined.

(** ** A drain cut short by its iterator *)

(** X25.  When a [Next] of the iterator fails in the middle of
    [RemoveDependencies(D)], the call returns the error together with the
    dependents it has read until then, and those are gone from the
    persisted bucket, which holds the entries that were not reached. *)
Theorem RemoveDependencies_failed_next (s : state) (D : ids.ID)
    (done rest : list (string * string)) (fs : list bool) :
  handlesOK s →
  linkedAt (bucket D) (db s) = done ++ rest →
  NoDup (keys (done ++ rest)) →
  Forall ids.wf (keys done) →
  faults (db s) = replicate (2 * length done) false ++ true :: fs →
  (RemoveDependencies D s).1 = (keys done, Some ErrStorage) ∧
  linkedAt (bucket D) (db (RemoveDependencies D s).2) = rest.
Proof.
  intros Hok Hl Hn Hwf Hf. unfold RemoveDependencies.
  destruct (getDependentsDB D s) as [h s1] eqn:E1.
  apply getDependentsDB_inv in E1 as (-> & _ & Hdb & _); [|done].
  unfold linkeddb.NewIterator, onStore. rewrite Hdb, Hl.
  destruct (removeLoop_prefix (bucket D) done rest [] (db s) _ Hwf Hf)
    as (d' & -> & Hl' & Hf').
  assert (removeLoop (bucket D) rest ([] ++ keys done) d' =
          ((keys done, Some ErrStorage), (tick d').2)) as ->.
  { destruct rest as [|[k v] rest]; cbn [removeLoop]; unfold tick; rewrite Hf'; done. }
  simpl. split; [done|].
  rewrite tick_linkedAt, Hl', Hl. by apply removeAll_prefix.
Qed.

Lemma RemoveDependencies_failed_next_witness :
  let D := ids.lit "D" in
  let X1 := ids.lit "X1" in
  let X2 := ids.lit "X2" in
  let X3 := ids.lit "X3" in
  let st := mkStore ∅ {[ bucket D := [(X1, ""); (X2, ""); (X3, "")] ]}
                    [false; false; true] in
  let s := set_db st initial in
  (RemoveDependencies D s).1 = ([X1], Some ErrStorage) ∧
  linkedAt (bucket D) (db (RemoveDependencies D s).2) = [(X2, ""); (X3, "")].
Proof.
  intros D X1 X2 X3 st s.
  apply (RemoveDependencies_failed_next s D [(X1, "")] [(X2, ""); (X3, "")] []).
  - constructor.
  - vm_compute. reflexivity.
  - compute_done.
  - repeat constructor.
  - reflexivity.
Defined.
